(** * LLaMA2-Accessory: the streaming generation core

    A shallow embedding of
    - [accessory/data/conversation/lib.py]  (prompt rendering),
    - [accessory/model/meta.py]             (nucleus sampling, streaming decode loop),
    - [accessory/demos/multi_turn_mm.py]    (stream trimming, worker / orchestrator relay),
    followed by the properties established about them.

    A [str] is held as the sequence of its code points, one character
    each, for text whose code points lie below 256; a tensor entry is
    held as the rational number it denotes, and tensor arithmetic
    rounds into the tensor's floating-point dtype. *)

From Stdlib Require Import String Ascii List ZArith QArith Lia Lqa Bool.
From Stdlib Require Import Qround Qabs Qpower DecimalString.
From Stdlib Require Import Permutation Sorted.
Import ListNotations.

Local Open Scope string_scope.
Local Open Scope Z_scope.

(* ================================================================== *)
(** * Python runtime fragments used by the sources *)
(* ================================================================== *)

Module Py.

(** Exceptions the modelled code can raise. *)
Inductive exn : Type :=
| AssertionError (msg : string)
| TypeError
| ValueError
| IndexError
| AttributeError
| RuntimeError
| OtherError (tag : string).

(** [RecursionError], raised by the interpreter when the depth of
    nested calls passes [sys.getrecursionlimit()]. *)
Definition RecursionError : exn := OtherError "RecursionError".

(** A computation either returns or raises. *)
Inductive result (A : Type) : Type :=
| Ok (a : A)
| Raise (e : exn).
Arguments Ok {A} a.
Arguments Raise {A} e.

Definition bind {A B} (r : result A) (k : A -> result B) : result B :=
  match r with
  | Ok a => k a
  | Raise e => Raise e
  end.

Definition is_ok {A} (r : result A) : bool :=
  match r with Ok _ => true | Raise _ => false end.

(** The one-character string ["\n"]. *)
Definition nl : string := String (ascii_of_nat 10) EmptyString.

(** [len(s)] for a [str]. *)
Definition len (s : string) : Z := Z.of_nat (String.length s).

(** First [n] characters, and the rest. *)
Fixpoint take (n : nat) (s : string) : string :=
  match n, s with
  | S n', String c s' => String c (take n' s')
  | _, _ => EmptyString
  end.

Fixpoint drop (n : nat) (s : string) : string :=
  match n, s with
  | S n', String _ s' => drop n' s'
  | _, _ => s
  end.

(** Normalisation of a slice bound against a length: negative bounds
    count from the end, and the outcome is clamped to [0, length]. *)
Definition clamp (i length : Z) : Z :=
  if i <? 0 then Z.max (i + length) 0 else Z.min i length.

(** [s[:stop]] *)
Definition slice_to (s : string) (stop : Z) : string :=
  take (Z.to_nat (clamp stop (len s))) s.

(** [s.find(sub)]: lowest index at which [sub] occurs, or [-1]. *)
Fixpoint find_from (i : Z) (s sub : string) : Z :=
  if String.prefix sub s then i
  else match s with
       | EmptyString => -1
       | String _ s' => find_from (i + 1) s' sub
       end.

Definition find (s sub : string) : Z := find_from 0 s sub.

(** [c.isspace()] for a code point below 256: the whitespace that
    [str.rstrip()] removes there is U+0009..U+000D, U+001C..U+001F,
    U+0020, U+0085 and U+00A0. *)
Definition isspace (c : ascii) : bool :=
  let n := nat_of_ascii c in
  ((9 <=? n) && (n <=? 13))%nat || ((28 <=? n) && (n <=? 32))%nat
  || (n =? 133)%nat || (n =? 160)%nat.

(** [s.rstrip()] *)
Fixpoint rstrip (s : string) : string :=
  match s with
  | EmptyString => EmptyString
  | String c s' =>
      match rstrip s' with
      | EmptyString => if isspace c then EmptyString else String c EmptyString
      | r => String c r
      end
  end.

(** List slices [l[start:]] and [l[start:stop]]. *)
Definition lslice_from {A} (l : list A) (start : Z) : list A :=
  skipn (Z.to_nat (clamp start (Z.of_nat (length l)))) l.

Definition lslice {A} (l : list A) (start stop : Z) : list A :=
  let n := Z.of_nat (length l) in
  let a := clamp start n in
  let b := clamp stop n in
  firstn (Z.to_nat (b - a)) (skipn (Z.to_nat a) l).

(** [l[i] = v] for an index known to be in range; out of range the
    tensor assignment raises, which callers model separately. *)
Fixpoint lset {A} (l : list A) (i : nat) (v : A) : list A :=
  match l, i with
  | [], _ => []
  | _ :: t, O => v :: t
  | h :: t, S i' => h :: lset t i' v
  end.

(** [b.startswith(a)] and [b.endswith(a)], as propositions. *)
Definition is_prefix (a b : string) : Prop := exists u, b = a ++ u.
Definition is_suffix (a b : string) : Prop := exists u, b = u ++ a.

(** [b] extends [a] by at least one character. *)
Definition is_proper_prefix (a b : string) : Prop := is_prefix a b /\ a <> b.

(** [str(n)] for an [int], and [str((a, b))] for a pair of them. *)
Definition str_of_int (n : Z) : string := NilZero.string_of_int (Z.to_int n).

Definition str_of_pair (a b : Z) : string :=
  "(" ++ str_of_int a ++ ", " ++ str_of_int b ++ ")".

(** [e] ends with a non-empty prefix of [sep]. *)
Definition ends_with_start_of (e sep : string) : Prop :=
  exists w, w <> "" /\ is_prefix w sep /\ is_suffix w e.

End Py.

Import Py.

(* ================================================================== *)
(** * accessory/data/conversation/lib.py *)
(* ================================================================== *)

Module ConversationLib.

Inductive SeparatorStyle : Type := SINGLE | TWO.

(** The second component of a turn: [None], a [str], or a 3-tuple
    whose first component is the text. *)
Inductive message : Type :=
| MNone
| MStr (s : string)
| MTuple (s : string) (x y : string).

Definition turn : Type := (string * message)%type.

Record Conversation : Type := {
  system : string;
  roles : string * string;
  messages : list turn;
  sep_style : SeparatorStyle;
  sep : string;
  sep2 : option string;
  version : string;
  skip_next : bool
}.

(** [message is not None] *)
Definition is_not_None (m : message) : bool :=
  match m with MNone => false | _ => true end.

(** Truthiness, as tested by [if message:] in the TWO branch. *)
Definition truthy (m : message) : bool :=
  match m with
  | MNone => false
  | MStr s => negb (s =? "")%string
  | MTuple _ _ _ => true
  end.

(** [if type(message) is tuple: message, _, _ = message] *)
Definition untuple (m : message) : string :=
  match m with
  | MNone => ""
  | MStr s => s
  | MTuple s _ _ => s
  end.

Record process_result : Type := {
  conv : string;
  to_predict : list string
}.

Definition assert_last : exn := AssertionError "only last message can be None".

Section Process.
Variable self : Conversation.
Variable space_part_of_next_word : bool.

Definition n_messages : Z := Z.of_nat (length (messages self)).

(** The tail shared by both branches for a turn without message. *)
Definition open_turn (ret role : string) : string :=
  let ret := ret ++ (" " ++ role ++ ":") in
  if negb space_part_of_next_word then ret ++ " " else ret.

Definition learn (l_to_predict : list string) (role to_predict_value : string)
  : list string :=
  if (role =? snd (roles self))%string then
    l_to_predict ++
      [if space_part_of_next_word then " " ++ to_predict_value else to_predict_value]
  else l_to_predict.

(** Lines 29-43: the loop of the SINGLE branch, from turn [i] on. *)
Fixpoint single_loop (i : Z) (todo : list turn) (ret : string)
    (l_to_predict : list string) : result (string * list string) :=
  match todo with
  | [] => Ok (ret, l_to_predict)
  | (role, message) :: rest =>
      if is_not_None message then
        let message := untuple message in
        let ret := ret ++ (" " ++ role ++ ": " ++ message ++ nl ++ sep self) in
        single_loop (i + 1) rest ret
          (learn l_to_predict role (message ++ nl ++ sep self))
      else if i =? n_messages - 1 then
        single_loop (i + 1) rest (open_turn ret role) l_to_predict
      else Raise assert_last
  end.

(** [seps[i % 2]] with [seps = [self.sep, self.sep2]]. *)
Definition seps (i : Z) : option string :=
  if i mod 2 =? 0 then Some (sep self) else sep2 self.

(** Lines 47-61: the loop of the TWO branch.  Concatenating a [str]
    with a [sep2] that is [None] raises [TypeError]. *)
Fixpoint two_loop (i : Z) (todo : list turn) (ret : string)
    (l_to_predict : list string) : result (string * list string) :=
  match todo with
  | [] => Ok (ret, l_to_predict)
  | (role, message) :: rest =>
      if truthy message then
        let message := untuple message in
        match seps i with
        | None => Raise TypeError
        | Some s =>
            two_loop (i + 1) rest (ret ++ (" " ++ role ++ ": " ++ message ++ s))
              (learn l_to_predict role (message ++ s))
        end
      else if i =? n_messages - 1 then
        two_loop (i + 1) rest (open_turn ret role) l_to_predict
      else Raise assert_last
  end.

Definition pack (r : string * list string) : result process_result :=
  Ok {| conv := fst r; to_predict := snd r |}.

(** [Conversation.process] *)
Definition process : result process_result :=
  match sep_style self with
  | SINGLE =>
      bind (single_loop 0 (messages self) (system self ++ nl ++ nl ++ sep self) [])
           pack
  | TWO =>
      bind (two_loop 0 (messages self) (system self ++ sep self) []) pack
  end.

End Process.

(** Values a call can hand back: a [str] or the result dictionary. *)
Inductive value : Type :=
| VStr (s : string)
| VDict (d : process_result).

(** [v['conv']] *)
Definition subscript_conv (v : value) : result value :=
  match v with
  | VDict d => Ok (VStr (conv d))
  | VStr _ => Raise TypeError
  end.

(** [Conversation.get_prompt], lines 71-72:
    [return self.get_prompt(space_part_of_next_word)['conv']].
    [frames] is the number of nested calls the interpreter still
    allows: a call made when none is left raises [RecursionError]
    instead of running its body, and the callers, which have no
    handler, let it pass. *)
Fixpoint get_prompt (frames : nat) (self : Conversation)
    (space_part_of_next_word : bool) : result value :=
  match frames with
  | O => Raise RecursionError
  | S frames' =>
      bind (get_prompt frames' self space_part_of_next_word) subscript_conv
  end.

(** Modelled from the spec: [ConversationGenerator.response_end_signal]
    is not among the sources; section 4.1 gives it as [sep] for SINGLE
    and the separator selected by the assistant's turn parity for the
    paired style. *)
Definition response_end_signal (c : Conversation) : option string :=
  match sep_style c with
  | SINGLE => Some (sep c)
  | TWO => sep2 c
  end.

(** ** The rendering as section 4.1 words it (SINGLE style) *)

Definition segment (c : Conversation) (flag : bool) (t : turn) : string :=
  match snd t with
  | MNone => " " ++ fst t ++ ":" ++ (if flag then "" else " ")
  | m => " " ++ fst t ++ ": " ++ untuple m ++ nl ++ sep c
  end.

Definition join (pieces : list string) : string := fold_right append "" pieces.

Definition render_single (c : Conversation) (flag : bool) : string :=
  (system c ++ nl ++ nl ++ sep c) ++ join (map (segment c flag) (messages c)).

(** Some turn other than the last one has no message. *)
Fixpoint absent_before_last (l : list turn) : bool :=
  match l with
  | [] => false
  | (_, m) :: rest =>
      match rest with
      | [] => false
      | _ => negb (is_not_None m) || absent_before_last rest
      end
  end.

(** The scenario of section 8. *)
Definition hi_conversation : Conversation :=
  {| system := "S";
     roles := ("Human", "Assistant");
     messages := [("Human", MStr "Hi"); ("Assistant", MNone)];
     sep_style := SINGLE;
     sep := "###";
     sep2 := None;
     version := "Unknown";
     skip_next := false |}.

Definition empty_conversation : Conversation :=
  {| system := "S";
     roles := ("Human", "Assistant");
     messages := [];
     sep_style := SINGLE;
     sep := "###";
     sep2 := None;
     version := "Unknown";
     skip_next := false |}.

End ConversationLib.


(* ================================================================== *)
(** * Floating-point tensors *)
(* ================================================================== *)

Module Float.

Local Open Scope Q_scope.

(** A binary floating-point format: [prec] significant bits, and
    [emin] the exponent of its smallest positive value.  The values met
    in [sample_top_p] are probabilities and their partial sums, far from
    the largest finite value of any dtype, so that no upper exponent
    bound is carried; infinities and NaN do not arise. *)
Record format : Type := {
  prec : positive;
  emin : Z
}.

(** [torch.float16], [torch.bfloat16], [torch.float32],
    [torch.float64]. *)
Definition float16 : format := {| prec := 11; emin := -24 |}.
Definition bfloat16 : format := {| prec := 8; emin := -133 |}.
Definition float32 : format := {| prec := 24; emin := -149 |}.
Definition float64 : format := {| prec := 53; emin := -1074 |}.

Definition pow2 (e : Z) : Q := 2 ^ e.

(** The exponent [k] with [2^k <= x < 2^(k+1)], for a positive [x]. *)
Definition ilog2 (x : Q) : Z :=
  let k := (Z.log2 (Qnum x) - Z.log2 (Z.pos (Qden x)))%Z in
  if Qle_bool (pow2 k) x then k else (k - 1)%Z.

(** The nearest integer, ties to even. *)
Definition rne (x : Q) : Z :=
  let f := Qfloor x in
  match Qcompare (x - inject_Z f) (1 # 2) with
  | Lt => f
  | Eq => if Z.even f then f else (f + 1)%Z
  | Gt => (f + 1)%Z
  end.

(** The exponent of the unit in the last place at [x]. *)
Definition expo (f : format) (x : Q) : Z :=
  Z.max (ilog2 (Qabs x) - (Z.pos (prec f) - 1)) (emin f).

(** The value of the format nearest to [x], ties to even: what an
    operation whose exact result is [x] stores (IEEE 754
    round-to-nearest-even, with gradual underflow). *)
Definition round (f : format) (x : Q) : Q :=
  if Qeq_bool x 0 then 0
  else Qred (inject_Z (rne (x / pow2 (expo f x))) * pow2 (expo f x)).

(** [x] is a value of the format. *)
Definition representable (f : format) (x : Q) : Prop := round f x == x.

(** [a] has at least the precision and the exponent range of [d]. *)
Definition wider (a d : format) : Prop :=
  (Z.pos (prec d) <= Z.pos (prec a))%Z /\ (emin a <= emin d)%Z.

End Float.


(* ================================================================== *)
(** * accessory/model/meta.py *)
(* ================================================================== *)

Module Meta.

(** The streaming output item ["text"], ["end_of_content"]. *)
Record PartialResult : Type := {
  text : string;
  end_of_content : bool
}.

(** A generator run to completion: the items it yields in order, then
    either the value carried by its [return] or the exception that
    escaped its body.  Nothing past the item a consumer stops at is
    evaluated, which a consumer models by not looking further. *)
Inductive generator : Type :=
| Yield (item : PartialResult) (rest : generator)
| Return (value : PartialResult)
| Throw (e : exn).

(** [for x in g] hands the consumer the yielded items only; the value
    of [return] travels in [StopIteration] and is dropped. *)
Fixpoint iterated (g : generator) : list PartialResult :=
  match g with
  | Yield item rest => item :: iterated rest
  | Return _ => []
  | Throw _ => []
  end.

(** ** sample_top_p (lines 360-368)

    [probs] is a tensor of some floating-point dtype; its entries are
    values of that dtype.  Each operation on entries returns the exact
    result rounded into the dtype ([Float.round]).  A sum over entries
    is accumulated from left to right in an accumulation type, which is
    the dtype itself or a wider one (torch accumulates the 16-bit types
    in float, and float in double in its CPU kernels), and what is
    stored is rounded into the dtype. *)

Local Open Scope Q_scope.

(** The exact sum of a list, in which masses are stated. *)
Fixpoint qsum (l : list Q) : Q :=
  match l with
  | [] => 0
  | x :: t => x + qsum t
  end.

Definition nonneg (l : list Q) : Prop := Forall (fun x => 0 <= x) l.

(** [torch.sort(probs, descending=True)]: the values with the indices
    they came from. *)
Fixpoint insert_desc (x : Q * nat) (l : list (Q * nat)) : list (Q * nat) :=
  match l with
  | [] => [x]
  | y :: t => if Qle_bool (fst y) (fst x) then x :: y :: t else y :: insert_desc x t
  end.

Definition sort_desc (probs : list Q) : list (Q * nat) :=
  fold_right insert_desc [] (combine probs (seq 0 (length probs))).

Section Dtype.
(** [probs.dtype], and the type in which sums over it are accumulated. *)
Variable dtype : Float.format.
Variable acc : Float.format.

(** [a - b] and [a / b] on entries of the tensor. *)
Definition fsub (a b : Q) : Q := Float.round dtype (a - b).
Definition fdiv (a b : Q) : Q := Float.round dtype (a / b).

(** [torch.cumsum]: [a] is the sum accumulated so far. *)
Fixpoint cumsum_from (a : Q) (l : list Q) : list Q :=
  match l with
  | [] => []
  | x :: t =>
      let a := Float.round acc (a + x) in
      Float.round dtype a :: cumsum_from a t
  end.

Definition cumsum (l : list Q) : list Q := cumsum_from 0 l.

(** [mask = probs_sum - probs_sort > p]: the Python number [p] is
    converted to the dtype of the tensor it is compared with. *)
Definition mask_of (probs_sum probs_sort : list Q) (p : Q) : list bool :=
  map (fun sx => negb (Qle_bool (fsub (fst sx) (snd sx)) (Float.round dtype p)))
      (combine probs_sum probs_sort).

(** [probs_sort[mask] = 0.0] *)
Definition masked_fill (probs_sort : list Q) (mask : list bool) : list Q :=
  map (fun xm => if (snd xm : bool) then 0 else fst xm) (combine probs_sort mask).

(** Lines 361-364: the sorted probabilities after nucleus filtering. *)
Definition nucleus (probs : list Q) (p : Q) : list Q :=
  let probs_sort := map fst (sort_desc probs) in
  let probs_sum := cumsum probs_sort in
  masked_fill probs_sort (mask_of probs_sum probs_sort p).

(** Number of entries the filter leaves untouched. *)
Definition kept_count (probs : list Q) (p : Q) : nat :=
  let probs_sort := map fst (sort_desc probs) in
  length (filter negb (mask_of (cumsum probs_sort) probs_sort p)).

(** [probs_sort.sum(dim=-1, keepdim=True)] *)
Definition tsum (l : list Q) : Q :=
  Float.round dtype (fold_left (fun a x => Float.round acc (a + x)) l 0).

Section Sampling.
(** [torch.multinomial(weights, num_samples=1)]: the drawn position. *)
Variable multinomial : list Q -> nat.

(** Line 365 divides by a sum that the properties below show to be
    positive for a distribution; a zero divisor, which would fill the
    tensor with NaN, is outside this model. *)
Definition sample_top_p (probs : list Q) (p : Q) : nat :=
  let probs_idx := map snd (sort_desc probs) in
  let kept := nucleus probs p in
  let probs_sort := map (fun x => fdiv x (tsum kept)) kept in
  let next_token := multinomial probs_sort in
  nth next_token probs_idx O.
End Sampling.

End Dtype.

Local Close Scope Q_scope.

(** ** stream_generate (lines 301-357) *)

Section StreamGenerate.
(** [self.tokenizer] *)
Variable encode : string -> list Z.
Variable decode : list Z -> string.
Variable eos_id : Z.
(** [self.llma]: its arguments, and lines 332-338 as one step, from the
    cache state, the token window, [prev_pos] and the image to the
    sampled token and the new cache state; the step may raise. *)
Variable args_max_seq_len : Z.
Variable image_words : Z.
Variable model_state : Type.
Variable image_t : Type.
Variable next_token_of :
  model_state -> list Z -> Z -> option image_t -> result (Z * model_state).

Record decode_setup : Type := {
  max_seq_len : Z;
  max_prompt_size : Z;
  prompt_tokens : list Z;
  prompt_size : Z;
  total_len : Z;
  tokens0 : list Z
}.

(** Lines 314-316. *)
Definition window (image : option image_t) : Z :=
  match image with
  | Some _ => args_max_seq_len - image_words
  | None => args_max_seq_len
  end.

(** [tokens[:len(prompt_tokens)] = torch.tensor(prompt_tokens)]: the
    slice has [min] of the two lengths; the shapes must agree, a
    one-element value being broadcast. *)
Definition assign_prefix (tokens prompt : list Z) : result (list Z) :=
  let k := length prompt in
  let m := Nat.min k (length tokens) in
  if (k =? m)%nat then Ok (prompt ++ skipn k tokens)%list
  else if (k =? 1)%nat then Ok tokens
  else Raise RuntimeError.

(** Lines 310-328.  [torch.full] rejects a negative size. *)
Definition init (prompt : string) (image : option image_t) (max_gen_len : Z)
  : result decode_setup :=
  let prompt_tokens := encode prompt in
  let max_seq_len := window image in
  let max_prompt_size := max_seq_len - max_gen_len in
  let prompt_tokens := lslice_from prompt_tokens (- max_prompt_size) in
  let prompt_size := Z.of_nat (length prompt_tokens) in
  let total_len := Z.min max_seq_len (max_gen_len + prompt_size) in
  if total_len <? 0 then Raise RuntimeError
  else
    bind (assign_prefix (repeat 0 (Z.to_nat total_len)) prompt_tokens)
      (fun tokens =>
         Ok {| max_seq_len := max_seq_len;
               max_prompt_size := max_prompt_size;
               prompt_tokens := prompt_tokens;
               prompt_size := prompt_size;
               total_len := total_len;
               tokens0 := tokens |}).

(** Lines 348-352: the first stop symbol, in iteration order, that
    occurs in [generated], with its position. *)
Fixpoint first_stop (generated : string) (symbols : list string) : option Z :=
  match symbols with
  | [] => None
  | stop_symbol :: more =>
      let stop_pos := find generated stop_symbol in
      if negb (stop_pos =? -1) then Some stop_pos else first_stop generated more
  end.

Section Loop.
Variable image : option image_t.
Variable additional_stop_symbols : list string.
Variable start_pos : Z.

(** Lines 356-357. *)
Definition after_loop (tokens : list Z) (generate_until : Z) : generator :=
  Return {| text := decode (lslice tokens start_pos generate_until);
            end_of_content := true |}.

(** Lines 331-354; [n] is the number of positions left in
    [range(start_pos, total_len)]. *)
Fixpoint loop (n : nat) (cur_pos : Z) (m : model_state) (tokens : list Z)
    (prev_pos generate_until : Z) : generator :=
  match n with
  | O => after_loop tokens generate_until
  | S n' =>
      match next_token_of m (lslice tokens prev_pos cur_pos) prev_pos
              (if prev_pos =? 0 then image else None) with
      | Raise e => Throw e
      | Ok (next_token, m') =>
          if next_token =? eos_id then after_loop tokens generate_until
          else
            let tokens := lset tokens (Z.to_nat cur_pos) next_token in
            let prev_pos := cur_pos in
            let generate_until := cur_pos + 1 in
            let generated := decode (lslice tokens start_pos generate_until) in
            match first_stop generated additional_stop_symbols with
            | Some stop_pos =>
                Return {| text := slice_to generated stop_pos; end_of_content := true |}
            | None =>
                Yield {| text := generated; end_of_content := false |}
                  (loop n' (cur_pos + 1) m' tokens prev_pos generate_until)
            end
      end
  end.
End Loop.

Definition stream_generate (m : model_state) (prompt : string)
    (image : option image_t) (max_gen_len : Z)
    (additional_stop_symbols : list string) : generator :=
  match init prompt image max_gen_len with
  | Raise e => Throw e
  | Ok s =>
      let start_pos := prompt_size s in
      loop image additional_stop_symbols start_pos
        (Z.to_nat (total_len s - start_pos)) start_pos m (tokens0 s) 0 start_pos
  end.

End StreamGenerate.

End Meta.


(* ================================================================== *)
(** * accessory/demos/multi_turn_mm.py *)
(* ================================================================== *)

Module MultiTurn.
Import Meta.

(** What travels on the response queue. *)
Inductive item : Type :=
| Ready
| ModelFailure
| Content (d : PartialResult).

(** An [mp.Queue], seen as the items put on it so far, oldest first.
    A worker's [response_queue] is [None] for every rank but 0
    (line 297). *)
Definition queue : Type := list item.

Definition put (q : queue) (x : item) : queue := (q ++ [x])%list.

(** [if response_queue is not None: response_queue.put(x)] *)
Definition put_if_present (response_queue : option queue) (x : item) : option queue :=
  match response_queue with
  | Some q => Some (put q x)
  | None => None
  end.

(** Lines 112-117. *)
Definition cut_at_sep (conv_sep : string) (stream_response : PartialResult)
  : PartialResult :=
  let end_pos := find (text stream_response) conv_sep in
  if negb (end_pos =? -1) then
    {| text := rstrip (slice_to (text stream_response) end_pos) ++ nl;
       end_of_content := true |}
  else stream_response.

(** Lines 121-126; [None] stands for the [continue] of line 123. *)
Definition hold_back (conv_sep : string) (stream_response : PartialResult)
  : option PartialResult :=
  if negb (end_of_content stream_response) then
    if len (text stream_response) <? len conv_sep then None
    else Some {| text := slice_to (text stream_response) (- len conv_sep);
                 end_of_content := end_of_content stream_response |}
  else Some stream_response.

(** The per-item transformation of lines 112-126. *)
Definition trimmer (conv_sep : string) (stream_response : PartialResult)
  : option PartialResult :=
  hold_back conv_sep (cut_at_sep conv_sep stream_response).

(** Lines 108-132: the [for] loop over the generator, threading the
    queue; the second component tells how the loop was left. *)
Fixpoint consume (conv_sep : string) (response_queue : option queue)
    (g : generator) : option queue * result unit :=
  match g with
  | Return _ => (response_queue, Ok tt)
  | Throw e => (response_queue, Raise e)
  | Yield stream_response rest =>
      match trimmer conv_sep stream_response with
      | None => consume conv_sep response_queue rest
      | Some stream_response =>
          let response_queue := put_if_present response_queue (Content stream_response) in
          if end_of_content stream_response then (response_queue, Ok tt)
          else consume conv_sep response_queue rest
      end
  end.

(** Lines 93-134: one turn of [while True].  [request] is what lines
    97-107 come to: the generator to iterate, or the exception raised
    before the loop is entered.  A [Raise] in the outcome has escaped
    the [except] clause and ends the worker. *)
Definition worker_cycle (conv_sep : string) (response_queue : option queue)
    (request : result generator) : option queue * result unit :=
  let response_queue := put_if_present response_queue Ready in
  let tried :=
    match request with
    | Ok g => consume conv_sep response_queue g
    | Raise e => (response_queue, Raise e)
    end in
  match snd tried with
  | Ok _ => (fst tried, Ok tt)
  | Raise _ =>
      match fst tried with
      | Some q => (Some (put q ModelFailure), Ok tt)
      | None => (None, Raise AttributeError)
      end
  end.

(** The Gradio chat history: question / answer pairs. *)
Definition chatbot : Type := list (string * option string).

(** [chatbot[-1][1] = t] *)
Fixpoint set_last_answer (cb : chatbot) (t : string) : result chatbot :=
  match cb with
  | [] => Raise IndexError
  | (q, a) :: more =>
      match more with
      | [] => Ok [(q, Some t)]
      | _ => bind (set_last_answer more t) (fun more' => Ok ((q, a) :: more'))
      end
  end.

(** How [stream_model_output] stops: its loop is left, an exception
    escapes, or [response_queue.get()] waits for an item that never
    comes. *)
Inductive ending : Type :=
| Finished
| Failed (e : exn)
| Waiting.

(** One [yield chatbot], with the content piece that was written into
    the history just before.  The generator yields one and the same list
    object every time; [history] is its content at the moment of the
    yield, which is what the caller reads before resuming the generator. *)
Record shown : Type := {
  history : chatbot;
  piece : PartialResult
}.

(** Lines 156-159, over the items that arrive on the queue in order. *)
Fixpoint await_ready (incoming : list item) : option (list item) :=
  match incoming with
  | [] => None
  | Ready :: later => Some later
  | _ :: later => await_ready later
  end.

(** Lines 162-169.  Subscripting a [Ready] object raises [TypeError]. *)
Fixpoint relay (incoming : list item) (cb : chatbot) : list shown * ending :=
  match incoming with
  | [] => ([], Waiting)
  | ModelFailure :: _ => ([], Failed RuntimeError)
  | Ready :: _ => ([], Failed TypeError)
  | Content content_piece :: later =>
      match set_last_answer cb (text content_piece) with
      | Raise e => ([], Failed e)
      | Ok cb' =>
          let out := {| history := cb'; piece := content_piece |} in
          if end_of_content content_piece then ([out], Finished)
          else let r := relay later cb' in (out :: fst r, snd r)
      end
  end.

(** [gradio_worker.stream_model_output] as seen by its caller. *)
Definition stream_model_output (incoming : list item) (cb : chatbot)
  : list shown * ending :=
  match await_ready incoming with
  | None => ([], Waiting)
  | Some later => relay later cb
  end.

(** The content pieces relayed to the caller, in order. *)
Definition observed (incoming : list item) (cb : chatbot) : list PartialResult :=
  map piece (fst (stream_model_output incoming cb)).

(** The items the loop of lines 108-132 hands to [response_queue.put],
    in order: nothing for a suppressed item, nothing after a terminal
    one. *)
Fixpoint emitted (conv_sep : string) (g : generator) : list PartialResult :=
  match g with
  | Yield stream_response rest =>
      match trimmer conv_sep stream_response with
      | None => emitted conv_sep rest
      | Some out =>
          out :: (if end_of_content out then [] else emitted conv_sep rest)
      end
  | Return _ => []
  | Throw _ => []
  end.

(** A sequence of items with no item after a terminal one. *)
Fixpoint stops_at_terminal (l : list PartialResult) : bool :=
  match l with
  | [] => true
  | d :: later =>
      if end_of_content d then
        match later with [] => true | _ => false end
      else stops_at_terminal later
  end.

Definition nonterminal (d : PartialResult) : bool := negb (end_of_content d).

(** What rank 0 puts on an empty queue during one cycle. *)
Definition primary_posts (conv_sep : string) (g : generator) : list item :=
  match fst (worker_cycle conv_sep (Some []) (Ok g)) with
  | Some q => q
  | None => []
  end.

End MultiTurn.

(* ================================================================== *)
(** * Concrete instances used by the scenarios *)
(* ================================================================== *)

Module Scenario.
Import Meta MultiTurn.

(** A tokenizer with one character per token id and a lone
    beginning-of-sequence token for every prompt. *)
Definition bos_id : Z := 1.
Definition eos_id : Z := 2.
Definition encode (prompt : string) : list Z := [bos_id].
Fixpoint decode (ids : list Z) : string :=
  match ids with
  | [] => EmptyString
  | t :: more => String (ascii_of_nat (Z.to_nat t)) (decode more)
  end.

(** A model that plays a script: its state is the list of tokens it
    will still produce, and it answers end-of-sequence after that. *)
Definition script : Type := list Z.
Definition play (m : script) (window : list Z) (prev_pos : Z) (image : option unit)
  : result (Z * script) :=
  match m with
  | [] => Ok (eos_id, [])
  | t :: more => Ok (t, more)
  end.

(** A model that fails on its first step. *)
Definition broken (m : script) (window : list Z) (prev_pos : Z) (image : option unit)
  : result (Z * script) :=
  Raise (OtherError "CUDA error").

Definition run (step : script -> list Z -> Z -> option unit -> result (Z * script))
    (m : script) (max_gen_len : Z) : generator :=
  stream_generate encode decode eos_id 2048 0 script unit step m "" None max_gen_len [].

(** [max_gen_len = 5], end-of-sequence forced at step 3. *)
Definition eos_at_step_3 : generator := run play [97; 98; eos_id] 5.

(** ["a  ###"] arriving one character at a time. *)
Definition spaces_then_sep : generator := run play [97; 32; 32; 35; 35; 35] 10.

Definition one_question : chatbot := [("Hi", None)].

End Scenario.


(* ================================================================== *)
(** * accessory/data/conversation/lib.py: objects and templates *)
(* ================================================================== *)

Module ConversationObjects.
Import ConversationLib.

(** [messages: List | Tuple]: the templates build a tuple, [copy] a
    list; only a list has [append]. *)
Inductive container : Type := PyList | PyTuple.

Record instance : Type := {
  fields : Conversation;
  holder : container
}.

(** [Conversation.append_message], lines 74-75. *)
Definition append_message (self : instance) (role : string) (message : message)
  : result instance :=
  match holder self with
  | PyTuple => Raise AttributeError
  | PyList =>
      Ok {| fields :=
              {| system := system (fields self);
                 roles := roles (fields self);
                 messages := (messages (fields self) ++ [(role, message)])%list;
                 sep_style := sep_style (fields self);
                 sep := sep (fields self);
                 sep2 := sep2 (fields self);
                 version := version (fields self);
                 skip_next := skip_next (fields self) |};
            holder := PyList |}
  end.

(** [Conversation.copy], lines 77-84: [version] and [skip_next] are not
    passed on and take their defaults. *)
Definition copy (self : instance) : instance :=
  {| fields :=
       {| system := system (fields self);
          roles := roles (fields self);
          messages := map (fun xy => (fst xy, snd xy)) (messages (fields self));
          sep_style := sep_style (fields self);
          sep := sep (fields self);
          sep2 := sep2 (fields self);
          version := "Unknown";
          skip_next := false |};
     holder := PyList |}.

(** Appending turn after turn, stopping at the first failure. *)
Fixpoint append_all (self : instance) (turns : list turn) : result instance :=
  match turns with
  | [] => Ok self
  | (role, message) :: later =>
      bind (append_message self role message) (fun self' => append_all self' later)
  end.

Definition template (system_ : string) (roles_ : string * string)
    (style : SeparatorStyle) (sep_ : string) (sep2_ : option string)
    (version_ : string) : instance :=
  {| fields := {| system := system_; roles := roles_; messages := [];
                  sep_style := style; sep := sep_; sep2 := sep2_;
                  version := version_; skip_next := false |};
     holder := PyTuple |}.

Definition curious_human : string :=
  "A chat between a curious human and an artificial intelligence assistant. "
  ++ "The assistant gives helpful, detailed, and polite answers to the human's questions.".

Definition curious_user : string :=
  "A chat between a curious user and an artificial intelligence assistant. "
  ++ "The assistant gives helpful, detailed, and polite answers to the user's questions.".

Definition llava_system : string :=
  "You are LLaVA, a large language and vision assistant trained by UW Madison WAIV Lab."
  ++ "You are able to understand the visual content that the user provides, and assist the user with a variety of tasks using natural language."
  ++ "Follow the instructions carefully and explain your answers in detail.".

(** Lines 87-174. *)
Definition conv_v1 : instance :=
  template curious_human ("Human", "Assistant") SINGLE "###" None "Unknown".
Definition conv_v1_2 : instance :=
  template curious_human ("Human", "Assistant") SINGLE "###" None "Unknown".
Definition conv_vicuna_v1_1 : instance :=
  template curious_user ("USER", "ASSISTANT") TWO " " (Some "</s>") "v1".
Definition conv_bair_v1 : instance :=
  template "BEGINNING OF CONVERSATION:" ("USER", "GPT") TWO " " (Some "</s>") "Unknown".
Definition simple_conv : instance :=
  template curious_human ("Human", "Assistant") SINGLE "###" None "Unknown".
Definition simple_conv_multimodal : instance :=
  template llava_system ("Human", "Assistant") SINGLE "###" None "Unknown".
Definition conv_llava_v1 : instance :=
  template llava_system ("USER", "ASSISTANT") TWO " " (Some "</s>") "v1".

(** Lines 177-188. *)
Definition default_conversation : instance := conv_v1_2.

Definition conv_templates : list (string * instance) :=
  [("default", conv_v1_2);
   ("simple", simple_conv);
   ("multimodal", simple_conv_multimodal);
   ("llava_v1", conv_llava_v1);
   ("v1", conv_v1_2);
   ("bair_v1", conv_bair_v1);
   ("vicuna_v1_1", conv_vicuna_v1_1)].

(** ** Vocabulary for the properties of [process] *)

(** [v] occurs in [s]. *)
Definition occurs_in (v s : string) : Prop := exists a b, s = a ++ v ++ b.

(** Every recorded value occurs in the text built so far. *)
Definition spans_occur (ret : string) (spans : list string) : Prop :=
  Forall (fun v => occurs_in v ret) spans.

(** The test each branch of [process] applies to a message. *)
Definition present (style : SeparatorStyle) (m : message) : bool :=
  match style with
  | SINGLE => is_not_None m
  | TWO => truthy m
  end.

(** Some turn other than the last one fails the test of the TWO branch:
    its message is [None] or empty. *)
Fixpoint falsy_before_last (l : list turn) : bool :=
  match l with
  | [] => false
  | (_, m) :: rest =>
      match rest with
      | [] => false
      | _ => negb (truthy m) || falsy_before_last rest
      end
  end.

(** Number of turns of the answering role that carry a message. *)
Definition answered (c : Conversation) (l : list turn) : nat :=
  length (filter (fun t => present (sep_style c) (snd t)
                           && (fst t =? snd (roles c))%string) l).

(** The piece the TWO branch appends for turn [i]. *)
Definition segment_two (c : Conversation) (flag : bool) (second : string)
    (i : nat) (t : turn) : string :=
  if truthy (snd t) then
    " " ++ fst t ++ ": " ++ untuple (snd t) ++ (if Nat.even i then sep c else second)
  else " " ++ fst t ++ ":" ++ (if flag then "" else " ").

Fixpoint segments_two (c : Conversation) (flag : bool) (second : string)
    (i : nat) (l : list turn) : string :=
  match l with
  | [] => ""
  | t :: rest => segment_two c flag second i t ++ segments_two c flag second (S i) rest
  end.

End ConversationObjects.


(* ================================================================== *)
(** * accessory/model/meta.py: the weights handed to the sampler *)
(* ================================================================== *)

Module Sampler.
Import Meta.

(** Line 365: the filtered probabilities divided by their sum, which is
    the argument of [torch.multinomial] in [sample_top_p]. *)
Definition renormalised (dtype acc : Float.format) (probs : list Q) (p : Q)
  : list Q :=
  map (fun x => fdiv dtype x (tsum dtype acc (nucleus dtype acc probs p)))
      (nucleus dtype acc probs p).

End Sampler.


(* ================================================================== *)
(** * accessory/model/meta.py: batched generation and the training window *)
(* ================================================================== *)

Module Batch.
Import Meta.

(** [min([...])] and [max([...])] of a list of lengths; both raise
    [ValueError] on an empty list. *)
Definition py_min (l : list Z) : result Z :=
  match l with
  | [] => Raise ValueError
  | x :: more => Ok (fold_left Z.min more x)
  end.

Definition py_max (l : list Z) : result Z :=
  match l with
  | [] => Raise ValueError
  | x :: more => Ok (fold_left Z.max more x)
  end.

(** Lines 260-261: each prompt written at the start of its own row of
    zeros; the first row that does not fit raises. *)
Fixpoint fill_rows (total : nat) (prompt_tokens : list (list Z))
  : result (list (list Z)) :=
  match prompt_tokens with
  | [] => Ok []
  | t :: more =>
      bind (assign_prefix (repeat 0 total) t) (fun row =>
      bind (fill_rows total more) (fun rows => Ok (row :: rows)))
  end.

(** Line 262: [input_text_mask[k, :len(t)] = True]. *)
Definition mask_rows (total : nat) (prompt_tokens : list (list Z)) : list (list bool) :=
  map (fun t => map (fun j => (j <? length t)%nat) (seq 0 total)) prompt_tokens.

(** [tokens[:, cur_pos] = values] *)
Definition set_column (tokens : list (list Z)) (cur_pos : nat) (values : list Z)
  : list (list Z) :=
  map (fun rv => lset (fst rv) cur_pos (snd rv)) (combine tokens values).

(** Lines 278-280: [torch.where(input_text_mask[:, cur_pos],
    tokens[:, cur_pos], next_token)], row by row. *)
Definition keep_prompt (mask : list (list bool)) (tokens : list (list Z))
    (cur_pos : nat) (next_token : list Z) : list Z :=
  map (fun k => if nth cur_pos (nth k mask []) false
                then nth cur_pos (nth k tokens []) 0
                else nth k next_token 0)
    (seq 0 (length tokens)).

Section Generate.
Variable encode : string -> list Z.
Variable decode : list Z -> string.
Variable eos_id : Z.
Variable args_max_seq_len : Z.
Variable args_max_batch_size : Z.
Variable image_words : Z.
Variable model_state : Type.
Variable image_t : Type.
Variable logits_t : Type.
(** [self.llma.forward_inference] as used at line 267, and lines 270-276
    as one step for the whole batch: forward pass, sampling or arg-max,
    [reshape(-1)], giving one token per row. *)
Variable forward_inference :
  model_state -> list (list Z) -> Z -> option image_t -> result logits_t.
Variable next_tokens_of :
  model_state -> list (list Z) -> Z -> option image_t -> result (list Z * model_state).

(** What [generate] returns: the logits when [return_logits] is set, the
    decoded continuations otherwise. *)
Inductive generated : Type :=
| Logits (l : logits_t)
| Decoded (texts : list string).

(** [t[: t.index(eos_id)]], or [t] when [index] raises [ValueError]. *)
Fixpoint until_eos (t : list Z) : list Z :=
  match t with
  | [] => []
  | x :: more => if x =? eos_id then [] else x :: until_eos more
  end.

Section Loop.
Variable images : option image_t.
Variable bsz : Z.
Variable input_text_mask : list (list bool).

(** Lines 269-285; [n] is the number of positions left in
    [range(start_pos, total_len)]. *)
Fixpoint generate_loop (n : nat) (cur_pos : Z) (m : model_state)
    (tokens : list (list Z)) (prev_pos : Z) : result (list (list Z)) :=
  match n with
  | O => Ok tokens
  | S n' =>
      match next_tokens_of m (map (fun row => lslice row prev_pos cur_pos) tokens)
              prev_pos (if prev_pos =? 0 then images else None) with
      | Raise e => Raise e
      | Ok (next_token, m') =>
          let next_token :=
            keep_prompt input_text_mask tokens (Z.to_nat cur_pos) next_token in
          let tokens := set_column tokens (Z.to_nat cur_pos) next_token in
          if (bsz =? 1) && (nth 0 next_token 0 =? eos_id) then Ok tokens
          else generate_loop n' (cur_pos + 1) m' tokens cur_pos
      end
  end.
End Loop.

(** Lines 287-296, row [i]: cut to the generated part, then at the
    first end-of-sequence id. *)
Definition continuation (max_gen_len : Z) (prompt row : list Z) : list Z :=
  let k := Z.of_nat (length prompt) in
  until_eos (lslice row k (k + max_gen_len)).

Record batch_setup : Type := {
  batch_prompts : list (list Z);
  batch_start : Z;
  batch_total : Z;
  batch_tokens : list (list Z);
  batch_mask : list (list bool)
}.

(** Lines 242-264.  The failing assertion of line 244 carries the pair
    [(bsz, args.max_batch_size)], held here as [str] shows it. *)
Definition setup (prompts : list string) (images : option image_t) (max_gen_len : Z)
  : result batch_setup :=
  let bsz := Z.of_nat (length prompts) in
  if negb (bsz <=? args_max_batch_size) then
    Raise (AssertionError (str_of_pair bsz args_max_batch_size))
  else
    let prompt_tokens := map encode prompts in
    let sizes := map (fun t => Z.of_nat (length t)) prompt_tokens in
    bind (py_min sizes) (fun min_prompt_size =>
    bind (py_max sizes) (fun max_prompt_size =>
    let max_seq_len :=
      match images with
      | Some _ => args_max_seq_len - image_words
      | None => args_max_seq_len
      end in
    let total_len := Z.min max_seq_len (max_gen_len + max_prompt_size) in
    if total_len <? 0 then Raise RuntimeError
    else
      bind (fill_rows (Z.to_nat total_len) prompt_tokens) (fun tokens =>
      Ok {| batch_prompts := prompt_tokens;
            batch_start := min_prompt_size;
            batch_total := total_len;
            batch_tokens := tokens;
            batch_mask := mask_rows (Z.to_nat total_len) prompt_tokens |}))).

(** The token matrix when the loop of lines 269-285 is left. *)
Definition generate_rows (m : model_state) (prompts : list string)
    (images : option image_t) (max_gen_len : Z) : result (list (list Z)) :=
  bind (setup prompts images max_gen_len) (fun s =>
  generate_loop images (Z.of_nat (length prompts)) (batch_mask s)
    (Z.to_nat (batch_total s - batch_start s)) (batch_start s) m
    (batch_tokens s) 0).

(** The token lists handed to [decode] at line 296. *)
Definition generate_tokens (m : model_state) (prompts : list string)
    (images : option image_t) (max_gen_len : Z) : result (list (list Z)) :=
  bind (generate_rows m prompts images max_gen_len) (fun rows =>
  Ok (map (fun pr => continuation max_gen_len (fst pr) (snd pr))
        (combine (map encode prompts) rows))).

(** [MetaModel.generate], lines 233-297. *)
Definition generate (m : model_state) (prompts : list string)
    (images : option image_t) (max_gen_len : Z) (return_logits : bool)
  : result generated :=
  if return_logits then
    bind (setup prompts images max_gen_len) (fun s =>
    bind (forward_inference m
            (map (fun row => lslice row 0 (batch_start s)) (batch_tokens s)) 0 images)
      (fun l => Ok (Logits l)))
  else
    bind (generate_tokens m prompts images max_gen_len) (fun toks =>
    Ok (Decoded (map decode toks))).

End Generate.

(** ** MetaModel.forward, lines 205-219: the window kept for training *)





End Batch.


(* ================================================================== *)
(** * accessory/demos/multi_turn_mm.py: the Gradio callbacks *)
(* ================================================================== *)

Module Demo.
Import Meta MultiTurn.

(** [show_user_input], lines 152-153. *)
Definition show_user_input (msg : string) (cb : chatbot) : string * chatbot :=
  ("", (cb ++ [(msg, None)])%list).

(** [undo], lines 171-174. *)
Definition undo (cb : chatbot) : chatbot :=
  if 0 <? Z.of_nat (length cb) then lslice cb 0 (-1) else cb.

(** [clear], lines 176-179. *)
Definition clear : chatbot * string := ([], "").

(** Line 297: the response queue handed to the worker of a rank. *)
Definition rank_response_queue (response_queue : queue) (rank : nat) : option queue :=
  if (rank =? 0)%nat then Some response_queue else None.

(** Only whitespace. *)
Fixpoint blank (s : string) : bool :=
  match s with
  | EmptyString => true
  | String c s' => isspace c && blank s'
  end.

(** The last character, if any, is not whitespace. *)
Definition ends_visibly (s : string) : Prop :=
  forall front c, s = front ++ String c "" -> isspace c = false.

(** A cycle on generator [g] is left through the [except] clause: the
    [for] loop has met an exception before a terminal item. *)
Definition cycle_failed (conv_sep : string) (g : generator) : bool :=
  negb (is_ok (snd (consume conv_sep None g))).

End Demo.

(* ================================================================== *)
(** * SPHINX/sphinx.py *)
(* ================================================================== *)

Module Sphinx.
Import Meta MultiTurn.

Definition unbound_local : exn := OtherError "UnboundLocalError".

(** Line 37: [assert qas[-1][1] is None]. *)
Fixpoint check_last_open (qas : chatbot) : result unit :=
  match qas with
  | [] => Raise IndexError
  | (q, a) :: more =>
      match more with
      | [] => match a with
              | None => Ok tt
              | Some _ => Raise (AssertionError "")
              end
      | _ => check_last_open more
      end
  end.

(** Lines 45-55: the loop over the stream and the final [return];
    [last] is the value of [stream_response] so far, unbound at first. *)
Fixpoint last_text (conv_sep : string) (g : generator) (last : option PartialResult)
  : result string :=
  match g with
  | Yield stream_response rest =>
      let end_pos := find (text stream_response) conv_sep in
      if negb (end_pos =? -1) then
        Ok (rstrip (slice_to (text stream_response) end_pos) ++ nl)
      else last_text conv_sep rest (Some stream_response)
  | Return _ =>
      match last with
      | Some stream_response => Ok (text stream_response)
      | None => Raise unbound_local
      end
  | Throw e => Raise e
  end.

(** How the body of a generator is left. *)
Fixpoint finish (g : generator) : result PartialResult :=
  match g with
  | Yield _ rest => finish rest
  | Return value => Ok value
  | Throw e => Raise e
  end.

(** [SPHINXModel.generate_reponse] from line 37 on; [g] is the stream
    that [stream_generate] gives for the prompt built from [qas]. *)
Definition generate_reponse (conv_sep : string) (qas : chatbot) (g : generator)
  : result string :=
  bind (check_last_open qas) (fun _ => last_text conv_sep g None).

End Sphinx.


(* ================================================================== *)
(** * accessory/model/meta.py: the arguments of [from_pretrained] *)
(* ================================================================== *)

Module Pretrained.

(** [pretrained_path: str | List[str]], possibly [None]. *)
Inductive path_arg : Type :=
| OnePath (p : string)
| Paths (l : list string)
| NoPath.

(** [llama_config: str | List[str]]. *)
Inductive config_arg : Type :=
| OneConfig (c : string)
| Configs (l : list string).

(** What the constructor and the weight loader are called with
    (lines 184 and 186). *)
Record resolved : Type := {
  checkpoints : list string;
  llama_type : string;
  llama_config : config_arg;
  tokenizer_path : string
}.

Section Resolve.
(** The file system: [Path(p).exists()], [str(Path(dir) / name)], and
    [json.load(f)["llama_type"]] for the file at a path. *)
Variable path_exists : string -> bool.
Variable path_join : string -> string -> string.
Variable read_llama_type : string -> result string.

(** Lines 109-112 and 138-180 of [MetaModel.from_pretrained]: how the
    arguments left out are filled in.  The process-group set-up of
    lines 114-136, which reads none of them, is taken to succeed. *)
Definition resolve (pretrained_path : path_arg) (llama_type_ : option string)
    (llama_config_ : option config_arg) (tokenizer_path_ : option string)
  : result resolved :=
  let pretrained_path :=
    match pretrained_path with
    | OnePath p => Some [p]
    | Paths l => Some l
    | NoPath => None
    end in
  match pretrained_path with
  | None => Raise ValueError
  | Some [] => Raise ValueError
  | Some l =>
      let dir := last l "" in
      bind (match llama_type_ with
            | Some t => Ok t
            | None =>
                if path_exists (path_join dir "meta.json")
                then read_llama_type (path_join dir "meta.json")
                else Raise ValueError
            end) (fun llama_type_ =>
      let llama_config_ :=
        match llama_config_ with
        | Some c => c
        | None =>
            if path_exists (path_join dir "config.json")
            then Configs [path_join dir "config.json"]
            else Configs []
        end in
      let tokenizer_path_ :=
        match tokenizer_path_ with
        | Some t => Some t
        | None =>
            if path_exists (path_join dir "tokenizer.model")
            then Some (path_join dir "tokenizer.model")
            else None
        end in
      let tokenizer_path_ :=
        match tokenizer_path_ with
        | Some t => Some t
        | None =>
            if path_exists (path_join dir "tokenizer.json")
               && path_exists (path_join dir "tokenizer_config.json")
            then Some dir
            else None
        end in
      match tokenizer_path_ with
      | None => Raise (AssertionError "No usable tokenizer avaiable")
      | Some t =>
          Ok {| checkpoints := l; llama_type := llama_type_;
                llama_config := llama_config_; tokenizer_path := t |}
      end)
  end.

End Resolve.

End Pretrained.


(* ================================================================== *)
(** * Properties *)
(* ================================================================== *)

Import ConversationLib Meta MultiTurn.

(** ** The Python fragments on small inputs *)

Example find_first_occurrence :
  find "ab###cd###" "###" = 2 /\ find "ab##" "###" = -1 /\ find "" "" = 0.
Proof. repeat split. Qed.

Example rstrip_trailing_only :
  rstrip (" a b " ++ nl ++ " ") = " a b" /\ rstrip "   " = "" /\ rstrip "ab" = "ab".
Proof. repeat split. Qed.

(** The whitespace beyond ASCII: next line (U+0085) and no-break space
    (U+00A0) are stripped, other code points of that range are not. *)
Example rstrip_beyond_ascii :
  rstrip ("a" ++ String (ascii_of_nat 160) (String (ascii_of_nat 133) " ")) = "a" /\
  rstrip ("a" ++ String (ascii_of_nat 161) "") = "a" ++ String (ascii_of_nat 161) "".
Proof. repeat split. Qed.

Example str_of_pair_like_python :
  str_of_pair 2 1 = "(2, 1)" /\ str_of_pair 0 (-13) = "(0, -13)".
Proof. repeat split. Qed.

Example slices_like_python :
  slice_to "abcdef" (-2) = "abcd" /\ slice_to "ab" (-3) = "" /\
  slice_to "ab" 0 = "" /\ slice_to "ab" 5 = "ab" /\
  lslice_from [1; 2; 3] (-2) = [2; 3] /\ lslice_from [1; 2; 3] (-0) = [1; 2; 3] /\
  lslice_from [1; 2; 3] 1 = [2; 3] /\ lslice [1; 2; 3; 4] 1 3 = [2; 3].
Proof. repeat split. Qed.

(** ** Strings: prefixes, [take], [find] *)

Lemma app_empty_r (s : string) : s ++ "" = s.
Proof. induction s as [|c s IH]; simpl; [reflexivity | now rewrite IH]. Qed.

Lemma app_assoc_str (a b c : string) : (a ++ b) ++ c = a ++ (b ++ c).
Proof. induction a as [|x a IH]; simpl; [reflexivity | now rewrite IH]. Qed.

Lemma length_app (a b : string) :
  String.length (a ++ b) = (String.length a + String.length b)%nat.
Proof. induction a as [|x a IH]; simpl; [reflexivity | now rewrite IH]. Qed.

Lemma is_prefix_refl (a : string) : is_prefix a a.
Proof. exists ""; now rewrite app_empty_r. Qed.

Lemma is_prefix_trans (a b c : string) : is_prefix a b -> is_prefix b c -> is_prefix a c.
Proof.
  intros [u ->] [v ->]. exists (u ++ v). apply app_assoc_str.
Qed.

Lemma take_drop (n : nat) (s : string) : take n s ++ drop n s = s.
Proof.
  revert s; induction n as [|n IH]; intros [|c s]; simpl; try reflexivity.
  now rewrite IH.
Qed.

Lemma length_take (n : nat) (s : string) :
  String.length (take n s) = Nat.min n (String.length s).
Proof.
  revert s; induction n as [|n IH]; intros [|c s]; simpl; try reflexivity.
  now rewrite IH.
Qed.

Lemma length_drop (n : nat) (s : string) :
  String.length (drop n s) = (String.length s - n)%nat.
Proof.
  revert s; induction n as [|n IH]; intros [|c s]; simpl; try reflexivity.
  apply IH.
Qed.

Lemma take_is_prefix (n : nat) (s : string) : is_prefix (take n s) s.
Proof. exists (drop n s). symmetry; apply take_drop. Qed.

Lemma take_app_le (n : nat) (a u : string) :
  (n <= String.length a)%nat -> take n (a ++ u) = take n a.
Proof.
  revert a; induction n as [|n IH]; intros a H; [reflexivity|].
  destruct a as [|c a]; simpl in *; [lia|].
  rewrite IH by lia. reflexivity.
Qed.

Lemma take_take (n m : nat) (s : string) :
  (n <= m)%nat -> take n (take m s) = take n s.
Proof.
  revert m s; induction n as [|n IH]; intros [|m] [|c s] H; simpl; try reflexivity; try lia.
  rewrite IH by lia. reflexivity.
Qed.

Lemma take_mono (n m : nat) (s : string) :
  (n <= m)%nat -> is_prefix (take n s) (take m s).
Proof.
  intro H. rewrite <- (take_take n m s H). apply take_is_prefix.
Qed.

Lemma prefix_empty (s : string) : String.prefix "" s = true.
Proof. destruct s; reflexivity. Qed.

Lemma prefix_app_short (s a u : string) :
  String.prefix s (a ++ u) = true ->
  (String.length s <= String.length a)%nat ->
  String.prefix s a = true.
Proof.
  revert a; induction s as [|c s IH]; intros a Hp Hl.
  - apply prefix_empty.
  - destruct a as [|d a]; simpl in *; [lia|].
    destruct (ascii_dec c d); [|discriminate].
    apply IH; [assumption | lia].
Qed.

Lemma find_from_ge (s sub : string) (i : Z) :
  find_from i s sub = -1 \/ i <= find_from i s sub.
Proof.
  revert i; induction s as [|c s IH]; intro i; cbn [find_from].
  - destruct (String.prefix sub ""); [right; lia | left; reflexivity].
  - destruct (String.prefix sub (String c s)); [right; lia|].
    destruct (IH (i + 1)); [left; assumption | right; lia].
Qed.

(** A match completed by later text starts less than [len sub]
    characters before the end of the text seen so far. *)
Lemma find_from_later (sub t u : string) (i p : Z) :
  1 <= len sub ->
  0 <= i ->
  find_from i t sub = -1 ->
  find_from i (t ++ u) sub = p ->
  p <> -1 ->
  i + len t - len sub < p.
Proof.
  unfold len. intro Hn. revert i.
  induction t as [|c t IH]; intros i Hi Hnone Hsome Hp.
  - cbn [append String.length] in *. destruct (find_from_ge u sub i); lia.
  - cbn [find_from] in Hnone.
    destruct (String.prefix sub (String c t)) eqn:Ept; [lia|].
    change (String c t ++ u) with (String c (t ++ u)) in Hsome.
    cbn [find_from] in Hsome.
    destruct (String.prefix sub (String c (t ++ u))) eqn:Epu.
    + assert (~ (String.length sub <= String.length (String c t))%nat) as Hlen.
      { intro Hle.
        rewrite (prefix_app_short sub (String c t) u Epu Hle) in Ept.
        discriminate. }
      cbn [String.length] in *. lia.
    + assert (0 <= i + 1) as Hi' by lia.
      specialize (IH (i + 1) Hi' Hnone Hsome Hp). cbn [String.length]. lia.
Qed.

Lemma find_empty_sub (s : string) : find s "" = 0.
Proof. unfold find. destruct s; reflexivity. Qed.

Lemma find_none_len_sub (s sub : string) : find s sub = -1 -> 1 <= len sub.
Proof.
  intro H. destruct sub as [|c sub].
  - rewrite find_empty_sub in H. discriminate.
  - unfold len; simpl. lia.
Qed.

(** [s[:-n]] when [1 <= n <= len(s)]. *)
Lemma slice_to_neg (s : string) (n : Z) :
  1 <= n -> n <= len s ->
  slice_to s (- n) = take (String.length s - Z.to_nat n) s.
Proof.
  intros H1 H2. unfold slice_to, clamp, len in *.
  destruct (- n <? 0) eqn:E; [|apply Z.ltb_ge in E; lia].
  f_equal. lia.
Qed.

(** [s[:p]] when [0 <= p]. *)
Lemma slice_to_pos (s : string) (p : Z) :
  0 <= p -> slice_to s p = take (Z.to_nat p) s.
Proof.
  intro H. unfold slice_to, clamp, len.
  destruct (p <? 0) eqn:E; [apply Z.ltb_lt in E; lia|].
  destruct (Z.min_spec p (Z.of_nat (String.length s))) as [[Hlt ->]|[Hge ->]];
    [reflexivity|].
  rewrite Nat2Z.id.
  assert (forall n m x, (String.length x <= n)%nat -> (String.length x <= m)%nat ->
                        take n x = take m x) as Hfull.
  { clear. intros n m x; revert n m; induction x as [|c x IH];
      intros [|n] [|m] Hn Hm; simpl in *; try reflexivity; try lia.
    f_equal. apply IH; lia. }
  apply Hfull; lia.
Qed.

(** ** The stream trimmer *)

(** The trimmer on a non-terminal item in which the separator does not
    occur. *)
Lemma trimmer_plain (conv_sep : string) (ev : PartialResult) :
  end_of_content ev = false ->
  find (text ev) conv_sep = -1 ->
  trimmer conv_sep ev =
    if len (text ev) <? len conv_sep then None
    else Some {| text := take (String.length (text ev) - String.length conv_sep) (text ev);
                 end_of_content := false |}.
Proof.
  intros Heoc Hfind. unfold trimmer, cut_at_sep. rewrite Hfind. simpl.
  unfold hold_back. rewrite Heoc. simpl.
  destruct (len (text ev) <? len conv_sep) eqn:E; [reflexivity|].
  apply Z.ltb_ge in E.
  rewrite slice_to_neg.
  - unfold len. rewrite Nat2Z.id. reflexivity.
  - now apply find_none_len_sub with (s := text ev).
  - assumption.
Qed.

(** An item that leaves the trimmer non-terminal entered it
    non-terminal and without the separator. *)
Lemma trimmer_nonterminal (conv_sep : string) (ev out : PartialResult) :
  trimmer conv_sep ev = Some out ->
  end_of_content out = false ->
  end_of_content ev = false /\ find (text ev) conv_sep = -1.
Proof.
  unfold trimmer, cut_at_sep, hold_back. intros H Hout.
  destruct (find (text ev) conv_sep =? -1) eqn:E; simpl in H.
  - apply Z.eqb_eq in E. split; [|assumption].
    destruct (end_of_content ev) eqn:Eev; [|reflexivity].
    simpl in H. injection H as <-. congruence.
  - injection H as <-. discriminate.
Qed.

(** C2, as the code has it: on a non-terminal item whose text does not
    contain the separator, the trimmer emits nothing when the text is
    shorter than the separator, and otherwise emits the text without its
    last [len(conv_sep)] characters (not [len(conv_sep) - 1]). *)
Theorem trimmer_withholds_len_sep (conv_sep : string) (ev : PartialResult)
    (Hnonterminal : end_of_content ev = false)
    (Habsent : find (text ev) conv_sep = -1) :
  (len (text ev) < len conv_sep -> trimmer conv_sep ev = None) /\
  (len conv_sep <= len (text ev) ->
   exists emitted withheld,
     trimmer conv_sep ev = Some {| text := emitted; end_of_content := false |} /\
     text ev = emitted ++ withheld /\
     len withheld = len conv_sep).
Proof.
  rewrite (trimmer_plain conv_sep ev Hnonterminal Habsent). split; intro H.
  - apply Z.ltb_lt in H. now rewrite H.
  - destruct (len (text ev) <? len conv_sep) eqn:E; [apply Z.ltb_lt in E; lia|].
    exists (take (String.length (text ev) - String.length conv_sep) (text ev)),
           (drop (String.length (text ev) - String.length conv_sep) (text ev)).
    split; [reflexivity|]. split; [symmetry; apply take_drop|].
    unfold len in *. rewrite length_drop. lia.
Qed.

Lemma trimmer_withholds_len_sep_witness :
  let ev := {| text := "abcd"; end_of_content := false |} in
  (len (text ev) < len "###" -> trimmer "###" ev = None) /\
  (len "###" <= len (text ev) ->
   exists emitted withheld,
     trimmer "###" ev = Some {| text := emitted; end_of_content := false |} /\
     text ev = emitted ++ withheld /\
     len withheld = len "###").
Proof.
  exact (trimmer_withholds_len_sep "###" {| text := "abcd"; end_of_content := false |}
           eq_refl eq_refl).
Defined.

(** C2 as worded fails: with separator ["###"] the item ["abcd"] is
    emitted as ["a"], three characters short, where withholding
    [len - 1 = 2] characters would give ["ab"]. *)
Lemma trimmer_withholds_two_refuted :
  find "abcd" "###" = -1 /\
  trimmer "###" {| text := "abcd"; end_of_content := false |}
    = Some {| text := "a"; end_of_content := false |} /\
  slice_to "abcd" (- (len "###" - 1)) = "ab" /\
  "a" <> "ab".
Proof. repeat split; try reflexivity. discriminate. Qed.

(** C6 as worded fails: the text ["a#bcd"] does not contain ["###"] and
    is emitted as ["a#"], which ends with ["#"], a non-empty prefix of
    the separator. *)
Lemma trimmer_emits_start_of_sep :
  1 <= len "###" /\
  trimmer "###" {| text := "a#bcd"; end_of_content := false |}
    = Some {| text := "a#"; end_of_content := false |} /\
  ends_with_start_of "a#" "###".
Proof.
  split; [unfold len; simpl; lia|]. split; [reflexivity|].
  exists "#". split; [discriminate|]. split.
  - exists "##". reflexivity.
  - exists "a". reflexivity.
Qed.

(** C6, as the code guarantees it: whatever text follows, a non-terminal
    emission stops short of the place where the separator first occurs
    once it is complete, so no character of a separator occurrence is
    ever sent ahead of the terminal item. *)
Theorem trimmer_stops_before_separator (conv_sep : string) (ev out : PartialResult)
    (later : string) (p : Z)
    (Hsep : 1 <= len conv_sep)
    (Hemit : trimmer conv_sep ev = Some out)
    (Hnonterminal : end_of_content out = false)
    (Hfound : find (text ev ++ later) conv_sep = p)
    (Hp : p <> -1) :
  len (text out) < p /\
  is_prefix (text out) (slice_to (text ev ++ later) p).
Proof.
  destruct (trimmer_nonterminal _ _ _ Hemit Hnonterminal) as [Heoc Hnone].
  rewrite (trimmer_plain _ _ Heoc Hnone) in Hemit.
  destruct (len (text ev) <? len conv_sep) eqn:E; [discriminate|].
  apply Z.ltb_ge in E. injection Hemit as <-. cbn [text].
  assert (0 + len (text ev) - len conv_sep < p) as Hlt
      by (apply (find_from_later conv_sep (text ev) later 0 p); auto; lia).
  unfold len in *. rewrite length_take. split; [lia|].
  rewrite slice_to_pos by lia.
  rewrite <- (take_app_le _ (text ev) later) by lia.
  apply take_mono. lia.
Qed.

Lemma trimmer_stops_before_separator_witness :
  let ev := {| text := "a#bcd"; end_of_content := false |} in
  let out := {| text := "a#"; end_of_content := false |} in
  len (text out) < 6 /\ is_prefix (text out) (slice_to (text ev ++ "e###") 6).
Proof.
  apply (trimmer_stops_before_separator "###"
           {| text := "a#bcd"; end_of_content := false |}
           {| text := "a#"; end_of_content := false |} "e###" 6).
  - unfold len; simpl; lia.
  - reflexivity.
  - reflexivity.
  - reflexivity.
  - lia.
Defined.

(** ** Conversation.process *)

Section ProcessLoops.
Variable c : Conversation.
Variable flag : bool.

Lemma absent_before_last_cons (t : turn) (rest : list turn) :
  rest <> [] ->
  absent_before_last (t :: rest) = negb (is_not_None (snd t)) || absent_before_last rest.
Proof. destruct t as [role m], rest; [congruence | reflexivity]. Qed.

Lemma open_turn_segment (ret role : string) :
  open_turn flag ret role = ret ++ segment c flag (role, MNone).
Proof.
  unfold open_turn, segment; cbn [fst snd].
  destruct flag; cbn [negb]; repeat rewrite app_assoc_str; cbn [append];
    repeat rewrite app_assoc_str; reflexivity.
Qed.

(** The SINGLE loop on a well-formed rest of the history appends one
    segment per turn. *)
Lemma single_loop_renders (todo : list turn) :
  forall (i : Z) (ret : string) (spans : list string),
    i + Z.of_nat (length todo) = n_messages c ->
    absent_before_last todo = false ->
    exists spans',
      single_loop c flag i todo ret spans
      = Ok (ret ++ join (map (segment c flag) todo), spans').
Proof.
  induction todo as [|[role m] rest IH]; intros i ret spans Hi Hv.
  - exists spans. cbn. now rewrite app_empty_r.
  - cbn [single_loop map join fold_right]. fold (join (map (segment c flag) rest)).
    destruct (is_not_None m) eqn:Em.
    + assert (absent_before_last rest = false) as Hrest.
      { destruct rest as [|t rest']; [reflexivity|].
        rewrite absent_before_last_cons in Hv by discriminate.
        cbn [snd] in Hv. rewrite Em in Hv. exact Hv. }
      destruct (IH (i + 1) (ret ++ (" " ++ role ++ ": " ++ untuple m ++ nl ++ sep c))
                  (learn c flag spans role (untuple m ++ nl ++ sep c))) as [spans' E];
        [cbn [length] in Hi; lia | exact Hrest |].
      exists spans'. rewrite E. rewrite app_assoc_str.
      unfold segment; cbn [fst snd]. destruct m; [discriminate | reflexivity | reflexivity].
    + destruct m; try discriminate.
      destruct rest as [|t rest'].
      * cbn [length] in Hi.
        replace (i =? n_messages c - 1) with true by (symmetry; apply Z.eqb_eq; lia).
        exists spans. cbn [single_loop map join fold_right].
        rewrite open_turn_segment, app_empty_r. reflexivity.
      * rewrite absent_before_last_cons in Hv by discriminate.
        cbn in Hv. discriminate.
Qed.

(** The SINGLE loop stops at the first turn without message that is not
    the last one. *)
Lemma single_loop_asserts (todo : list turn) :
  forall (i : Z) (ret : string) (spans : list string),
    i + Z.of_nat (length todo) = n_messages c ->
    absent_before_last todo = true ->
    single_loop c flag i todo ret spans = Raise assert_last.
Proof.
  induction todo as [|[role m] rest IH]; intros i ret spans Hi Hv; [discriminate|].
  destruct rest as [|t rest']; [discriminate|].
  rewrite absent_before_last_cons in Hv by discriminate. cbn [snd] in Hv.
  cbn [single_loop]. destruct (is_not_None m) eqn:Em.
  - apply IH; [cbn [length] in *; lia | exact Hv].
  - replace (i =? n_messages c - 1) with false; [reflexivity|].
    symmetry; apply Z.eqb_neq. cbn [length] in Hi. lia.
Qed.

Lemma truthy_is_not_None (m : message) : truthy m = true -> is_not_None m = true.
Proof. destruct m; [discriminate | reflexivity | reflexivity]. Qed.

(** So does the TWO loop, unless a missing [sep2] stops it before. *)
Lemma two_loop_raises (todo : list turn) :
  forall (i : Z) (ret : string) (spans : list string),
    i + Z.of_nat (length todo) = n_messages c ->
    absent_before_last todo = true ->
    exists e, two_loop c flag i todo ret spans = Raise e.
Proof.
  induction todo as [|[role m] rest IH]; intros i ret spans Hi Hv; [discriminate|].
  destruct rest as [|t rest']; [discriminate|].
  rewrite absent_before_last_cons in Hv by discriminate. cbn [snd] in Hv.
  cbn [two_loop]. destruct (truthy m) eqn:Em.
  - destruct (seps c i); [|eexists; reflexivity].
    apply IH; [cbn [length] in *; lia|].
    rewrite (truthy_is_not_None m Em) in Hv. exact Hv.
  - replace (i =? n_messages c - 1) with false; [eexists; reflexivity|].
    symmetry; apply Z.eqb_neq. cbn [length] in Hi. lia.
Qed.

End ProcessLoops.

(** C4: under SINGLE style a turn history in which only the last
    message may be absent is rendered as [system + "\n\n" + sep]
    followed by one segment per turn, [" " + role + ": " + message +
    "\n" + sep] for a present message and [" " + role + ":"] (with one
    more space exactly when [space_part_of_next_word] is false) for the
    absent last one; the history Human "Hi", Assistant None with
    separator ["###"] and system ["S"] renders as
    ["S\n\n### Human: Hi\n### Assistant:"], and its response end signal
    is ["###"]. *)
Theorem process_single_renders (c : Conversation) (flag : bool)
    (Hstyle : sep_style c = SINGLE)
    (Hvalid : absent_before_last (messages c) = false) :
  (exists spans,
     process c flag = Ok {| conv := render_single c flag; to_predict := spans |}) /\
  process hi_conversation true
    = Ok {| conv := "S" ++ nl ++ nl ++ "### Human: Hi" ++ nl ++ "### Assistant:";
            to_predict := [] |} /\
  response_end_signal hi_conversation = Some "###".
Proof.
  split; [|split; reflexivity].
  unfold process. rewrite Hstyle.
  destruct (single_loop_renders c flag (messages c) 0
              (system c ++ nl ++ nl ++ sep c) []) as [spans E];
    [unfold n_messages; lia | exact Hvalid |].
  exists spans. rewrite E. reflexivity.
Qed.

Lemma process_single_renders_witness :
  (exists spans,
     process hi_conversation false
     = Ok {| conv := render_single hi_conversation false; to_predict := spans |}) /\
  process hi_conversation true
    = Ok {| conv := "S" ++ nl ++ nl ++ "### Human: Hi" ++ nl ++ "### Assistant:";
            to_predict := [] |} /\
  response_end_signal hi_conversation = Some "###".
Proof.
  exact (process_single_renders hi_conversation false eq_refl eq_refl).
Defined.

(** C9 as worded fails: an empty list of turns is rendered, not
    rejected. *)
Lemma process_accepts_no_turns :
  messages empty_conversation = [] /\
  process empty_conversation true
    = Ok {| conv := "S" ++ nl ++ nl ++ "###"; to_predict := [] |}.
Proof. split; reflexivity. Qed.

(** C9, as the code has it: rendering fails whenever a turn other than
    the last has no message (under either style), and under SINGLE style
    it fails in no other case, with the assertion "only last message can
    be None".  The empty history is accepted under either style and
    rendered as the bare preamble, [system + "\n\n" + sep] under SINGLE
    and [system + sep] under TWO, with nothing to predict. *)
Theorem process_fails_on_absent_before_last (c : Conversation) (flag : bool) :
  (absent_before_last (messages c) = true -> exists e, process c flag = Raise e) /\
  (sep_style c = SINGLE ->
   is_ok (process c flag) = negb (absent_before_last (messages c)) /\
   (absent_before_last (messages c) = true -> process c flag = Raise assert_last)) /\
  (messages c = [] ->
   process c flag
   = Ok {| conv := match sep_style c with
                   | SINGLE => system c ++ nl ++ nl ++ sep c
                   | TWO => system c ++ sep c
                   end;
           to_predict := [] |}).
Proof.
  split; [|split].
  - intro H. unfold process. destruct (sep_style c).
    + rewrite (single_loop_asserts c flag (messages c) 0 _ []);
        [eexists; reflexivity | unfold n_messages; lia | exact H].
    + destruct (two_loop_raises c flag (messages c) 0 (system c ++ sep c) [])
        as [e E]; [unfold n_messages; lia | exact H |].
      exists e. rewrite E. reflexivity.
  - intro Hstyle. unfold process. rewrite Hstyle.
    destruct (absent_before_last (messages c)) eqn:Ev.
    + rewrite (single_loop_asserts c flag (messages c) 0 _ []);
        [split; reflexivity | unfold n_messages; lia | exact Ev].
    + destruct (single_loop_renders c flag (messages c) 0
                  (system c ++ nl ++ nl ++ sep c) []) as [spans E];
        [unfold n_messages; lia | exact Ev |].
      rewrite E. split; [reflexivity | discriminate].
  - intro Hempty. unfold process. rewrite Hempty.
    destruct (sep_style c); reflexivity.
Qed.

Lemma process_fails_on_absent_before_last_witness :
  let c := {| system := "S"; roles := ("Human", "Assistant");
              messages := [("Human", MNone); ("Assistant", MNone)];
              sep_style := SINGLE; sep := "###"; sep2 := None;
              version := "Unknown"; skip_next := false |} in
  absent_before_last (messages c) = true /\
  is_ok (process c true) = false /\
  process c true = Raise assert_last.
Proof.
  intro c.
  destruct (process_fails_on_absent_before_last c true) as (_ & Hsingle & _).
  destruct (Hsingle eq_refl) as [Hok Hraise].
  split; [reflexivity|]. split; [exact Hok | exact (Hraise eq_refl)].
Defined.

(** C10 as worded fails: the evaluation ends.  When the interpreter
    still allows 1000 nested calls (its default limit), a call of
    [get_prompt] raises [RecursionError]. *)
Lemma get_prompt_ends_in_recursion_error :
  get_prompt 1000 hi_conversation true = Raise RecursionError.
Proof. vm_compute. reflexivity. Qed.

(** C10, as the code has it: [get_prompt] calls itself with the same
    argument before doing anything else, so that no call returns a
    result; whatever number of nested calls the interpreter still
    allows, the nesting uses them up and the call ends by raising
    [RecursionError]. *)
Theorem get_prompt_never_returns (self : Conversation) (flag : bool) :
  (forall frames, get_prompt frames self flag = Raise RecursionError) /\
  (forall frames v, get_prompt frames self flag <> Ok v).
Proof.
  assert (forall frames, get_prompt frames self flag = Raise RecursionError) as H.
  { induction frames as [|frames IH]; [reflexivity|].
    cbn [get_prompt]. rewrite IH. reflexivity. }
  split; [exact H|]. intros frames v. rewrite H. discriminate.
Qed.

(** ** sample_top_p *)

(** *** Rounding into a dtype *)

Import Float.

(** The rounding on values whose IEEE 754 encodings are known: 0.1 in
    float32 and in float64, 1/3 in the two 16-bit types, ties going to
    the even neighbour, and gradual underflow in float16. *)
Example round_like_ieee :
  round float32 (1 # 10) = (13421773 # 134217728)%Q /\
  round float64 (1 # 10) = (3602879701896397 # 36028797018963968)%Q /\
  round float16 (1 # 3) = (1365 # 4096)%Q /\
  round bfloat16 (1 # 3) = (171 # 512)%Q /\
  round float16 2049 = 2048%Q /\ round float16 2051 = 2052%Q /\
  round float16 (1 # 33554432) = 0%Q /\
  round float16 (3 # 33554432) = (1 # 8388608)%Q /\
  round float32 (- (1 # 3)) = (- (11184811 # 33554432))%Q.
Proof. vm_compute. repeat split. Qed.

Section FloatFacts.
Local Open Scope Q_scope.

Lemma pow2_pos (e : Z) : 0 < pow2 e.
Proof. apply Qpower_0_lt. reflexivity. Qed.

Lemma pow2_add (a b : Z) : pow2 (a + b) == pow2 a * pow2 b.
Proof. apply Qpower_plus. discriminate. Qed.

Lemma pow2_le (a b : Z) : (a <= b)%Z -> pow2 a <= pow2 b.
Proof. intro H. apply Qpower_le_compat_l; [exact H | discriminate]. Qed.

Lemma pow2_lt (a b : Z) : (a < b)%Z -> pow2 a < pow2 b.
Proof. intro H. apply Qpower_lt_compat_l; [exact H | reflexivity]. Qed.

Lemma pow2_lt_inv (a b : Z) : pow2 a < pow2 b -> (a < b)%Z.
Proof.
  intro H. destruct (Z.lt_ge_cases a b) as [Hlt|Hge]; [exact Hlt|].
  apply pow2_le in Hge. lra.
Qed.

Lemma pow2_Z (n : Z) : (0 <= n)%Z -> pow2 n == inject_Z (2 ^ n).
Proof. intro H. unfold pow2. rewrite Zpower_Qpower by exact H. reflexivity. Qed.

Lemma Q_as_fraction (x : Q) : x * inject_Z (Z.pos (Qden x)) == inject_Z (Qnum x).
Proof.
  destruct x as [n d]. unfold Qeq, Qmult, inject_Z. cbn. lia.
Qed.

(** [ilog2 x] is the exponent of the binade of a positive [x]. *)
Lemma ilog2_spec (x : Q) :
  0 < x -> pow2 (ilog2 x) <= x /\ x < pow2 (ilog2 x + 1).
Proof.
  intro Hx.
  assert (0 < Qnum x)%Z as Hn by (destruct x as [n d]; unfold Qlt in Hx; cbn in *; lia).
  set (a := Z.log2 (Qnum x)). set (b := Z.log2 (Z.pos (Qden x))).
  destruct (Z.log2_spec (Qnum x) Hn) as [Ha1 Ha2]. fold a in Ha1, Ha2.
  destruct (Z.log2_spec (Z.pos (Qden x)) (Pos2Z.is_pos _)) as [Hb1 Hb2].
  fold b in Hb1, Hb2.
  assert (0 <= a)%Z as Ha0 by apply Z.log2_nonneg.
  assert (0 <= b)%Z as Hb0 by apply Z.log2_nonneg.
  pose proof (Q_as_fraction x) as Hfrac.
  set (d := inject_Z (Z.pos (Qden x))) in *. set (n := inject_Z (Qnum x)) in *.
  assert (pow2 a <= n) as Hn1 by (rewrite pow2_Z by lia; unfold n; rewrite <- Zle_Qle; lia).
  assert (n < pow2 (a + 1)) as Hn2
      by (rewrite pow2_Z by lia; unfold n; rewrite <- Zlt_Qlt; rewrite <- Z.add_1_r in Ha2; lia).
  assert (pow2 b <= d) as Hd1 by (rewrite pow2_Z by lia; unfold d; rewrite <- Zle_Qle; lia).
  assert (d < pow2 (b + 1)) as Hd2
      by (rewrite pow2_Z by lia; unfold d; rewrite <- Zlt_Qlt; rewrite <- Z.add_1_r in Hb2; lia).
  assert (0 < d) as Hd0 by (pose proof (pow2_pos b); lra).
  assert (pow2 (a - b - 1) <= x) as Hlow.
  { apply Qmult_le_r with (z := d); [exact Hd0|]. rewrite Hfrac.
    apply Qle_trans with (pow2 (a - b - 1) * pow2 (b + 1)).
    - apply Qmult_le_l; [apply pow2_pos | lra].
    - rewrite <- pow2_add. replace (a - b - 1 + (b + 1))%Z with a by lia. exact Hn1. }
  assert (x < pow2 (a - b + 1)) as Hhigh.
  { apply Qmult_lt_r with (z := d); [exact Hd0|]. rewrite Hfrac.
    apply Qlt_le_trans with (pow2 (a + 1)); [exact Hn2|].
    replace (a + 1)%Z with (a - b + 1 + b)%Z by lia. rewrite pow2_add.
    apply Qmult_le_l; [apply pow2_pos | exact Hd1]. }
  unfold ilog2. fold a b.
  destruct (Qle_bool (pow2 (a - b)) x) eqn:E.
  - apply Qle_bool_iff in E. split; assumption.
  - replace (a - b - 1 + 1)%Z with (a - b)%Z by lia. split; [exact Hlow|].
    apply Qnot_le_lt. intro H. apply Qle_bool_iff in H. congruence.
Qed.

Lemma ilog2_unique (x : Q) (k : Z) :
  pow2 k <= x -> x < pow2 (k + 1) -> ilog2 x = k.
Proof.
  intros H1 H2.
  assert (0 < x) as Hx by (pose proof (pow2_pos k); lra).
  destruct (ilog2_spec x Hx) as [H3 H4].
  assert (pow2 k < pow2 (ilog2 x + 1)) as A by lra.
  assert (pow2 (ilog2 x) < pow2 (k + 1)) as B by lra.
  apply pow2_lt_inv in A, B. lia.
Qed.

Lemma ilog2_mono (x y : Q) : 0 < x -> x <= y -> (ilog2 x <= ilog2 y)%Z.
Proof.
  intros Hx Hxy.
  destruct (ilog2_spec x Hx) as [H1 _].
  destruct (ilog2_spec y) as [_ H2]; [lra|].
  assert (pow2 (ilog2 x) < pow2 (ilog2 y + 1)) as A by lra.
  apply pow2_lt_inv in A. lia.
Qed.

Lemma ilog2_comp (x y : Q) : 0 < x -> x == y -> ilog2 x = ilog2 y.
Proof.
  intros Hx E. symmetry. destruct (ilog2_spec x Hx) as [H1 H2].
  apply ilog2_unique; lra.
Qed.

(** Rounding to the nearest integer, ties to even. *)
Lemma rne_comp (x y : Q) : x == y -> rne x = rne y.
Proof.
  intro E. unfold rne. rewrite (Qfloor_comp _ _ E).
  assert (x - inject_Z (Qfloor y) == y - inject_Z (Qfloor y)) as E' by lra.
  now rewrite E'.
Qed.

Lemma rne_Z (z : Z) : rne (inject_Z z) = z.
Proof.
  unfold rne. rewrite Qfloor_Z.
  assert (inject_Z z - inject_Z z == 0) as E by lra.
  rewrite E. reflexivity.
Qed.

Lemma rne_floor (x : Q) : rne x = Qfloor x \/ rne x = (Qfloor x + 1)%Z.
Proof.
  unfold rne. destruct (Qcompare _ _); [destruct (Z.even _)| |]; auto.
Qed.

Lemma rne_mono (x y : Q) : x <= y -> (rne x <= rne y)%Z.
Proof.
  intro Hxy. pose proof (Qfloor_resp_le _ _ Hxy) as Hf.
  destruct (Z.eq_dec (Qfloor x) (Qfloor y)) as [E|Hne].
  - unfold rne. rewrite E. set (f := Qfloor y).
    destruct (Qcompare_spec (x - inject_Z f) (1 # 2)) as [Cx|Cx|Cx];
      destruct (Qcompare_spec (y - inject_Z f) (1 # 2)) as [Cy|Cy|Cy];
      try (destruct (Z.even f)); try lia; exfalso; lra.
  - destruct (rne_floor x) as [-> | ->], (rne_floor y) as [-> | ->]; lia.
Qed.

Section Rounding.
Variable f : format.

Lemma round_zero (x : Q) : x == 0 -> round f x = 0.
Proof.
  intro E. unfold round. apply Qeq_bool_iff in E. now rewrite E.
Qed.

Lemma round_eq (x : Q) :
  0 < x -> round f x == inject_Z (rne (x / pow2 (expo f x))) * pow2 (expo f x).
Proof.
  intro Hx. unfold round.
  destruct (Qeq_bool x 0) eqn:E; [apply Qeq_bool_iff in E; lra|].
  apply Qred_correct.
Qed.

Lemma expo_pos (x : Q) :
  0 < x -> expo f x = Z.max (ilog2 x - (Z.pos (prec f) - 1)) (emin f).
Proof.
  intro Hx. unfold expo. rewrite (ilog2_comp (Qabs x) x); [reflexivity| |].
  - rewrite Qabs_pos; lra.
  - apply Qabs_pos. lra.
Qed.

Lemma scaled_nonneg (x : Q) (e : Z) : 0 <= x -> 0 <= x / pow2 e.
Proof.
  intro Hx. apply Qle_shift_div_l; [apply pow2_pos | lra].
Qed.

Lemma rne_nonneg (x : Q) : 0 <= x -> (0 <= rne x)%Z.
Proof. intro H. apply rne_mono in H. exact H. Qed.

Lemma round_nonneg (x : Q) : 0 <= x -> 0 <= round f x.
Proof.
  intro Hx. destruct (Qeq_dec x 0) as [E|Hne].
  - rewrite (round_zero x E). lra.
  - rewrite round_eq by lra.
    apply Qmult_le_0_compat; [|apply Qlt_le_weak, pow2_pos].
    change 0 with (inject_Z 0). rewrite <- Zle_Qle.
    apply rne_nonneg, scaled_nonneg, Hx.
Qed.

Lemma expo_comp (x y : Q) : ~ x == 0 -> x == y -> expo f x = expo f y.
Proof.
  intros Hx E. unfold expo. rewrite (ilog2_comp (Qabs x) (Qabs y)); [reflexivity| |].
  - destruct (Qlt_le_dec 0 x) as [H|H].
    + rewrite Qabs_pos; lra.
    + rewrite Qabs_neg by exact H.
      destruct (Qeq_dec x 0) as [E0|_]; [contradiction|].
      destruct (Qlt_le_dec x 0) as [H'|H']; [lra|]. exfalso. apply Hx. lra.
  - now rewrite E.
Qed.

Lemma round_comp (x y : Q) : x == y -> round f x == round f y.
Proof.
  intro E. unfold round.
  destruct (Qeq_bool x 0) eqn:Ex, (Qeq_bool y 0) eqn:Ey.
  - reflexivity.
  - apply Qeq_bool_iff in Ex. exfalso.
    assert (y == 0) as H by lra. apply Qeq_bool_iff in H. congruence.
  - apply Qeq_bool_iff in Ey. exfalso.
    assert (x == 0) as H by lra. apply Qeq_bool_iff in H. congruence.
  - assert (~ x == 0) as Hx by (intro H; apply Qeq_bool_iff in H; congruence).
    rewrite !Qred_correct, (expo_comp x y Hx E).
    assert (x / pow2 (expo f y) == y / pow2 (expo f y)) as Eq by now rewrite E.
    now rewrite (rne_comp _ _ Eq).
Qed.

(** The significand of a rounded value has at most [prec] bits. *)
Lemma round_significand (x : Q) :
  0 < x ->
  (0 <= rne (x / pow2 (expo f x)) <= 2 ^ Z.pos (prec f))%Z /\
  (emin f <= expo f x)%Z.
Proof.
  intro Hx. rewrite expo_pos by exact Hx.
  set (e := Z.max (ilog2 x - (Z.pos (prec f) - 1)) (emin f)).
  split; [split|]; [apply rne_nonneg, scaled_nonneg; lra | | unfold e; lia].
  rewrite <- (rne_Z (2 ^ Z.pos (prec f))). apply rne_mono.
  rewrite <- pow2_Z by lia.
  apply Qle_shift_div_r; [apply pow2_pos|]. rewrite <- pow2_add.
  destruct (ilog2_spec x Hx) as [_ H].
  apply Qlt_le_weak, Qlt_le_trans with (1 := H), pow2_le. unfold e. lia.
Qed.

(** A significand of at most [prec] bits at an exponent not below
    [emin] is a value of the format. *)
Lemma round_fixes (m e : Z) :
  (0 <= m <= 2 ^ Z.pos (prec f))%Z -> (emin f <= e)%Z ->
  round f (inject_Z m * pow2 e) == inject_Z m * pow2 e.
Proof.
  assert (forall m e, (0 < m < 2 ^ Z.pos (prec f))%Z -> (emin f <= e)%Z ->
            round f (inject_Z m * pow2 e) == inject_Z m * pow2 e) as Hmain.
  { clear m e. intros m e Hm He.
    set (x := inject_Z m * pow2 e).
    assert (0 < x) as Hx.
    { unfold x. apply Qmult_lt_0_compat; [|apply pow2_pos].
      change 0 with (inject_Z 0). rewrite <- Zlt_Qlt. lia. }
    rewrite round_eq by exact Hx. rewrite expo_pos by exact Hx.
    set (E := Z.max (ilog2 x - (Z.pos (prec f) - 1)) (emin f)).
    assert (E <= e)%Z as HE.
    { unfold E. apply Z.max_lub; [|exact He].
      destruct (ilog2_spec x Hx) as [H1 _].
      assert (x < pow2 (Z.pos (prec f) + e)) as H2.
      { unfold x. rewrite pow2_add. apply Qmult_lt_r; [apply pow2_pos|].
        rewrite pow2_Z by lia. rewrite <- Zlt_Qlt. lia. }
      assert (pow2 (ilog2 x) < pow2 (Z.pos (prec f) + e)) as H3 by lra.
      apply pow2_lt_inv in H3. lia. }
    assert (pow2 e == inject_Z (2 ^ (e - E)) * pow2 E) as Hsplit.
    { rewrite <- pow2_Z by lia. rewrite <- pow2_add. now replace (e - E + E)%Z with e by lia. }
    assert (x / pow2 E == inject_Z (m * 2 ^ (e - E))) as Hq.
    { unfold x. rewrite Hsplit, inject_Z_mult. field.
      pose proof (pow2_pos E). lra. }
    rewrite (rne_comp _ _ Hq), rne_Z. unfold x.
    rewrite Hsplit, inject_Z_mult. ring. }
  intros Hm He.
  destruct (Z.eq_dec m 0) as [->|Hm0].
  - rewrite round_zero; [|ring]. ring.
  - destruct (Z.eq_dec m (2 ^ Z.pos (prec f))) as [->|Hmtop].
    + assert (inject_Z (2 ^ Z.pos (prec f)) * pow2 e
              == inject_Z (2 ^ (Z.pos (prec f) - 1)) * pow2 (e + 1)) as E.
      { rewrite <- !pow2_Z by lia. rewrite <- !pow2_add.
        now replace (Z.pos (prec f) + e)%Z with (Z.pos (prec f) - 1 + (e + 1))%Z by lia. }
      rewrite (round_comp _ _ E), E. apply Hmain; [|lia].
      split; [apply Z.pow_pos_nonneg; lia|].
      apply Z.pow_lt_mono_r; lia.
    + apply Hmain; lia.
Qed.

(** Rounding twice is rounding once. *)
Lemma round_idem (x : Q) : 0 <= x -> round f (round f x) == round f x.
Proof.
  intro Hx. destruct (Qeq_dec x 0) as [E|Hne].
  - rewrite (round_zero x E). now rewrite round_zero.
  - assert (0 < x) as Hpos by lra.
    destruct (round_significand x Hpos) as [Hm He].
    rewrite (round_comp _ _ (round_eq x Hpos)), (round_eq x Hpos).
    now apply round_fixes.
Qed.

(** Rounding is monotone. *)
Lemma round_mono (x y : Q) : 0 <= x -> x <= y -> round f x <= round f y.
Proof.
  intros Hx Hxy. destruct (Qeq_dec x 0) as [E|Hne].
  - rewrite (round_zero x E). apply round_nonneg. lra.
  - assert (0 < x) as Hpx by lra. assert (0 < y) as Hpy by lra.
    rewrite (round_eq x Hpx), (round_eq y Hpy).
    pose proof (ilog2_mono x y Hpx Hxy) as Hlog.
    rewrite (expo_pos x Hpx), (expo_pos y Hpy).
    set (P := Z.pos (prec f)). assert (1 <= P)%Z as HP by (unfold P; lia).
    set (ex := Z.max (ilog2 x - (P - 1)) (emin f)).
    set (ey := Z.max (ilog2 y - (P - 1)) (emin f)).
    destruct (Z.eq_dec ex ey) as [Ee|Hne'].
    + rewrite Ee. apply Qmult_le_compat_r; [|apply Qlt_le_weak, pow2_pos].
      rewrite <- Zle_Qle. apply rne_mono.
      apply Qmult_le_compat_r; [exact Hxy|].
      apply Qlt_le_weak, Qinv_lt_0_compat, pow2_pos.
    + assert (ex < ey)%Z as Hlt by (unfold ex, ey in *; lia).
      assert (ey = ilog2 y - (P - 1))%Z as Hey by (unfold ex, ey in *; lia).
      assert (ilog2 x < ilog2 y)%Z as Hlog' by (unfold ex, ey in *; lia).
      destruct (ilog2_spec x Hpx) as [_ Hxhi].
      destruct (ilog2_spec y Hpy) as [Hylo _].
      set (t := Z.max (ilog2 x + 1 - ex) 0).
      apply Qle_trans with (pow2 (ilog2 y)).
      * (* the rounded [x] stays below the binade of [y] *)
        apply Qle_trans with (inject_Z (2 ^ t) * pow2 ex).
        -- apply Qmult_le_compat_r; [|apply Qlt_le_weak, pow2_pos].
           rewrite <- Zle_Qle. rewrite <- (rne_Z (2 ^ t)). apply rne_mono.
           rewrite <- pow2_Z by (unfold t; lia).
           apply Qle_shift_div_r; [apply pow2_pos|]. rewrite <- pow2_add.
           apply Qlt_le_weak, Qlt_le_trans with (1 := Hxhi), pow2_le.
           unfold t. lia.
        -- rewrite <- pow2_Z by (unfold t; lia). rewrite <- pow2_add.
           apply pow2_le. unfold t. lia.
      * (* the rounded [y] stays in its binade *)
        apply Qle_trans with (inject_Z (2 ^ (P - 1)) * pow2 ey).
        -- rewrite <- pow2_Z by lia. rewrite <- pow2_add.
           apply pow2_le. lia.
        -- apply Qmult_le_compat_r; [|apply Qlt_le_weak, pow2_pos].
           rewrite <- Zle_Qle. rewrite <- (rne_Z (2 ^ (P - 1))). apply rne_mono.
           rewrite <- pow2_Z by lia.
           apply Qle_shift_div_l; [apply pow2_pos|]. rewrite <- pow2_add.
           replace (P - 1 + ey)%Z with (ilog2 y) by lia. exact Hylo.
Qed.

(** Values of the format. *)
Lemma representable_form (x : Q) :
  0 < x -> representable f x ->
  exists m e : Z,
    ((0 <= m <= 2 ^ Z.pos (prec f))%Z /\ (emin f <= e)%Z) /\
    (x == inject_Z m * pow2 e).
Proof.
  intros Hx Hr. destruct (round_significand x Hx) as [Hm He].
  exists (rne (x / pow2 (expo f x))), (expo f x).
  split; [split; [exact Hm | exact He]|].
  rewrite <- (round_eq x Hx). symmetry. exact Hr.
Qed.

Lemma representable_round (x : Q) : 0 <= x -> representable f (round f x).
Proof. apply round_idem. Qed.

Lemma representable_0 : representable f 0.
Proof. unfold representable. now rewrite round_zero. Qed.

(** Twice a value of the format is a value of the format. *)
Lemma representable_double (x : Q) :
  0 <= x -> representable f x -> representable f (x + x).
Proof.
  intros Hx Hr. destruct (Qeq_dec x 0) as [E|Hne].
  - unfold representable. rewrite round_zero; lra.
  - destruct (representable_form x) as (m & e & [Hm He] & Ex); [lra | exact Hr|].
    assert (x + x == inject_Z m * pow2 (e + 1)) as E2.
    { rewrite pow2_add, Ex. change (pow2 1) with 2. unfold pow2. ring. }
    unfold representable. rewrite (round_comp _ _ E2), E2.
    apply round_fixes; [exact Hm | lia].
Qed.

End Rounding.

(** A wider format holds every value of a narrower one. *)
Lemma wider_representable (a d : format) (x : Q) :
  wider a d -> 0 <= x -> representable d x -> representable a x.
Proof.
  intros [Hp He] Hx Hr. destruct (Qeq_dec x 0) as [E|Hne].
  - unfold representable. rewrite round_zero by exact E. lra.
  - destruct (representable_form d x) as (m & e & [Hm Hme] & Ex); [lra | exact Hr|].
    unfold representable. rewrite (round_comp a _ _ Ex), Ex.
    apply round_fixes; [|lia].
    split; [lia|]. apply Z.le_trans with (2 ^ Z.pos (prec d))%Z; [lia|].
    apply Z.pow_le_mono_r; lia.
Qed.

Lemma wider_refl (d : format) : wider d d.
Proof. split; lia. Qed.

End FloatFacts.

(** *** Sorting and exact sums *)

Section Nucleus.
Local Open Scope Q_scope.

Lemma Qle_bool_false (a b : Q) : Qle_bool a b = false -> b < a.
Proof.
  intro E. apply Qnot_le_lt. intro H. apply Qle_bool_iff in H. congruence.
Qed.

Lemma insert_desc_perm (x : Q * nat) (l : list (Q * nat)) :
  Permutation (insert_desc x l) (x :: l).
Proof.
  induction l as [|y t IH]; cbn [insert_desc]; [apply Permutation_refl|].
  destruct (Qle_bool (fst y) (fst x)); [apply Permutation_refl|].
  apply perm_trans with (y :: x :: t); [now apply perm_skip | apply perm_swap].
Qed.

Lemma fold_insert_desc_perm (l : list (Q * nat)) :
  Permutation (fold_right insert_desc [] l) l.
Proof.
  induction l as [|x t IH]; cbn [fold_right]; [apply perm_nil|].
  apply perm_trans with (x :: fold_right insert_desc [] t);
    [apply insert_desc_perm | now apply perm_skip].
Qed.

Lemma map_fst_combine_seq (l : list Q) (start : nat) :
  map fst (combine l (seq start (length l))) = l.
Proof.
  revert start; induction l as [|x t IH]; intro start; cbn; [reflexivity|].
  now rewrite IH.
Qed.

(** Sorting permutes the probabilities. *)
Lemma sort_desc_perm (probs : list Q) : Permutation (map fst (sort_desc probs)) probs.
Proof.
  unfold sort_desc.
  apply perm_trans with (map fst (combine probs (seq 0 (length probs)))).
  - apply Permutation_map, fold_insert_desc_perm.
  - rewrite map_fst_combine_seq. apply Permutation_refl.
Qed.

Lemma insert_desc_sorted (x : Q * nat) (l : list (Q * nat)) :
  Sorted (fun a b => fst b <= fst a) l ->
  Sorted (fun a b => fst b <= fst a) (insert_desc x l).
Proof.
  induction l as [|y t IH]; intro Hs; cbn [insert_desc].
  - repeat constructor.
  - destruct (Qle_bool (fst y) (fst x)) eqn:E.
    + constructor; [assumption|]. constructor. now apply Qle_bool_iff.
    + apply Qle_bool_false in E. inversion Hs as [|? ? Ht Hhd]; subst.
      constructor; [now apply IH|].
      destruct t as [|z t']; cbn [insert_desc].
      * constructor. now apply Qlt_le_weak.
      * destruct (Qle_bool (fst z) (fst x)).
        -- constructor. now apply Qlt_le_weak.
        -- inversion Hhd; subst. now constructor.
Qed.

(** The sorted values come in descending order. *)
Lemma sort_desc_sorted (probs : list Q) :
  Sorted (fun a b => fst b <= fst a) (sort_desc probs).
Proof.
  unfold sort_desc.
  induction (combine probs (seq 0 (length probs))) as [|x t IH]; cbn [fold_right].
  - constructor.
  - now apply insert_desc_sorted.
Qed.

Lemma sort_desc_values_sorted (probs : list Q) :
  Sorted (fun a b => b <= a) (map fst (sort_desc probs)).
Proof.
  pose proof (sort_desc_sorted probs) as Hs.
  induction Hs as [|a l Hl IH Hhd]; cbn [map]; constructor; [exact IH|].
  destruct Hhd; cbn [map]; constructor. assumption.
Qed.

Lemma qsum_perm (l l' : list Q) : Permutation l l' -> qsum l == qsum l'.
Proof.
  induction 1; cbn [qsum] in *; lra.
Qed.

Lemma nonneg_perm (l l' : list Q) : Permutation l l' -> nonneg l -> nonneg l'.
Proof. intros H. apply Permutation_Forall. exact H. Qed.



Lemma qsum_firstn_nonneg (l : list Q) (j : nat) : nonneg l -> 0 <= qsum (firstn j l).
Proof.
  intro H; revert j; induction H as [|x t Hx Ht IH]; intros [|j];
    cbn [firstn qsum]; try lra.
  specialize (IH j). lra.
Qed.

Lemma qsum_firstn_mono (l : list Q) (i j : nat) :
  nonneg l -> (i <= j)%nat -> qsum (firstn i l) <= qsum (firstn j l).
Proof.
  intro H; revert i j; induction H as [|x t Hx Ht IH]; intros i j Hij.
  - rewrite !firstn_nil. lra.
  - destruct i as [|i], j as [|j]; cbn [firstn qsum];
      try lra; try lia.
    + pose proof (qsum_firstn_nonneg t j Ht). lra.
    + assert (i <= j)%nat as Hle by lia. specialize (IH i j Hle). lra.
Qed.


End Nucleus.

(** *** The filter under rounding *)

Section RoundedSums.
Local Open Scope Q_scope.



Section Rounded.
Variable dtype acc : format.
Hypothesis Hacc : wider acc dtype.

(** One step of an accumulated sum. *)
Lemma step_nonneg (a x : Q) : 0 <= a -> 0 <= x -> 0 <= round acc (a + x).
Proof. intros Ha Hx. apply round_nonneg. lra. Qed.

Lemma step_representable (a x : Q) :
  0 <= a -> 0 <= x -> representable acc (round acc (a + x)).
Proof. intros Ha Hx. apply round_idem. lra. Qed.

Lemma step_ge_acc (a x : Q) :
  0 <= a -> representable acc a -> 0 <= x -> a <= round acc (a + x).
Proof.
  intros Ha Hr Hx. unfold representable in Hr.
  apply Qle_trans with (round acc a); [lra|]. apply round_mono; lra.
Qed.

Lemma step_ge_entry (a x : Q) :
  0 <= a -> 0 <= x -> representable dtype x -> x <= round acc (a + x).
Proof.
  intros Ha Hx Hr. pose proof (wider_representable acc dtype x Hacc Hx Hr) as Hr'.
  unfold representable in Hr'.
  apply Qle_trans with (round acc x); [lra|]. apply round_mono; lra.
Qed.

Lemma stored_ge_entry (a x : Q) :
  0 <= a -> 0 <= x -> representable dtype x ->
  x <= round dtype (round acc (a + x)).
Proof.
  intros Ha Hx Hr. pose proof (step_ge_entry a x Ha Hx Hr) as H.
  unfold representable in Hr.
  apply Qle_trans with (round dtype x); [lra|]. apply round_mono; lra.
Qed.

(** The quantity tested at a position does not exceed the one tested
    at the next position. *)
Lemma diff_step (a x y : Q) :
  0 <= a -> 0 <= y -> y <= x -> representable dtype x ->
  fsub dtype (round dtype (round acc (a + x))) x
  <= fsub dtype (round dtype (round acc (round acc (a + x) + y))) y.
Proof.
  intros Ha Hy Hyx Hrx.
  assert (0 <= x) as Hx by lra.
  pose proof (stored_ge_entry a x Ha Hx Hrx) as H1.
  pose proof (step_nonneg a x Ha Hx) as H2.
  pose proof (step_ge_acc (round acc (a + x)) y H2 (step_representable a x Ha Hx) Hy) as H3.
  pose proof (round_mono dtype _ _ H2 H3) as H4.
  apply round_mono; lra.
Qed.

Lemma diffs_above (t : list Q) :
  forall a x : Q,
    0 <= a -> representable dtype x ->
    Sorted (fun u v => v <= u) (x :: t) ->
    nonneg t -> Forall (representable dtype) t ->
    forall i, (i < length t)%nat ->
      fsub dtype (round dtype (round acc (a + x))) x
      <= fsub dtype (nth i (cumsum_from dtype acc (round acc (a + x)) t) 0) (nth i t 0).
Proof.
  induction t as [|y t IH]; intros a x Ha Hrx Hs Hn Hr i Hi; cbn [length] in Hi; [lia|].
  inversion Hs as [|? ? Hs' Hhd]; subst. inversion Hhd as [|? ? Hyx]; subst.
  inversion Hn as [|? ? Hy Hn']; subst. inversion Hr as [|? ? Hry Hr']; subst.
  assert (0 <= x) as Hx by lra.
  pose proof (diff_step a x y Ha Hy Hyx Hrx) as Hstep.
  destruct i as [|i]; cbn [cumsum_from nth]; [exact Hstep|].
  apply Qle_trans with (1 := Hstep).
  apply IH; try assumption; [now apply step_nonneg | lia].
Qed.

Variable p : Q.

(** What lines 362-364 do to sorted, non-negative values of the dtype,
    the sum accumulated so far being [a]: a prefix survives, namely the
    positions at which the rounded difference is at most the rounded
    threshold. *)
Lemma masked_prefix (l : list Q) :
  forall a : Q,
    0 <= a -> nonneg l -> Forall (representable dtype) l ->
    Sorted (fun u v => v <= u) l ->
    exists k : nat,
      (k <= length l)%nat /\
      masked_fill l (mask_of dtype (cumsum_from dtype acc a l) l p)
        = (firstn k l ++ repeat 0 (length l - k))%list /\
      length (filter negb (mask_of dtype (cumsum_from dtype acc a l) l p)) = k /\
      (forall i, (i < length l)%nat ->
         ((i < k)%nat <->
          fsub dtype (nth i (cumsum_from dtype acc a l) 0) (nth i l 0)
          <= round dtype p)).
Proof.
  induction l as [|x t IH]; intros a Ha Hn Hr Hs.
  - exists O. repeat split; try reflexivity; cbn in *; intros; lia.
  - inversion Hn as [|? ? Hx Hn']; subst. inversion Hr as [|? ? Hrx Hr']; subst.
    assert (Sorted (fun u v => v <= u) t) as Hs' by (inversion Hs; assumption).
    destruct (IH (round acc (a + x)) (step_nonneg a x Ha Hx) Hn' Hr' Hs')
      as (k & Hk & Hshape & Hcount & Hiff).
    cbn [cumsum_from mask_of masked_fill combine map fst snd filter].
    fold (mask_of dtype (cumsum_from dtype acc (round acc (a + x)) t) t p).
    fold (masked_fill t (mask_of dtype (cumsum_from dtype acc (round acc (a + x)) t) t p)).
    destruct (Qle_bool (fsub dtype (round dtype (round acc (a + x))) x) (round dtype p))
      eqn:E; cbn [negb].
    + apply Qle_bool_iff in E.
      exists (S k). cbn [length firstn app Nat.sub]. repeat split.
      * lia.
      * now rewrite Hshape.
      * now rewrite Hcount.
      * destruct i as [|i]; cbn [nth]; [intros _; exact E|].
        intro Hlt. apply Hiff; lia.
      * destruct i as [|i]; cbn [nth]; [intros _; lia|].
        intro Hle. assert (i < k)%nat by (apply Hiff; [lia | exact Hle]). lia.
    + apply Qle_bool_false in E.
      assert (k = O) as ->.
      { destruct k as [|k]; [reflexivity|]. exfalso.
        assert (0 < length t)%nat as Hlen by lia.
        pose proof (proj1 (Hiff O Hlen) (Nat.lt_0_succ k)) as H0.
        pose proof (diffs_above t a x Ha Hrx Hs Hn' Hr' O Hlen) as H1. lra. }
      exists O. cbn [length firstn app Nat.sub repeat] in *. repeat split.
      * lia.
      * rewrite Hshape. now rewrite Nat.sub_0_r.
      * exact Hcount.
      * lia.
      * destruct i as [|i]; cbn [nth]; intro Hle; exfalso.
        -- lra.
        -- assert (i < length t)%nat as Hi by lia.
           pose proof (diffs_above t a x Ha Hrx Hs Hn' Hr' i Hi) as H1. lra.
Qed.



End Rounded.

End RoundedSums.

Section NucleusShape.
Local Open Scope Q_scope.
Variable dtype acc : format.
Hypothesis Hacc : wider acc dtype.

Lemma sorted_values (probs : list Q) :
  Forall (representable dtype) probs -> nonneg probs ->
  let l := map fst (sort_desc probs) in
  Forall (representable dtype) l /\ nonneg l /\ Sorted (fun a b => b <= a) l.
Proof.
  intros Hr Hn l. split; [|split].
  - eapply Permutation_Forall; [apply Permutation_sym, sort_desc_perm | exact Hr].
  - apply (nonneg_perm probs); [apply Permutation_sym, sort_desc_perm | exact Hn].
  - apply sort_desc_values_sorted.
Qed.

(** The outcome of lines 361-364 for any threshold: a prefix of the
    sorted entries followed by zeros, the prefix being the positions
    that pass the test of line 363. *)
Lemma nucleus_shape (probs : list Q) (p : Q) :
  Forall (representable dtype) probs -> nonneg probs ->
  let l := map fst (sort_desc probs) in
  let k := kept_count dtype acc probs p in
  (k <= length l)%nat /\
  nucleus dtype acc probs p = (firstn k l ++ repeat 0 (length l - k))%list /\
  (forall i, (i < length l)%nat ->
     ((i < k)%nat <->
      fsub dtype (nth i (cumsum dtype acc l) 0) (nth i l 0) <= round dtype p)).
Proof.
  intros Hr Hn l k.
  destruct (sorted_values probs Hr Hn) as (Hrl & Hnl & Hsl).
  destruct (masked_prefix dtype acc Hacc p l 0 (Qle_refl 0) Hnl Hrl Hsl)
    as (k' & Hk & Hshape & Hcount & Hiff).
  assert (k = k') as -> by exact Hcount.
  split; [exact Hk|]. split; [exact Hshape | exact Hiff].
Qed.

(** Nothing precedes the first sorted entry: its test reads [0 > p]. *)
Lemma first_diff (x : Q) (t : list Q) :
  0 <= x -> representable dtype x ->
  fsub dtype (nth 0 (cumsum dtype acc (x :: t)) 0) (nth 0 (x :: t) 0) = 0.
Proof.
  intros Hx Hr. cbn [cumsum cumsum_from nth]. unfold fsub. apply round_zero.
  assert (0 <= x) as Hx0 by exact Hx.
  pose proof (wider_representable acc dtype x Hacc Hx Hr) as Hr'.
  unfold representable in Hr, Hr'.
  rewrite (round_comp dtype (round acc (0 + x)) x).
  - rewrite Hr. lra.
  - rewrite (round_comp acc (0 + x) x) by lra. exact Hr'.
Qed.

Lemma first_kept (probs : list Q) (p : Q) :
  Forall (representable dtype) probs -> nonneg probs -> probs <> [] -> 0 <= p ->
  (1 <= kept_count dtype acc probs p)%nat.
Proof.
  intros Hr Hn Hne Hp.
  destruct (nucleus_shape probs p Hr Hn) as (Hk & _ & Hiff).
  destruct (sorted_values probs Hr Hn) as (Hrl & Hnl & _).
  pose proof (Permutation_length (sort_desc_perm probs)) as Hlen.
  destruct (map fst (sort_desc probs)) as [|x t] eqn:El.
  - destruct probs; [congruence | discriminate].
  - assert (0 < length (x :: t))%nat as H0 by (cbn [length]; lia).
    apply (Hiff O H0).
    rewrite first_diff by (inversion Hrl; inversion Hnl; assumption).
    apply round_nonneg. exact Hp.
Qed.

End NucleusShape.


(** The same filter on the float32 values nearest to 0.4, 0.3, 0.3 with
    [top_p = 0.4]: the running sum at the second entry rounds up, the
    difference exceeds the threshold by one unit in the last place, and
    only the first entry is kept, whether the sum is accumulated in
    float64 or in float32.  In exact arithmetic the difference at the
    second entry would be the first entry, which is not above the
    threshold, and two entries would be kept. *)
Lemma nucleus_float32_rounds_up :
  let x := round float32 (4 # 10) in
  let y := round float32 (3 # 10) in
  x = (13421773 # 33554432)%Q /\
  y = (5033165 # 16777216)%Q /\
  cumsum float32 float64 [x; y; y] = [x; (2936013 # 4194304)%Q; 1%Q] /\
  nucleus float32 float64 [x; y; y] (4 # 10) = [x; 0; 0]%Q /\
  nucleus float32 float32 [x; y; y] (4 # 10) = [x; 0; 0]%Q.
Proof. vm_compute. repeat split. Qed.

(** Under rounding the kept mass can stay below [top_p]: a float32
    distribution whose entries sum to exactly 1, and a threshold
    slightly above its largest entry. *)
Lemma nucleus_kept_mass_below_top_p :
  let probs := [13421773 # 33554432; 10066330 # 33554432; 10066329 # 33554432]%Q in
  let p := (53687093 # 134217728)%Q in
  Forall (representable float32) probs /\
  (qsum probs == 1)%Q /\
  (0 < p)%Q /\ (p <= 1)%Q /\
  nucleus float32 float64 probs p = [13421773 # 33554432; 0; 0]%Q /\
  (qsum (nucleus float32 float64 probs p) < p)%Q.
Proof.
  cbv zeta. split; [repeat constructor; vm_compute; reflexivity|].
  repeat split; vm_compute; solve [reflexivity | discriminate].
Qed.



(** ** stream_generate: initialisation *)

Section Init.
Variable encode : string -> list Z.
Variable args_max_seq_len : Z.
Variable image_words : Z.
Variable image_t : Type.

Lemma lslice_from_last (l : list Z) (k : Z) :
  0 < k ->
  lslice_from l (- k) = skipn (length l - Z.to_nat k) l.
Proof.
  intro Hk. unfold lslice_from, clamp.
  destruct (- k <? 0) eqn:E; [|apply Z.ltb_ge in E; lia].
  f_equal. lia.
Qed.

Lemma assign_prefix_fits (n : nat) (prompt : list Z) :
  (length prompt <= n)%nat ->
  assign_prefix (repeat 0 n) prompt = Ok (prompt ++ repeat 0 (n - length prompt))%list.
Proof.
  intro H. unfold assign_prefix. rewrite repeat_length.
  rewrite Nat.min_l by exact H. rewrite Nat.eqb_refl.
  f_equal. f_equal.
  revert n H. generalize (length prompt) as k.
  induction k as [|k IH]; intros n H.
  - now rewrite Nat.sub_0_r.
  - destruct n as [|n]; [lia|]. cbn [repeat skipn Nat.sub]. apply IH. lia.
Qed.

(** C8, as the code has it: nothing checks [max_gen_len]; when it lies
    between 1 and the context window (the window being
    [args.max_seq_len], less the image words when an image is given),
    the prompt keeps its last [window - max_gen_len] tokens, which is
    all of it unless [len(prompt) + max_gen_len] exceeds the window, and
    [total_len = min(window, max_gen_len + prompt_size)] leaves room for
    all [max_gen_len] tokens. *)
Theorem init_truncates_left (prompt : string) (image : option image_t) (max_gen_len : Z)
    (Hgen : 1 <= max_gen_len)
    (Hroom : max_gen_len < window args_max_seq_len image_words image_t image) :
  let w := window args_max_seq_len image_words image_t image in
  let n := Z.of_nat (length (encode prompt)) in
  exists s,
    init encode args_max_seq_len image_words image_t prompt image max_gen_len = Ok s /\
    max_seq_len s = w /\
    w = (match image with
         | Some _ => args_max_seq_len - image_words
         | None => args_max_seq_len
         end) /\
    prompt_tokens s = skipn (Z.to_nat (n - (w - max_gen_len))) (encode prompt) /\
    (n + max_gen_len <= w -> prompt_tokens s = encode prompt) /\
    (w < n + max_gen_len -> prompt_size s = w - max_gen_len) /\
    total_len s = Z.min w (max_gen_len + prompt_size s) /\
    total_len s = prompt_size s + max_gen_len /\
    tokens0 s = (prompt_tokens s ++ repeat 0 (Z.to_nat max_gen_len))%list.
Proof.
  intros w n. unfold init. fold w.
  rewrite lslice_from_last by lia.
  set (kept := skipn (length (encode prompt) - Z.to_nat (w - max_gen_len)) (encode prompt)).
  assert (Z.of_nat (length kept) = Z.min n (w - max_gen_len)) as Hlen
      by (unfold kept, n; rewrite length_skipn; lia).
  assert (Z.min w (max_gen_len + Z.of_nat (length kept))
          = Z.of_nat (length kept) + max_gen_len) as Htotal by lia.
  rewrite Htotal.
  destruct (Z.of_nat (length kept) + max_gen_len <? 0) eqn:E;
    [apply Z.ltb_lt in E; lia|].
  rewrite assign_prefix_fits by lia. cbn [bind].
  eexists. split; [reflexivity|].
  cbn [max_seq_len prompt_tokens prompt_size total_len tokens0].
  split; [reflexivity|].
  split; [destruct image; reflexivity|].
  split; [unfold kept, n; f_equal; lia|].
  split.
  { intro H. unfold kept.
    replace (length (encode prompt) - Z.to_nat (w - max_gen_len))%nat with O
      by (unfold n in H; lia).
    reflexivity. }
  split; [intro H; lia|].
  split; [lia|].
  split; [reflexivity|].
  f_equal. f_equal. lia.
Qed.

End Init.

Lemma init_truncates_left_witness :
  let encode := fun _ : string => [1; 5; 6; 7; 8; 9] in
  let image := @None unit in
  let max_gen_len := 2 in
  let w := window 4 0 unit image in
  let n := Z.of_nat (length (encode "")) in
  exists s,
    init encode 4 0 unit "" image max_gen_len = Ok s /\
    max_seq_len s = w /\
    w = (match image with
         | Some _ => 4 - 0
         | None => 4
         end) /\
    prompt_tokens s = skipn (Z.to_nat (n - (w - max_gen_len))) (encode "") /\
    (n + max_gen_len <= w -> prompt_tokens s = encode "") /\
    (w < n + max_gen_len -> prompt_size s = w - max_gen_len) /\
    total_len s = Z.min w (max_gen_len + prompt_size s) /\
    total_len s = prompt_size s + max_gen_len /\
    tokens0 s = (prompt_tokens s ++ repeat 0 (Z.to_nat max_gen_len))%list.
Proof.
  apply (init_truncates_left (fun _ : string => [1; 5; 6; 7; 8; 9]) 4 0 unit "" None 2).
  - lia.
  - cbn. lia.
Defined.

(** C8 as worded fails: [max_gen_len = 0] is not rejected; the setup
    succeeds with [total_len = prompt_size] and the generator finishes
    at once. *)
Lemma init_accepts_zero_max_gen_len :
  init Scenario.encode 2048 0 unit "" None 0
    = Ok {| max_seq_len := 2048; max_prompt_size := 2048;
            prompt_tokens := [1]; prompt_size := 1; total_len := 1;
            tokens0 := [1] |} /\
  Scenario.run Scenario.play [97] 0 = Return {| text := ""; end_of_content := true |}.
Proof. split; reflexivity. Qed.

(** ** stream_generate: what a consumer receives *)

Section Consumer.
Variable encode : string -> list Z.
Variable decode : list Z -> string.
Variable eos_id : Z.
Variable args_max_seq_len : Z.
Variable image_words : Z.
Variable model_state : Type.
Variable image_t : Type.
Variable next_token_of :
  model_state -> list Z -> Z -> option image_t -> result (Z * model_state).

(** Every item the loop yields is non-terminal; the terminal
    dictionaries are built for [return] only. *)
Lemma loop_yields_nonterminal (image : option image_t) (stops : list string)
    (start_pos : Z) (n : nat) :
  forall (cur_pos : Z) (m : model_state) (tokens : list Z) (prev_pos generate_until : Z),
    Forall (fun d => end_of_content d = false)
      (iterated (loop decode eos_id model_state image_t next_token_of image stops
                   start_pos n cur_pos m tokens prev_pos generate_until)).
Proof.
  induction n as [|n IH]; intros cur_pos m tokens prev_pos generate_until;
    cbn [loop]; [constructor|].
  destruct (next_token_of m _ prev_pos _) as [[next_token m']|e]; [|constructor].
  destruct (next_token =? eos_id); [constructor|].
  destruct (first_stop _ stops); [constructor|].
  cbn [iterated]. constructor; [reflexivity | apply IH].
Qed.

Lemma stream_generate_yields_nonterminal (m : model_state) (prompt : string)
    (image : option image_t) (max_gen_len : Z) (stops : list string) :
  Forall (fun d => end_of_content d = false)
    (iterated (stream_generate encode decode eos_id args_max_seq_len image_words
                 model_state image_t next_token_of m prompt image max_gen_len stops)).
Proof.
  unfold stream_generate. destruct (init _ _ _ _ _ _ _); [|constructor].
  apply loop_yields_nonterminal.
Qed.

End Consumer.

(** C1, on the code: with [max_gen_len = 5] and end-of-sequence forced
    at step 3 the generator yields two non-terminal items and then
    returns the terminal dictionary, which a [for] loop never sees: the
    consumer receives the two non-terminal items and no terminal one. *)
Theorem stream_generate_final_item_not_delivered :
  Scenario.eos_at_step_3
    = Yield {| text := "a"; end_of_content := false |}
        (Yield {| text := "ab"; end_of_content := false |}
           (Return {| text := "ab"; end_of_content := true |})) /\
  iterated Scenario.eos_at_step_3
    = [{| text := "a"; end_of_content := false |};
       {| text := "ab"; end_of_content := false |}] /\
  Forall (fun d => end_of_content d = false) (iterated Scenario.eos_at_step_3).
Proof.
  split; [reflexivity|]. split; [reflexivity|].
  apply stream_generate_yields_nonterminal.
Qed.

(** ** The worker cycle and the relay *)

Lemma consume_replica (conv_sep : string) (g : generator) :
  fst (consume conv_sep None g) = None.
Proof.
  induction g as [sr rest IH|v|e]; cbn [consume]; try reflexivity.
  destruct (trimmer conv_sep sr) as [out|]; [|exact IH].
  cbn [put_if_present]. destruct (end_of_content out); [reflexivity | exact IH].
Qed.

(** C5, on the code: a worker without response queue (every rank but
    0) posts nothing, and when its request fails, the [put] of the
    [except] clause itself raises [AttributeError], which ends the
    worker; rank 0 posts [ModelFailure], which the relay turns into one
    [RuntimeError] with nothing shown before.  With only the [Ready] of
    rank 0 on the queue the relay waits. *)
Theorem replica_failure_not_posted (conv_sep : string) (e : exn) :
  (forall request, fst (worker_cycle conv_sep None request) = None) /\
  worker_cycle conv_sep None (Raise e) = (None, Raise AttributeError) /\
  worker_cycle conv_sep None (Ok (Scenario.run Scenario.broken [] 5))
    = (None, Raise AttributeError) /\
  stream_model_output [Ready] Scenario.one_question = ([], Waiting) /\
  worker_cycle conv_sep (Some []) (Raise e) = (Some [Ready; ModelFailure], Ok tt) /\
  stream_model_output [Ready; ModelFailure] Scenario.one_question
    = ([], Failed RuntimeError).
Proof.
  split; [|repeat split].
  intros [g|e']; unfold worker_cycle; cbn [put_if_present].
  - pose proof (consume_replica conv_sep g) as H.
    destruct (consume conv_sep None g) as [q [u|e']]; cbn [fst snd] in *;
      rewrite H; reflexivity.
  - reflexivity.
Qed.

Lemma is_prefix_iff (a b : string) : String.prefix a b = true <-> is_prefix a b.
Proof.
  revert b; induction a as [|c a IH]; intro b.
  - rewrite prefix_empty. split; [intros _; now exists b | reflexivity].
  - destruct b as [|d b]; cbn [String.prefix].
    + split; [discriminate | intros [u Hu]; discriminate].
    + destruct (ascii_dec c d) as [->|Hne].
      * rewrite IH. split; intros [u Hu]; exists u.
        -- cbn [append]. now rewrite Hu.
        -- cbn [append] in Hu. now injection Hu.
      * split; [discriminate|]. intros [u Hu]. cbn [append] in Hu.
        injection Hu as Hc _. congruence.
Qed.

(** On growing texts the non-terminal emissions grow too. *)
Lemma trimmer_monotone (conv_sep : string) (ev1 ev2 out1 out2 : PartialResult) :
  is_prefix (text ev1) (text ev2) ->
  trimmer conv_sep ev1 = Some out1 -> end_of_content out1 = false ->
  trimmer conv_sep ev2 = Some out2 -> end_of_content out2 = false ->
  is_prefix (text out1) (text out2).
Proof.
  intros [u Hu] H1 Hn1 H2 Hn2.
  destruct (trimmer_nonterminal _ _ _ H1 Hn1) as [He1 Hf1].
  destruct (trimmer_nonterminal _ _ _ H2 Hn2) as [He2 Hf2].
  rewrite (trimmer_plain _ _ He1 Hf1) in H1.
  rewrite (trimmer_plain _ _ He2 Hf2) in H2.
  destruct (len (text ev1) <? len conv_sep) eqn:E1; [discriminate|].
  destruct (len (text ev2) <? len conv_sep) eqn:E2; [discriminate|].
  apply Z.ltb_ge in E1, E2. unfold len in *.
  injection H1 as <-. injection H2 as <-. cbn [text].
  rewrite Hu, length_app.
  rewrite <- (take_app_le _ (text ev1) u) by lia.
  apply take_mono. lia.
Qed.

Lemma emitted_from (conv_sep : string) (g : generator) (out : PartialResult) :
  In out (emitted conv_sep g) ->
  exists ev, In ev (iterated g) /\ trimmer conv_sep ev = Some out.
Proof.
  induction g as [sr rest IH|v|e]; cbn [emitted iterated]; try contradiction.
  destruct (trimmer conv_sep sr) as [o|] eqn:Et.
  - intros [<-|Hin].
    + exists sr. split; [now left | exact Et].
    + destruct (end_of_content o); [contradiction|].
      destruct (IH Hin) as (ev & Hev & Htr). exists ev. split; [now right | exact Htr].
  - intro Hin. destruct (IH Hin) as (ev & Hev & Htr).
    exists ev. split; [now right | exact Htr].
Qed.

Lemma emitted_sorted (conv_sep : string) (g : generator) :
  StronglySorted is_prefix (map text (iterated g)) ->
  StronglySorted is_prefix (map text (filter nonterminal (emitted conv_sep g))).
Proof.
  induction g as [sr rest IH|v|e]; cbn [emitted iterated map filter];
    try (intros _; constructor).
  intro Hs. inversion Hs as [|? ? Hrest Hall]; subst.
  destruct (trimmer conv_sep sr) as [out|] eqn:Et; [|now apply IH].
  cbn [filter]. unfold nonterminal at 1.
  destruct (end_of_content out) eqn:Eo; cbn [negb filter map]; [constructor|].
  constructor; [now apply IH|].
  apply Forall_forall. intros t Ht.
  apply in_map_iff in Ht. destruct Ht as (o2 & <- & Hin).
  apply filter_In in Hin. destruct Hin as [Hin Hnt].
  destruct (emitted_from _ _ _ Hin) as (ev2 & Hev2 & Htr2).
  apply (trimmer_monotone conv_sep sr ev2 out o2); auto.
  - rewrite Forall_forall in Hall. apply Hall. now apply in_map.
  - unfold nonterminal in Hnt. now destruct (end_of_content o2).
Qed.

Lemma emitted_stops (conv_sep : string) (g : generator) :
  stops_at_terminal (emitted conv_sep g) = true.
Proof.
  induction g as [sr rest IH|v|e]; cbn [emitted]; try reflexivity.
  destruct (trimmer conv_sep sr) as [out|]; [|exact IH].
  cbn [stops_at_terminal]. destruct (end_of_content out); [reflexivity | exact IH].
Qed.

Lemma stops_at_terminal_last (l pre post : list PartialResult) (d : PartialResult) :
  stops_at_terminal l = true ->
  l = (pre ++ d :: post)%list -> end_of_content d = true -> post = [].
Proof.
  revert l; induction pre as [|x pre IH]; intros l Hs -> Hd.
  - cbn in Hs. rewrite Hd in Hs. destruct post; [reflexivity | discriminate].
  - cbn [app stops_at_terminal] in Hs.
    destruct (end_of_content x).
    + destruct pre; discriminate.
    + now apply (IH _ Hs).
Qed.

Lemma consume_posts (conv_sep : string) (g : generator) :
  forall q : queue,
    fst (consume conv_sep (Some q) g)
    = Some (q ++ map Content (emitted conv_sep g))%list.
Proof.
  induction g as [sr rest IH|v|e]; intro q; cbn [consume emitted map];
    try (now rewrite app_nil_r).
  destruct (trimmer conv_sep sr) as [out|]; [|apply IH].
  cbn [put_if_present]. destruct (end_of_content out).
  - reflexivity.
  - rewrite IH. unfold put. rewrite <- app_assoc. reflexivity.
Qed.

(** One cycle of rank 0 posts [Ready], the emitted items, and at most a
    closing [ModelFailure]. *)
Lemma primary_posts_shape (conv_sep : string) (g : generator) :
  exists closing,
    (closing = [] \/ closing = [ModelFailure]) /\
    primary_posts conv_sep g
    = (Ready :: map Content (emitted conv_sep g) ++ closing)%list.
Proof.
  unfold primary_posts, worker_cycle. cbn [put_if_present put app]. cbv zeta.
  rewrite (consume_posts conv_sep g [Ready]). cbn [app].
  match goal with
  | |- context [snd ?c] => destruct (snd c) as [u|e]; cbn [fst]
  end.
  - exists []. split; [now left|]. now rewrite app_nil_r.
  - exists [ModelFailure]. split; [now right|]. reflexivity.
Qed.

Lemma set_last_answer_ok (cb : chatbot) (t : string) :
  cb <> [] -> exists cb', set_last_answer cb t = Ok cb' /\ cb' <> [].
Proof.
  induction cb as [|[q a] more IH]; intro H; [congruence|].
  cbn [set_last_answer]. destruct more as [|x more'].
  - eexists; split; [reflexivity | discriminate].
  - destruct IH as (cb' & E & _); [discriminate|].
    rewrite E. cbn [bind]. eexists; split; [reflexivity | discriminate].
Qed.

(** The relay shows every posted item up to the terminal one. *)
Lemma relay_shows (l : list PartialResult) (closing : list item) :
  (closing = [] \/ closing = [ModelFailure]) ->
  stops_at_terminal l = true ->
  forall cb : chatbot, cb <> [] ->
    map piece (fst (relay (map Content l ++ closing) cb)) = l.
Proof.
  intros Hc. induction l as [|d later IH]; intros Hs cb Hcb.
  - destruct Hc as [-> | ->]; reflexivity.
  - cbn [map app relay].
    destruct (set_last_answer_ok cb (text d) Hcb) as (cb' & E & Hcb').
    rewrite E. cbn [stops_at_terminal] in Hs.
    destruct (end_of_content d).
    + destruct later; [reflexivity | discriminate].
    + cbn [fst map piece]. f_equal. now apply IH.
Qed.

(** Strict growth passes through the trimmer too. *)
Lemma trimmer_monotone_strict (conv_sep : string) (ev1 ev2 out1 out2 : PartialResult) :
  is_proper_prefix (text ev1) (text ev2) ->
  trimmer conv_sep ev1 = Some out1 -> end_of_content out1 = false ->
  trimmer conv_sep ev2 = Some out2 -> end_of_content out2 = false ->
  is_proper_prefix (text out1) (text out2).
Proof.
  intros [Hpre Hne] H1 Hn1 H2 Hn2. split.
  - now apply (trimmer_monotone conv_sep ev1 ev2).
  - destruct Hpre as [u Hu].
    assert (String.length (text ev1) < String.length (text ev2))%nat as Hlen.
    { rewrite Hu, length_app. destruct u as [|c u]; [|cbn [String.length]; lia].
      exfalso. apply Hne. now rewrite Hu, app_empty_r. }
    destruct (trimmer_nonterminal _ _ _ H1 Hn1) as [He1 Hf1].
    destruct (trimmer_nonterminal _ _ _ H2 Hn2) as [He2 Hf2].
    rewrite (trimmer_plain _ _ He1 Hf1) in H1.
    rewrite (trimmer_plain _ _ He2 Hf2) in H2.
    destruct (len (text ev1) <? len conv_sep) eqn:E1; [discriminate|].
    destruct (len (text ev2) <? len conv_sep) eqn:E2; [discriminate|].
    apply Z.ltb_ge in E1, E2. unfold len in *.
    injection H1 as <-. injection H2 as <-. cbn [text].
    intro Heq. apply (f_equal String.length) in Heq.
    rewrite !length_take in Heq. lia.
Qed.

Lemma emitted_sorted_strict (conv_sep : string) (g : generator) :
  StronglySorted is_proper_prefix (map text (iterated g)) ->
  StronglySorted is_proper_prefix
    (map text (filter nonterminal (emitted conv_sep g))).
Proof.
  induction g as [sr rest IH|v|e]; cbn [emitted iterated map filter];
    try (intros _; constructor).
  intro Hs. inversion Hs as [|? ? Hrest Hall]; subst.
  destruct (trimmer conv_sep sr) as [out|] eqn:Et; [|now apply IH].
  cbn [filter]. unfold nonterminal at 1.
  destruct (end_of_content out) eqn:Eo; cbn [negb filter map]; [constructor|].
  constructor; [now apply IH|].
  apply Forall_forall. intros t Ht.
  apply in_map_iff in Ht. destruct Ht as (o2 & <- & Hin).
  apply filter_In in Hin. destruct Hin as [Hin Hnt].
  destruct (emitted_from _ _ _ Hin) as (ev2 & Hev2 & Htr2).
  apply (trimmer_monotone_strict conv_sep sr ev2 out o2); auto.
  - rewrite Forall_forall in Hall. apply Hall. now apply in_map.
  - unfold nonterminal in Hnt. now destruct (end_of_content o2).
Qed.

(** C7 as worded fails: with separator ["###"] and the text
    ["a  ###"] arriving one character at a time, the caller is shown
    [""], ["a"], ["a "] and then the terminal ["a\n"], of which
    ["a "] is not a prefix. *)
Lemma relayed_texts_not_prefix_ordered :
  observed (primary_posts "###" Scenario.spaces_then_sep) Scenario.one_question
    = [{| text := ""; end_of_content := false |};
       {| text := "a"; end_of_content := false |};
       {| text := "a "; end_of_content := false |};
       {| text := "a" ++ nl; end_of_content := true |}] /\
  ~ is_prefix "a " ("a" ++ nl).
Proof.
  split; [reflexivity|].
  intro H. apply is_prefix_iff in H. discriminate.
Qed.

(** C7, as the code has it.  For every request relayed into a history
    that holds the question, the caller is shown the items rank 0
    posted, in order, and no item follows a terminal one, so there is at
    most one.  When the decoded texts grow as prefix-extensions, each
    non-terminal text shown is a prefix of the non-terminal texts shown
    after it, and a proper prefix when each decoded text properly
    extends the ones before it.  The terminal text, right-trimmed and
    closed by a newline, need not extend the texts shown before it. *)
Theorem relayed_stream_ordered (conv_sep : string) (g : generator) (cb : chatbot)
    (Hcb : cb <> []) :
  let seen := observed (primary_posts conv_sep g) cb in
  seen = emitted conv_sep g /\
  (forall pre d post,
     seen = (pre ++ d :: post)%list -> end_of_content d = true -> post = []) /\
  (StronglySorted is_prefix (map text (iterated g)) ->
   StronglySorted is_prefix (map text (filter nonterminal seen))) /\
  (StronglySorted is_proper_prefix (map text (iterated g)) ->
   StronglySorted is_proper_prefix (map text (filter nonterminal seen))).
Proof.
  intro seen.
  assert (seen = emitted conv_sep g) as ->.
  { unfold seen, observed, stream_model_output.
    destruct (primary_posts_shape conv_sep g) as (closing & Hc & ->).
    cbn [await_ready]. apply relay_shows; auto. apply emitted_stops. }
  split; [reflexivity|]. split; [|split].
  - intros pre d post. apply stops_at_terminal_last. apply emitted_stops.
  - apply emitted_sorted.
  - apply emitted_sorted_strict.
Qed.

Lemma relayed_stream_ordered_witness :
  let seen := observed (primary_posts "###" Scenario.spaces_then_sep)
                Scenario.one_question in
  seen = emitted "###" Scenario.spaces_then_sep /\
  (forall pre d post,
     seen = (pre ++ d :: post)%list -> end_of_content d = true -> post = []) /\
  StronglySorted is_prefix (map text (filter nonterminal seen)) /\
  StronglySorted is_proper_prefix (map text (filter nonterminal seen)).
Proof.
  destruct (relayed_stream_ordered "###" Scenario.spaces_then_sep Scenario.one_question)
    as (Hseen & Hlast & Hgrow & Hstrict); [discriminate|].
  split; [exact Hseen|]. split; [exact Hlast|]. split.
  - apply Hgrow. cbn. repeat constructor; apply is_prefix_iff; reflexivity.
  - apply Hstrict. cbn.
    repeat constructor; try (apply is_prefix_iff; reflexivity); discriminate.
Defined.

(* ================================================================== *)
(** * Further properties: conversation objects and templates *)
(* ================================================================== *)

Import ConversationObjects.

Section LoopsOnFields.
Variables c1 c2 : Conversation.
Variable flag : bool.
Hypothesis Hsep : sep c1 = sep c2.
Hypothesis Hsep2 : sep2 c1 = sep2 c2.
Hypothesis Hroles : roles c1 = roles c2.
Hypothesis Hlen : length (messages c1) = length (messages c2).

(** The loops read [self] through [sep], [sep2], [roles] and the number
    of messages only. *)
Lemma single_loop_fields (todo : list turn) :
  forall i ret spans,
    single_loop c1 flag i todo ret spans = single_loop c2 flag i todo ret spans.
Proof.
  induction todo as [|[role m] rest IH]; intros i ret spans; [reflexivity|].
  cbn [single_loop]. unfold learn, n_messages. rewrite Hsep, Hroles, Hlen.
  destruct (is_not_None m); [apply IH|].
  destruct (i =? _); [apply IH | reflexivity].
Qed.

Lemma two_loop_fields (todo : list turn) :
  forall i ret spans,
    two_loop c1 flag i todo ret spans = two_loop c2 flag i todo ret spans.
Proof.
  induction todo as [|[role m] rest IH]; intros i ret spans; [reflexivity|].
  cbn [two_loop]. unfold learn, seps, n_messages. rewrite Hsep, Hsep2, Hroles, Hlen.
  destruct (truthy m).
  - destruct (if i mod 2 =? 0 then _ else _); [apply IH | reflexivity].
  - destruct (i =? _); [apply IH | reflexivity].
Qed.

End LoopsOnFields.

Lemma map_pair_id (l : list turn) : map (fun xy => (fst xy, snd xy)) l = l.
Proof.
  induction l as [|[x y] l IH]; cbn; [reflexivity | now rewrite IH].
Qed.

(** X1: a copy renders exactly as the original does (although it drops
    [version] and [skip_next]), and a copy always accepts
    [append_message], which adds the turn at the end. *)
Theorem copy_renders_alike (self : instance) (flag : bool) :
  process (fields (copy self)) flag = process (fields self) flag /\
  version (fields (copy self)) = "Unknown" /\
  skip_next (fields (copy self)) = false /\
  (forall role m,
     exists self',
       append_message (copy self) role m = Ok self' /\
       messages (fields self')
       = (messages (fields self) ++ [(role, m)])%list).
Proof.
  split; [|split; [reflexivity|split; [reflexivity|]]].
  - unfold process. cbn [copy fields sep_style system sep messages].
    rewrite map_pair_id.
    destruct (sep_style (fields self)).
    + rewrite (single_loop_fields _ (fields self)); cbn;
        try rewrite map_pair_id; reflexivity.
    + rewrite (two_loop_fields _ (fields self)); cbn;
        try rewrite map_pair_id; reflexivity.
  - intros role m. eexists. split; [reflexivity|].
    cbn. now rewrite map_pair_id.
Qed.

Lemma index_parity (k : nat) : (Z.of_nat k mod 2 =? 0) = Nat.even k.
Proof.
  induction k as [k IH] using lt_wf_ind.
  destruct k as [|[|k]]; try reflexivity.
  rewrite Nat.even_succ_succ, <- (IH k) by lia.
  replace (Z.of_nat (S (S k))) with (Z.of_nat k + 1 * 2) by lia.
  now rewrite Z.mod_add by lia.
Qed.

Lemma falsy_before_last_cons (t : turn) (rest : list turn) :
  rest <> [] ->
  falsy_before_last (t :: rest) = negb (truthy (snd t)) || falsy_before_last rest.
Proof. destruct t as [role m], rest; [congruence | reflexivity]. Qed.

Lemma falsy_covers_absent (l : list turn) :
  falsy_before_last l = false -> absent_before_last l = false.
Proof.
  induction l as [|[role m] rest IH]; [reflexivity|].
  destruct rest as [|t rest']; [reflexivity|].
  rewrite falsy_before_last_cons, absent_before_last_cons by discriminate.
  cbn [snd]. intro H. apply orb_false_iff in H. destruct H as [Hm Hrest].
  apply orb_false_iff. split; [|now apply IH].
  destruct m; [discriminate | reflexivity | reflexivity].
Qed.

Section TwoLoop.
Variable c : Conversation.
Variable flag : bool.
Variable second : string.
Hypothesis Hsecond : sep2 c = Some second.

Lemma seps_at (k : nat) :
  seps c (Z.of_nat k) = Some (if Nat.even k then sep c else second).
Proof.
  unfold seps. rewrite index_parity. destruct (Nat.even k); [reflexivity | exact Hsecond].
Qed.

(** With [sep2] present, the TWO loop appends one piece per turn as long
    as only the last message may be missing or empty. *)
Lemma two_loop_renders (todo : list turn) :
  forall (k : nat) (ret : string) (spans : list string),
    Z.of_nat k + Z.of_nat (length todo) = n_messages c ->
    falsy_before_last todo = false ->
    exists spans',
      two_loop c flag (Z.of_nat k) todo ret spans
      = Ok (ret ++ segments_two c flag second k todo, spans').
Proof.
  induction todo as [|[role m] rest IH]; intros k ret spans Hk Hv.
  - exists spans. cbn. now rewrite app_empty_r.
  - cbn [two_loop segments_two]. unfold segment_two; cbn [fst snd].
    destruct (truthy m) eqn:Em.
    + rewrite seps_at.
      assert (falsy_before_last rest = false) as Hrest.
      { destruct rest as [|t rest']; [reflexivity|].
        rewrite falsy_before_last_cons in Hv by discriminate.
        cbn [snd] in Hv. rewrite Em in Hv. exact Hv. }
      replace (Z.of_nat k + 1) with (Z.of_nat (S k)) by lia.
      destruct (IH (S k)
                  (ret ++ (" " ++ role ++ ": " ++ untuple m
                           ++ (if Nat.even k then sep c else second)))
                  (learn c flag spans role
                     (untuple m ++ (if Nat.even k then sep c else second))))
        as [spans' E]; [cbn [length] in Hk; lia | exact Hrest |].
      exists spans'. rewrite E, app_assoc_str. reflexivity.
    + destruct rest as [|t rest'].
      * cbn [length] in Hk.
        replace (Z.of_nat k =? n_messages c - 1) with true
          by (symmetry; apply Z.eqb_eq; lia).
        exists spans. cbn [two_loop segments_two].
        rewrite (open_turn_segment c), app_empty_r. reflexivity.
      * rewrite falsy_before_last_cons in Hv by discriminate.
        cbn [snd] in Hv. rewrite Em in Hv. discriminate.
Qed.

(** It stops with the assertion at the first turn before the last whose
    message is missing or empty. *)
Lemma two_loop_asserts (todo : list turn) :
  forall (k : nat) (ret : string) (spans : list string),
    Z.of_nat k + Z.of_nat (length todo) = n_messages c ->
    falsy_before_last todo = true ->
    two_loop c flag (Z.of_nat k) todo ret spans = Raise assert_last.
Proof.
  induction todo as [|[role m] rest IH]; intros k ret spans Hk Hv; [discriminate|].
  destruct rest as [|t rest']; [discriminate|].
  rewrite falsy_before_last_cons in Hv by discriminate. cbn [snd] in Hv.
  cbn [two_loop]. destruct (truthy m) eqn:Em.
  - rewrite seps_at. replace (Z.of_nat k + 1) with (Z.of_nat (S k)) by lia.
    apply IH; [cbn [length] in *; lia | exact Hv].
  - replace (Z.of_nat k =? n_messages c - 1) with false; [reflexivity|].
    symmetry; apply Z.eqb_neq. cbn [length] in Hk. lia.
Qed.

End TwoLoop.

(** X2: under the TWO style with [sep2] present, a history in which only
    the last message may be missing or empty is rendered as
    [system + sep] followed, for turn [i], by [" " + role + ": " +
    message] and then [sep] for even [i], [sep2] for odd [i]; a last
    turn without message gives [" " + role + ":"] (and one more space
    exactly when [space_part_of_next_word] is false). *)
Theorem process_two_renders (c : Conversation) (flag : bool) (second : string)
    (Hstyle : sep_style c = TWO)
    (Hsecond : sep2 c = Some second)
    (Hvalid : falsy_before_last (messages c) = false) :
  exists spans,
    process c flag
    = Ok {| conv := (system c ++ sep c) ++ segments_two c flag second 0 (messages c);
            to_predict := spans |}.
Proof.
  unfold process. rewrite Hstyle.
  destruct (two_loop_renders c flag second Hsecond (messages c) 0
              (system c ++ sep c) []) as [spans E];
    [unfold n_messages; lia | exact Hvalid |].
  change 0 with (Z.of_nat 0). rewrite E. exists spans. reflexivity.
Qed.

Lemma process_two_renders_witness :
  let c := {| system := "S"; roles := ("USER", "ASSISTANT");
              messages := [("USER", MStr "Hi"); ("ASSISTANT", MStr "Yo");
                           ("USER", MStr "Bye"); ("ASSISTANT", MNone)];
              sep_style := TWO; sep := " "; sep2 := Some "</s>";
              version := "v1"; skip_next := false |} in
  exists spans,
    process c true
    = Ok {| conv := "S  USER: Hi  ASSISTANT: Yo</s> USER: Bye  ASSISTANT:";
            to_predict := spans |}.
Proof.
  intro c.
  exact (process_two_renders c true "</s>" eq_refl eq_refl eq_refl).
Defined.

(** X3: under the TWO style with [sep2] present, rendering fails exactly
    when a turn before the last has a message that is [None] or the empty
    string (the SINGLE style tests for [None] only), and then with the
    assertion "only last message can be None". *)
Theorem process_two_rejects_empty (c : Conversation) (flag : bool) (second : string)
    (Hstyle : sep_style c = TWO)
    (Hsecond : sep2 c = Some second) :
  is_ok (process c flag) = negb (falsy_before_last (messages c)) /\
  (falsy_before_last (messages c) = true -> process c flag = Raise assert_last).
Proof.
  split.
  - unfold process. rewrite Hstyle.
    destruct (falsy_before_last (messages c)) eqn:Ev.
    + change 0 with (Z.of_nat 0).
      rewrite (two_loop_asserts c flag second Hsecond (messages c) 0);
        [reflexivity | unfold n_messages; lia | exact Ev].
    + destruct (two_loop_renders c flag second Hsecond (messages c) 0
                  (system c ++ sep c) []) as [spans E];
        [unfold n_messages; lia | exact Ev |].
      change 0 with (Z.of_nat 0). rewrite E. reflexivity.
  - intro Ev. unfold process. rewrite Hstyle. change 0 with (Z.of_nat 0).
    rewrite (two_loop_asserts c flag second Hsecond (messages c) 0);
      [reflexivity | unfold n_messages; lia | exact Ev].
Qed.

Lemma process_two_rejects_empty_witness :
  let c := {| system := "S"; roles := ("USER", "ASSISTANT");
              messages := [("USER", MStr ""); ("ASSISTANT", MNone)];
              sep_style := TWO; sep := " "; sep2 := Some "</s>";
              version := "v1"; skip_next := false |} in
  falsy_before_last (messages c) = true /\
  process c true = Raise assert_last.
Proof.
  intro c.
  destruct (process_two_rejects_empty c true "</s>" eq_refl eq_refl) as [_ H].
  split; [reflexivity | exact (H eq_refl)].
Defined.

(** X4: under the TWO style without [sep2], a history whose first two
    turns carry non-empty messages cannot be rendered: the second
    concatenation meets [None] and raises [TypeError]. *)
Theorem process_two_needs_sep2 (c : Conversation) (flag : bool)
    (t0 t1 : turn) (rest : list turn)
    (Hstyle : sep_style c = TWO)
    (Hnone : sep2 c = None)
    (Hmsgs : messages c = t0 :: t1 :: rest)
    (H0 : truthy (snd t0) = true)
    (H1 : truthy (snd t1) = true) :
  process c flag = Raise TypeError.
Proof.
  unfold process. rewrite Hstyle, Hmsgs.
  destruct t0 as [r0 m0], t1 as [r1 m1]. cbn [snd] in H0, H1.
  cbn [two_loop]. rewrite H0, H1. unfold seps. rewrite Hnone. reflexivity.
Qed.

Lemma process_two_needs_sep2_witness :
  let c := {| system := "S"; roles := ("USER", "ASSISTANT");
              messages := [("USER", MStr "Hi"); ("ASSISTANT", MStr "Yo")];
              sep_style := TWO; sep := " "; sep2 := None;
              version := "v1"; skip_next := false |} in
  process c true = Raise TypeError.
Proof.
  intro c.
  exact (process_two_needs_sep2 c true ("USER", MStr "Hi") ("ASSISTANT", MStr "Yo") []
           eq_refl eq_refl eq_refl eq_refl eq_refl).
Defined.

(** ** The values to predict *)

Lemma occurs_in_grow (v s x : string) : occurs_in v s -> occurs_in v (s ++ x).
Proof.
  intros (a & b & ->). exists a, (b ++ x). now rewrite !app_assoc_str.
Qed.

Lemma occurs_in_end (a v : string) : occurs_in v (a ++ v).
Proof. exists a, "". now rewrite app_empty_r. Qed.

Section Spans.
Variable c : Conversation.
Variable flag : bool.

Lemma spans_occur_grow (ret x : string) (spans : list string) :
  spans_occur ret spans -> spans_occur (ret ++ x) spans.
Proof.
  unfold spans_occur. intro H. eapply Forall_impl; [|exact H].
  intros v Hv. now apply occurs_in_grow.
Qed.

Lemma open_turn_grows (ret role : string) :
  exists x, open_turn flag ret role = ret ++ x.
Proof. eexists. apply (open_turn_segment c). Qed.

(** A turn's piece ends with the value recorded for it. *)
Lemma learn_occurs (ret role message tail : string) (spans : list string) :
  spans_occur ret spans ->
  spans_occur (ret ++ (" " ++ role ++ ": " ++ message ++ tail))
    (learn c flag spans role (message ++ tail)).
Proof.
  intro H. unfold learn.
  destruct (role =? snd (roles c))%string; [|now apply spans_occur_grow].
  apply Forall_app. split; [now apply spans_occur_grow|].
  constructor; [|constructor].
  destruct flag.
  - replace (ret ++ (" " ++ role ++ ": " ++ message ++ tail))
      with ((ret ++ " " ++ role ++ ":") ++ (" " ++ message ++ tail)).
    + apply occurs_in_end.
    + repeat rewrite app_assoc_str. cbn [append]. reflexivity.
  - replace (ret ++ (" " ++ role ++ ": " ++ message ++ tail))
      with ((ret ++ " " ++ role ++ ": ") ++ (message ++ tail)).
    + apply occurs_in_end.
    + repeat rewrite app_assoc_str. cbn [append]. reflexivity.
Qed.

Lemma learn_length (spans : list string) (role v : string) :
  length (learn c flag spans role v)
  = (length spans + if (role =? snd (roles c))%string then 1 else 0)%nat.
Proof.
  unfold learn. destruct (role =? snd (roles c))%string.
  - rewrite List.length_app. reflexivity.
  - lia.
Qed.

Lemma single_loop_spans (todo : list turn) :
  forall i ret spans ret' spans',
    single_loop c flag i todo ret spans = Ok (ret', spans') ->
    spans_occur ret spans ->
    spans_occur ret' spans' /\
    length spans'
    = (length spans
       + length (filter (fun t => is_not_None (snd t)
                                  && (fst t =? snd (roles c))%string) todo))%nat.
Proof.
  induction todo as [|[role m] rest IH]; intros i ret spans ret' spans' E H.
  - cbn in E. injection E as <- <-. split; [exact H | cbn; lia].
  - cbn [single_loop] in E. cbn [filter fst snd].
    destruct (is_not_None m) eqn:Em; cbn [andb].
    + apply IH in E; [|now apply learn_occurs].
      destruct E as [Hocc Hlen]. split; [exact Hocc|].
      rewrite Hlen, learn_length.
      destruct (role =? snd (roles c))%string; cbn [length]; lia.
    + destruct (i =? n_messages c - 1); [|discriminate].
      destruct (open_turn_grows ret role) as [x Hx]. rewrite Hx in E.
      apply IH in E; [exact E | now apply spans_occur_grow].
Qed.

Lemma two_loop_spans (todo : list turn) :
  forall i ret spans ret' spans',
    two_loop c flag i todo ret spans = Ok (ret', spans') ->
    spans_occur ret spans ->
    spans_occur ret' spans' /\
    length spans'
    = (length spans
       + length (filter (fun t => truthy (snd t)
                                  && (fst t =? snd (roles c))%string) todo))%nat.
Proof.
  induction todo as [|[role m] rest IH]; intros i ret spans ret' spans' E H.
  - cbn in E. injection E as <- <-. split; [exact H | cbn; lia].
  - cbn [two_loop] in E. cbn [filter fst snd].
    destruct (truthy m) eqn:Em; cbn [andb].
    + destruct (seps c i) as [s|]; [|discriminate].
      apply IH in E; [|now apply learn_occurs].
      destruct E as [Hocc Hlen]. split; [exact Hocc|].
      rewrite Hlen, learn_length.
      destruct (role =? snd (roles c))%string; cbn [length]; lia.
    + destruct (i =? n_messages c - 1); [|discriminate].
      destruct (open_turn_grows ret role) as [x Hx]. rewrite Hx in E.
      apply IH in E; [exact E | now apply spans_occur_grow].
Qed.

End Spans.

(** X5: whenever [process] returns, every value of ["to_predict"]
    occurs literally in ["conv"], and there is one value for each turn
    of the answering role ([roles[1]]) that carries a message. *)
Theorem to_predict_occur_in_conv (c : Conversation) (flag : bool) (r : process_result)
    (Hok : process c flag = Ok r) :
  Forall (fun v => occurs_in v (conv r)) (to_predict r) /\
  length (to_predict r) = answered c (messages c).
Proof.
  unfold process in Hok. unfold answered, present.
  destruct (sep_style c).
  - destruct (single_loop c flag 0 (messages c) _ []) as [[ret spans]|e] eqn:E;
      [|discriminate].
    cbn in Hok. injection Hok as <-. cbn [conv to_predict].
    apply (single_loop_spans c flag) in E; [exact E | constructor].
  - destruct (two_loop c flag 0 (messages c) _ []) as [[ret spans]|e] eqn:E;
      [|discriminate].
    cbn in Hok. injection Hok as <-. cbn [conv to_predict].
    apply (two_loop_spans c flag) in E; [exact E | constructor].
Qed.

Lemma to_predict_occur_in_conv_witness :
  let c := {| system := "S"; roles := ("Human", "Assistant");
              messages := [("Human", MStr "Hi"); ("Assistant", MStr "Yo");
                           ("Human", MStr "Bye"); ("Assistant", MNone)];
              sep_style := SINGLE; sep := "###"; sep2 := None;
              version := "Unknown"; skip_next := false |} in
  let r := {| conv := "S" ++ nl ++ nl ++ "### Human: Hi" ++ nl ++ "### Assistant: Yo"
                      ++ nl ++ "### Human: Bye" ++ nl ++ "### Assistant:";
              to_predict := [" Yo" ++ nl ++ "###"] |} in
  process c true = Ok r /\
  Forall (fun v => occurs_in v (conv r)) (to_predict r) /\
  length (to_predict r) = answered c (messages c).
Proof.
  intros c r. split; [reflexivity|].
  exact (to_predict_occur_in_conv c true r eq_refl).
Defined.

(** ** Templates in use *)

Lemma process_returns (c : Conversation) (flag : bool) :
  sep_style c = SINGLE \/ sep2 c <> None ->
  falsy_before_last (messages c) = false ->
  exists r, process c flag = Ok r.
Proof.
  intros Hs Hv. unfold process. destruct (sep_style c) eqn:Es.
  - destruct (single_loop_renders c flag (messages c) 0
                (system c ++ nl ++ nl ++ sep c) []) as [spans E];
      [unfold n_messages; lia | now apply falsy_covers_absent |].
    rewrite E. eexists; reflexivity.
  - destruct Hs as [Hs|Hs]; [discriminate|].
    destruct (sep2 c) as [second|] eqn:E2; [|congruence].
    destruct (two_loop_renders c flag second E2 (messages c) 0
                (system c ++ sep c) []) as [spans E];
      [unfold n_messages; lia | exact Hv |].
    change 0 with (Z.of_nat 0). rewrite E. eexists; reflexivity.
Qed.

Lemma append_all_list (turns : list turn) :
  forall self : instance,
    holder self = PyList ->
    exists self',
      append_all self turns = Ok self' /\
      holder self' = PyList /\
      messages (fields self') = (messages (fields self) ++ turns)%list /\
      sep_style (fields self') = sep_style (fields self) /\
      sep (fields self') = sep (fields self) /\
      sep2 (fields self') = sep2 (fields self) /\
      system (fields self') = system (fields self).
Proof.
  induction turns as [|[role m] later IH]; intros self Hl.
  - exists self. cbn. rewrite app_nil_r. repeat split; assumption.
  - cbn [append_all]. unfold append_message. rewrite Hl. cbn [bind].
    match goal with
    | |- context [append_all ?s later] => destruct (IH s eq_refl) as (self' & E & H)
    end.
    exists self'. split; [exact E|]. cbn in H.
    destruct H as (H1 & H2 & H3 & H4 & H5 & H6).
    rewrite <- app_assoc in H2. repeat split; assumption.
Qed.

(** X6: every registered template holds its messages in an empty tuple,
    so that [append_message] on the template itself raises
    [AttributeError]; appending to a copy of it any turns of which only
    the last may lack a (non-empty) message succeeds, and the resulting
    conversation renders without error: no registered template of the
    TWO style lacks [sep2]. *)
Theorem templates_render (name : string) (t : instance) (turns : list turn)
    (flag : bool)
    (Hin : In (name, t) conv_templates)
    (Hvalid : falsy_before_last turns = false) :
  (forall role m, append_message t role m = Raise AttributeError) /\
  exists t' r,
    append_all (copy t) turns = Ok t' /\
    messages (fields t') = turns /\
    process (fields t') flag = Ok r.
Proof.
  split.
  { cbn in Hin.
    repeat (destruct Hin as [Hin|Hin]; [injection Hin as _ <-; reflexivity|]).
    contradiction. }
  destruct (append_all_list turns (copy t) eq_refl)
    as (t' & E & _ & Hm & Hs & _ & H2 & _).
  assert (messages (fields t) = [] /\
          (sep_style (fields t) = SINGLE \/ sep2 (fields t) <> None)) as [Hnil Hok].
  { cbn in Hin.
    repeat (destruct Hin as [Hin|Hin];
            [injection Hin as _ <-; split;
             [reflexivity | first [left; reflexivity | right; discriminate]]|]).
    contradiction. }
  cbn [copy fields messages sep_style sep2] in Hm, Hs, H2.
  rewrite Hnil in Hm. cbn in Hm.
  destruct (process_returns (fields t') flag) as [r Hr].
  - rewrite Hs, H2. exact Hok.
  - rewrite Hm. exact Hvalid.
  - exists t', r. repeat split; assumption.
Qed.

Lemma templates_render_witness :
  (forall role m, append_message conv_llava_v1 role m = Raise AttributeError) /\
  exists t' r,
    append_all (copy conv_llava_v1) [("USER", MStr "Hi"); ("ASSISTANT", MNone)] = Ok t' /\
    messages (fields t') = [("USER", MStr "Hi"); ("ASSISTANT", MNone)] /\
    process (fields t') true = Ok r.
Proof.
  apply (templates_render "llava_v1" conv_llava_v1
           [("USER", MStr "Hi"); ("ASSISTANT", MNone)] true).
  - cbn. tauto.
  - reflexivity.
Defined.

(** ** Rendering turn by turn *)

Lemma all_present_valid (l : list turn) (t : turn) :
  forallb (fun x => is_not_None (snd x)) l = true ->
  absent_before_last l = false /\ absent_before_last (l ++ [t]) = false.
Proof.
  induction l as [|[role m] rest IH]; intro H;
    [destruct t; split; reflexivity|].
  cbn [forallb snd] in H. apply andb_true_iff in H. destruct H as [Hm Hrest].
  destruct (IH Hrest) as [IH1 IH2]. split.
  - destruct rest; [reflexivity|].
    rewrite absent_before_last_cons by discriminate. cbn [snd]. now rewrite Hm.
  - cbn [app]. rewrite absent_before_last_cons by (destruct rest; discriminate).
    cbn [snd]. now rewrite Hm.
Qed.

Lemma join_app (a b : list string) : join (a ++ b) = join a ++ join b.
Proof.
  induction a as [|x a IH]; cbn; [reflexivity|].
  fold (join (a ++ b)). fold (join a). now rewrite IH, app_assoc_str.
Qed.

Lemma process_single_conv (c : Conversation) (flag : bool) :
  sep_style c = SINGLE ->
  absent_before_last (messages c) = false ->
  exists spans,
    process c flag = Ok {| conv := render_single c flag; to_predict := spans |}.
Proof.
  intros Hs Hv. unfold process. rewrite Hs.
  destruct (single_loop_renders c flag (messages c) 0
              (system c ++ nl ++ nl ++ sep c) []) as [spans E];
    [unfold n_messages; lia | exact Hv |].
  exists spans. rewrite E. reflexivity.
Qed.

Lemma render_single_snoc (c c' : Conversation) (flag : bool) (t : turn) :
  sep c' = sep c -> system c' = system c ->
  messages c' = (messages c ++ [t])%list ->
  render_single c' flag = render_single c flag ++ segment c flag t.
Proof.
  intros Hsep Hsys Hm. unfold render_single. rewrite Hsep, Hsys, Hm.
  replace (segment c' flag) with (segment c flag)
    by (unfold segment; now rewrite Hsep).
  rewrite map_app, join_app. cbn [map join fold_right].
  rewrite app_empty_r. repeat rewrite app_assoc_str. reflexivity.
Qed.

(** X7: under the SINGLE style, appending a turn to a history in which
    every message is present extends the rendered prompt by exactly that
    turn's segment; what was rendered before stays a prefix. *)
Theorem append_message_extends_prompt (self : instance) (role : string) (m : message)
    (flag : bool)
    (Hlist : holder self = PyList)
    (Hstyle : sep_style (fields self) = SINGLE)
    (Hall : forallb (fun x => is_not_None (snd x)) (messages (fields self)) = true) :
  exists self' r r',
    append_message self role m = Ok self' /\
    process (fields self) flag = Ok r /\
    process (fields self') flag = Ok r' /\
    conv r' = conv r ++ segment (fields self) flag (role, m).
Proof.
  destruct (all_present_valid _ (role, m) Hall) as [Hv Hv'].
  unfold append_message. rewrite Hlist.
  match goal with
  | |- context [Ok ?s = Ok _] => set (self' := s)
  end.
  destruct (process_single_conv (fields self) flag Hstyle Hv) as [spans E].
  destruct (process_single_conv (fields self') flag Hstyle Hv') as [spans' E'].
  exists self'. do 2 eexists.
  split; [reflexivity|]. split; [exact E|]. split; [exact E'|].
  cbn [conv]. now apply render_single_snoc.
Qed.

Lemma append_message_extends_prompt_witness :
  let self := copy conv_v1 in
  exists self' r r',
    append_message self "Human" (MStr "Hi") = Ok self' /\
    process (fields self) true = Ok r /\
    process (fields self') true = Ok r' /\
    conv r' = conv r ++ segment (fields self) true ("Human", MStr "Hi").
Proof.
  exact (append_message_extends_prompt (copy conv_v1) "Human" (MStr "Hi") true
           eq_refl eq_refl eq_refl).
Defined.

(* ================================================================== *)
(** * Further properties: sampling *)
(* ================================================================== *)

Import Sampler.

Section SortIndices.
Local Open Scope Q_scope.

Lemma combine_seq_indexed (l pre : list Q) :
  Forall (fun vi => nth_error (pre ++ l) (snd vi) = Some (fst vi))
    (combine l (seq (length pre) (length l))).
Proof.
  revert pre; induction l as [|x t IH]; intro pre; cbn [combine seq length];
    constructor.
  - cbn [fst snd]. rewrite nth_error_app2 by lia. now rewrite Nat.sub_diag.
  - specialize (IH (pre ++ [x])%list).
    rewrite <- app_assoc, List.length_app in IH. cbn [app length] in IH.
    now rewrite Nat.add_1_r in IH.
Qed.

Lemma map_snd_combine_seq (l : list Q) (start : nat) :
  map snd (combine l (seq start (length l))) = seq start (length l).
Proof.
  revert start; induction l as [|x t IH]; intro start; cbn; [reflexivity|].
  now rewrite IH.
Qed.

(** Each sorted value sits, in [probs], at the index sorted with it. *)
Lemma sort_desc_indexed (probs : list Q) :
  Forall (fun vi => nth_error probs (snd vi) = Some (fst vi)) (sort_desc probs).
Proof.
  eapply Permutation_Forall.
  - apply Permutation_sym, fold_insert_desc_perm.
  - apply (combine_seq_indexed probs []).
Qed.

Lemma sort_desc_length (probs : list Q) : length (sort_desc probs) = length probs.
Proof.
  rewrite <- (length_map fst). apply Permutation_length, sort_desc_perm.
Qed.

End SortIndices.

(** X8: [torch.sort] as modelled returns, with the descending values,
    a permutation of the positions [0 .. n-1], and each returned
    position holds in [probs] exactly the value sorted with it, so that
    gathering through [probs_idx] maps a sorted position back to its
    vocabulary id. *)
Theorem sort_desc_gathers_back (probs : list Q) :
  Permutation (map snd (sort_desc probs)) (seq 0 (length probs)) /\
  (forall j, (j < length probs)%nat ->
     nth_error probs (nth j (map snd (sort_desc probs)) O)
     = Some (nth j (map fst (sort_desc probs)) 0%Q)) /\
  Sorted (fun a b => b <= a)%Q (map fst (sort_desc probs)).
Proof.
  split; [|split].
  - unfold sort_desc.
    rewrite <- (map_snd_combine_seq probs 0) at 2.
    apply Permutation_map, fold_insert_desc_perm.
  - intros j Hj. pose proof (sort_desc_indexed probs) as H.
    rewrite Forall_forall in H.
    rewrite <- (sort_desc_length probs) in Hj.
    specialize (H (nth j (sort_desc probs) (0%Q, O)) (nth_In _ _ Hj)).
    rewrite <- (map_nth snd), <- (map_nth fst) in H. exact H.
  - apply sort_desc_values_sorted.
Qed.

Section SamplingHelpers.
Local Open Scope Q_scope.

Lemma sorted_head_bounds (x0 : Q) (rest : list Q) :
  Sorted (fun a b => b <= a) (x0 :: rest) -> Forall (fun x => x <= x0) (x0 :: rest).
Proof.
  intro Hs. apply Sorted_StronglySorted in Hs.
  - inversion Hs; subst. constructor; [lra | assumption].
  - intros a b c Hab Hbc. lra.
Qed.

Lemma qsum_bounded (l : list Q) (x0 : Q) :
  Forall (fun x => x <= x0) l -> x0 <= 0 -> qsum l <= 0.
Proof.
  induction 1 as [|x t Hx Ht IH]; intro H0; cbn [qsum]; [lra|].
  specialize (IH H0). lra.
Qed.

(** In a distribution the largest entry is positive. *)
Lemma sorted_head_positive (probs : list Q) (x0 : Q) (rest : list Q) :
  qsum probs == 1 ->
  map fst (sort_desc probs) = x0 :: rest ->
  0 < x0.
Proof.
  intros Hsum Hl.
  pose proof (sort_desc_values_sorted probs) as Hs. rewrite Hl in Hs.
  pose proof (qsum_perm _ _ (sort_desc_perm probs)) as Hq. rewrite Hl in Hq.
  destruct (Qlt_le_dec 0 x0) as [H|H]; [exact H|].
  pose proof (qsum_bounded _ _ (sorted_head_bounds _ _ Hs) H). lra.
Qed.

Lemma nonneg_firstn (l : list Q) (k : nat) : nonneg l -> nonneg (firstn k l).
Proof.
  unfold nonneg. intro H; revert k.
  induction H as [|x t Hx Ht IH]; intros [|k]; cbn [firstn];
    constructor; [exact Hx | apply IH].
Qed.

Lemma nonneg_firstn_zeros (l : list Q) (k m : nat) :
  nonneg l -> nonneg (firstn k l ++ repeat 0 m).
Proof.
  intro H. apply Forall_app. split.
  - now apply nonneg_firstn.
  - apply Forall_forall. intros x Hx. apply repeat_spec in Hx. subst. lra.
Qed.

Lemma sorted_entry_at (probs : list Q) (j : nat) :
  (j < length probs)%nat ->
  nth_error probs (nth j (map snd (sort_desc probs)) O)
  = Some (nth j (map fst (sort_desc probs)) 0).
Proof.
  intro Hj. pose proof (sort_desc_indexed probs) as H.
  rewrite Forall_forall in H.
  rewrite <- (sort_desc_length probs) in Hj.
  specialize (H (nth j (sort_desc probs) (0, O)) (nth_In _ _ Hj)).
  rewrite <- (map_nth snd), <- (map_nth fst) in H. exact H.
Qed.

Section RoundedMore.
Variable dtype acc : format.
Hypothesis Hacc : wider acc dtype.




(** The sum taken by [div_] is at least what it starts from. *)
Lemma fold_step_ge (l : list Q) :
  forall a : Q,
    0 <= a -> representable acc a -> nonneg l ->
    a <= fold_left (fun a x => round acc (a + x)) l a.
Proof.
  induction l as [|x t IH]; intros a Ha Hr Hn; cbn [fold_left]; [lra|].
  inversion Hn as [|? ? Hx Hn']; subst.
  apply Qle_trans with (round acc (a + x)); [now apply step_ge_acc|].
  apply IH; [now apply step_nonneg | now apply step_representable | exact Hn'].
Qed.

End RoundedMore.

End SamplingHelpers.

Section NucleusEdges.
Local Open Scope Q_scope.
Variable dtype acc : format.
Hypothesis Hacc : wider acc dtype.

Lemma nucleus_nonneg (probs : list Q) (p : Q) :
  Forall (representable dtype) probs -> nonneg probs ->
  nonneg (nucleus dtype acc probs p) /\
  length (nucleus dtype acc probs p) = length probs.
Proof.
  intros Hr Hn.
  destruct (nucleus_shape dtype acc Hacc probs p Hr Hn) as (Hk & Hshape & _).
  destruct (sorted_values dtype probs Hr Hn) as (_ & Hnl & _).
  rewrite Hshape. split.
  - now apply nonneg_firstn_zeros.
  - rewrite List.length_app, length_firstn, repeat_length.
    rewrite length_map, sort_desc_length in *. lia.
Qed.

(** The divisor of line 365 is at least the largest probability. *)
Lemma tsum_ge_head (probs : list Q) (p x0 : Q) (rest : list Q) :
  Forall (representable dtype) probs -> nonneg probs -> 0 <= p ->
  map fst (sort_desc probs) = x0 :: rest ->
  x0 <= tsum dtype acc (nucleus dtype acc probs p).
Proof.
  intros Hr Hn Hp El.
  assert (probs <> []) as Hne by (intros ->; discriminate).
  pose proof (first_kept dtype acc Hacc probs p Hr Hn Hne Hp) as Hk1.
  destruct (nucleus_shape dtype acc Hacc probs p Hr Hn) as (Hk & Hshape & _).
  destruct (sorted_values dtype probs Hr Hn) as (Hrl & Hnl & _).
  destruct (nucleus_nonneg probs p Hr Hn) as [Hnn _].
  rewrite Hshape in Hnn |- *. rewrite El in *.
  destruct (kept_count dtype acc probs p) as [|k]; [lia|].
  cbn [firstn app] in Hnn |- *. unfold tsum. cbn [fold_left].
  inversion Hnl as [|? ? Hx0 _]; subst. inversion Hrl as [|? ? Hrx0 _]; subst.
  inversion Hnn as [|? ? _ Hnn']; subst.
  pose proof (step_ge_entry dtype acc Hacc 0 x0 (Qle_refl 0) Hx0 Hrx0) as H1.
  pose proof (fold_step_ge acc _ (round acc (0 + x0))
                (step_nonneg acc 0 x0 (Qle_refl 0) Hx0)
                (step_representable acc 0 x0 (Qle_refl 0) Hx0) Hnn') as H2.
  unfold representable in Hrx0. cbn beta in Hx0.
  apply Qle_trans with (round dtype x0); [lra|].
  apply round_mono; [exact Hx0|].
  exact (Qle_trans _ _ _ H1 H2).
Qed.

Lemma fdiv_zero (s : Q) : fdiv dtype 0 s = 0.
Proof. unfold fdiv. apply round_zero. unfold Qdiv. ring. Qed.

Lemma fdiv_nonneg (x s : Q) : 0 <= x -> 0 < s -> 0 <= fdiv dtype x s.
Proof.
  intros Hx Hs. unfold fdiv. apply round_nonneg.
  apply Qle_shift_div_l; [exact Hs | lra].
Qed.

Lemma renormalised_nth (probs : list Q) (p : Q) (j : nat) :
  nth j (renormalised dtype acc probs p) 0
  = fdiv dtype (nth j (nucleus dtype acc probs p) 0) (tsum dtype acc (nucleus dtype acc probs p)).
Proof.
  unfold renormalised.
  rewrite <- (fdiv_zero (tsum dtype acc (nucleus dtype acc probs p))) at 1.
  apply (map_nth (fun x => fdiv dtype x (tsum dtype acc (nucleus dtype acc probs p)))).
Qed.

End NucleusEdges.

(** X9: for a distribution held in a floating-point tensor and a
    threshold that is not negative, the division of line 365 is by a
    positive number, at least the largest probability, and the weights
    handed to [torch.multinomial] are non-negative, one per vocabulary
    position, and zero at every filtered position. *)
Theorem renormalised_weights_valid (dtype acc : format) (probs : list Q) (p : Q)
    (Hacc : wider acc dtype)
    (Hvalues : Forall (representable dtype) probs)
    (Hnonneg : nonneg probs)
    (Hsum : (qsum probs == 1)%Q)
    (Hp : (0 <= p)%Q) :
  let largest := nth 0 (map fst (sort_desc probs)) 0%Q in
  (0 < largest)%Q /\
  (largest <= tsum dtype acc (nucleus dtype acc probs p))%Q /\
  nonneg (renormalised dtype acc probs p) /\
  length (renormalised dtype acc probs p) = length probs /\
  (forall j, (kept_count dtype acc probs p <= j)%nat ->
     nth j (renormalised dtype acc probs p) 0%Q = 0%Q).
Proof.
  intro largest.
  destruct (nucleus_nonneg dtype acc Hacc probs p Hvalues Hnonneg) as [Hnn Hlen].
  destruct (nucleus_shape dtype acc Hacc probs p Hvalues Hnonneg) as (Hk & Hshape & _).
  destruct (map fst (sort_desc probs)) as [|x0 rest] eqn:El.
  { pose proof (qsum_perm _ _ (sort_desc_perm probs)) as Hq.
    rewrite El in Hq. cbn in Hq. lra. }
  pose proof (sorted_head_positive probs x0 rest Hsum El) as Hx0.
  pose proof (tsum_ge_head dtype acc Hacc probs p x0 rest Hvalues Hnonneg Hp El) as Hs.
  subst largest. cbn [nth].
  split; [exact Hx0|]. split; [exact Hs|]. split; [|split].
  - unfold renormalised, nonneg in *. rewrite Forall_map.
    eapply Forall_impl; [|exact Hnn].
    intros x Hx. cbn beta in Hx |- *. apply fdiv_nonneg; lra.
  - unfold renormalised. now rewrite length_map.
  - intros j Hj. rewrite renormalised_nth.
    assert (nth j (nucleus dtype acc probs p) 0%Q = 0%Q) as ->; [|apply fdiv_zero].
    rewrite Hshape.
    destruct (Nat.lt_ge_cases j (length (x0 :: rest))) as [Hlt|Hge].
    + rewrite app_nth2 by (rewrite length_firstn; lia). apply nth_repeat.
    + apply nth_overflow.
      rewrite List.length_app, length_firstn, repeat_length. lia.
Qed.

Lemma renormalised_weights_valid_witness :
  let dtype := float16 in
  let acc := float32 in
  let probs := [1 # 8; 5 # 8; 2 # 8]%Q in
  let p := (1 # 2)%Q in
  let largest := nth 0 (map fst (sort_desc probs)) 0%Q in
  (0 < largest)%Q /\
  (largest <= tsum dtype acc (nucleus dtype acc probs p))%Q /\
  nonneg (renormalised dtype acc probs p) /\
  length (renormalised dtype acc probs p) = length probs /\
  (forall j, (kept_count dtype acc probs p <= j)%nat ->
     nth j (renormalised dtype acc probs p) 0%Q = 0%Q).
Proof.
  apply (renormalised_weights_valid float16 float32 [1 # 8; 5 # 8; 2 # 8]%Q (1 # 2)%Q).
  - split; vm_compute; discriminate.
  - repeat constructor; vm_compute; reflexivity.
  - repeat constructor; discriminate.
  - reflexivity.
  - discriminate.
Defined.



(** The bound of X10 is the computed sum, not the exact one: for this
    float32 distribution, whose entries sum to exactly 1, the running
    sum accumulated in float32 ends above 1 and [top_p = 1] filters the
    last entry, while with the sum accumulated in float64 every entry
    is kept. *)
Lemma nucleus_masks_at_one :
  let probs :=
    ([1 # 4; 1 # 4] ++ repeat (8388613 # 134217728) 7
     ++ [4194285 # 67108864; 3 # 134217728])%list%Q in
  Forall (representable float32) probs /\
  (qsum probs == 1)%Q /\
  length probs = 11%nat /\
  last (cumsum float32 float32 (map fst (sort_desc probs))) 0%Q
    = (8388609 # 8388608)%Q /\
  kept_count float32 float32 probs 1 = 10%nat /\
  kept_count float32 float64 probs 1 = 11%nat.
Proof.
  cbv zeta. split; [repeat constructor; vm_compute; reflexivity|].
  repeat split; vm_compute; reflexivity.
Qed.

(** X11: with [top_p = 0] (the lower end of the demo's slider) only the
    largest entry survives the filter, whatever the dtype, so that
    sampling is greedy; no entry of [probs] exceeds the survivor. *)
Theorem nucleus_greedy_at_zero (dtype acc : format) (probs : list Q)
    (x0 : Q) (rest : list Q)
    (Hacc : wider acc dtype)
    (Hvalues : Forall (representable dtype) probs)
    (Hnonneg : nonneg probs)
    (Hsorted : map fst (sort_desc probs) = x0 :: rest)
    (Hpos : (0 < x0)%Q) :
  kept_count dtype acc probs 0 = 1%nat /\
  nucleus dtype acc probs 0 = x0 :: repeat 0%Q (length rest) /\
  Forall (fun x => x <= x0)%Q probs.
Proof.
  destruct (nucleus_shape dtype acc Hacc probs 0%Q Hvalues Hnonneg) as (Hk & Hshape & Hiff).
  destruct (sorted_values dtype probs Hvalues Hnonneg) as (Hrl & Hnl & Hsl).
  assert (probs <> []) as Hne by (intros ->; discriminate).
  pose proof (first_kept dtype acc Hacc probs 0%Q Hvalues Hnonneg Hne (Qle_refl 0)) as Hk1.
  rewrite Hsorted in *. cbn [length] in *.
  assert (kept_count dtype acc probs 0 = 1%nat) as E.
  { destruct (kept_count dtype acc probs 0) as [|[|k]]; [lia | reflexivity | exfalso].
    destruct rest as [|y rest']; [cbn [length] in Hk; lia|].
    assert (1 < length (x0 :: y :: rest'))%nat as H1 by (cbn [length]; lia).
    pose proof (proj1 (Hiff 1%nat H1) ltac:(lia)) as Hd.
    rewrite (round_zero dtype 0%Q (Qeq_refl 0)) in Hd.
    cbn [cumsum cumsum_from nth] in Hd.
    inversion Hnl as [|? ? Hx0 Hnl']; subst. inversion Hnl' as [|? ? Hy _]; subst.
    inversion Hrl as [|? ? Hrx0 Hrl']; subst. inversion Hrl' as [|? ? Hry _]; subst.
    inversion Hsl as [|? ? _ Hhd]; subst. inversion Hhd as [|? ? Hyx]; subst.
    assert (0 <= x0)%Q as Hx0' by exact Hx0. assert (0 <= y)%Q as Hy' by exact Hy.
    pose proof (wider_representable acc dtype x0 Hacc Hx0' Hrx0) as Hax0.
    pose proof (representable_double dtype y Hy' Hry) as Hdy.
    assert (0 <= y + y)%Q as Hyy by lra.
    pose proof (wider_representable acc dtype (y + y)%Q Hacc Hyy Hdy) as Hay.
    unfold representable in Hrx0, Hry, Hax0, Hdy, Hay.
    assert (round acc (0 + x0) == x0)%Q as E0.
    { rewrite (round_comp acc (0 + x0)%Q x0) by lra. exact Hax0. }
    destruct (Qeq_dec y 0) as [Ey|Hy0].
    - (* nothing to subtract: the difference is the largest entry *)
      assert (round acc (round acc (0 + x0) + y) == x0)%Q as E1.
      { rewrite (round_comp acc _ x0); [exact Hax0|]. rewrite E0. lra. }
      assert (round dtype (round acc (round acc (0 + x0) + y)) == x0)%Q as E2.
      { rewrite (round_comp dtype _ x0 E1). exact Hrx0. }
      assert (fsub dtype (round dtype (round acc (round acc (0 + x0) + y))) y == x0)%Q
        as Ed.
      { unfold fsub. rewrite (round_comp dtype _ x0); [exact Hrx0|]. rewrite E2. lra. }
      lra.
    - (* the running sum is at least twice the second entry *)
      assert (0 < y)%Q as Hypos by lra.
      assert (y + y <= round acc (round acc (0 + x0) + y))%Q as H2.
      { apply Qle_trans with (round acc (y + y)); [lra|].
        apply round_mono; [lra|]. rewrite E0. lra. }
      assert (y + y <= round dtype (round acc (round acc (0 + x0) + y)))%Q as H3.
      { apply Qle_trans with (round dtype (y + y)); [lra|].
        apply round_mono; [lra | exact H2]. }
      assert (y <= fsub dtype (round dtype (round acc (round acc (0 + x0) + y))) y)%Q
        as H4.
      { apply Qle_trans with (round dtype y); [lra|].
        unfold fsub. apply round_mono; lra. }
      lra. }
  split; [exact E|]. split.
  - rewrite Hshape, E. cbn. now rewrite Nat.sub_0_r.
  - eapply Permutation_Forall; [|exact (sorted_head_bounds _ _ Hsl)].
    rewrite <- Hsorted. apply sort_desc_perm.
Qed.

Lemma nucleus_greedy_at_zero_witness :
  let probs := [10066330 # 33554432; 13421773 # 33554432; 10066329 # 33554432]%Q in
  kept_count float32 float64 probs 0 = 1%nat /\
  nucleus float32 float64 probs 0 = (13421773 # 33554432)%Q :: repeat 0%Q 2 /\
  Forall (fun x => x <= 13421773 # 33554432)%Q probs.
Proof.
  apply (nucleus_greedy_at_zero float32 float64
           [10066330 # 33554432; 13421773 # 33554432; 10066329 # 33554432]%Q
           (13421773 # 33554432)%Q
           [10066330 # 33554432; 10066329 # 33554432]%Q).
  - split; vm_compute; discriminate.
  - repeat constructor; vm_compute; reflexivity.
  - repeat constructor; discriminate.
  - reflexivity.
  - reflexivity.
Defined.

(** X12: when [torch.multinomial] draws a position of positive weight
    (it never draws one of weight zero), [sample_top_p] returns a valid
    vocabulary id that lies in the nucleus: the drawn position is among
    the kept ones, and the id's own probability in [probs] is the sorted
    value at that position, which is positive. *)
Theorem sample_top_p_in_nucleus (dtype acc : format) (multinomial : list Q -> nat)
    (probs : list Q) (p : Q)
    (Hacc : wider acc dtype)
    (Hvalues : Forall (representable dtype) probs)
    (Hnonneg : nonneg probs)
    (Hdrawn : (0 < nth (multinomial (renormalised dtype acc probs p))
                     (renormalised dtype acc probs p) 0)%Q) :
  let j := multinomial (renormalised dtype acc probs p) in
  let next_token := sample_top_p dtype acc multinomial probs p in
  (j < kept_count dtype acc probs p)%nat /\
  (next_token < length probs)%nat /\
  nth_error probs next_token = Some (nth j (map fst (sort_desc probs)) 0%Q) /\
  (0 < nth j (map fst (sort_desc probs)) 0)%Q.
Proof.
  intros j next_token.
  change next_token with (nth j (map snd (sort_desc probs)) O).
  fold j in Hdrawn.
  destruct (nucleus_shape dtype acc Hacc probs p Hvalues Hnonneg) as (Hk & Hshape & _).
  destruct (nucleus_nonneg dtype acc Hacc probs p Hvalues Hnonneg) as [Hnn Hlen].
  rewrite length_map, sort_desc_length in Hk.
  rewrite renormalised_nth in Hdrawn.
  assert (0 < nth j (nucleus dtype acc probs p) 0)%Q as Hentry.
  { assert (0 <= nth j (nucleus dtype acc probs p) 0)%Q as H0.
    { destruct (Nat.lt_ge_cases j (length (nucleus dtype acc probs p))) as [H|H].
      - unfold nonneg in Hnn. rewrite Forall_forall in Hnn. apply Hnn, nth_In, H.
      - rewrite nth_overflow by exact H. lra. }
    destruct (Qeq_dec (nth j (nucleus dtype acc probs p) 0) 0)%Q as [E|Hne]; [|lra].
    exfalso. unfold fdiv in Hdrawn.
    rewrite (round_zero dtype) in Hdrawn; [lra|]. rewrite E. unfold Qdiv. ring. }
  assert (j < length probs)%nat as Hj.
  { destruct (Nat.lt_ge_cases j (length probs)) as [H|H]; [exact H|]. exfalso.
    rewrite nth_overflow in Hentry; [lra|]. rewrite Hlen. exact H. }
  rewrite Hshape in Hentry.
  assert (j < kept_count dtype acc probs p)%nat as Hkept.
  { destruct (Nat.lt_ge_cases j (kept_count dtype acc probs p)) as [H|H]; [exact H|]. exfalso.
    rewrite app_nth2 in Hentry
      by (rewrite length_firstn, length_map, sort_desc_length; lia).
    rewrite nth_repeat in Hentry. lra. }
  rewrite app_nth1 in Hentry
    by (rewrite length_firstn, length_map, sort_desc_length; lia).
  rewrite nth_firstn in Hentry.
  replace (j <? kept_count dtype acc probs p)%nat with true in Hentry
    by (symmetry; apply Nat.ltb_lt; exact Hkept).
  pose proof (sorted_entry_at probs j Hj) as Hat.
  split; [exact Hkept|]. split; [|split; [exact Hat | exact Hentry]].
  apply nth_error_Some. rewrite Hat. discriminate.
Qed.

Lemma sample_top_p_in_nucleus_witness :
  let probs := [10066330 # 33554432; 13421773 # 33554432; 10066329 # 33554432]%Q in
  let multinomial := fun _ : list Q => 1%nat in
  let j := multinomial (renormalised float32 float64 probs (7 # 10)) in
  let next_token := sample_top_p float32 float64 multinomial probs (7 # 10) in
  (j < kept_count float32 float64 probs (7 # 10))%nat /\
  (next_token < length probs)%nat /\
  nth_error probs next_token = Some (nth j (map fst (sort_desc probs)) 0%Q) /\
  (0 < nth j (map fst (sort_desc probs)) 0)%Q.
Proof.
  apply (sample_top_p_in_nucleus float32 float64 (fun _ => 1%nat)
           [10066330 # 33554432; 13421773 # 33554432; 10066329 # 33554432]%Q (7 # 10)%Q).
  - split; vm_compute; discriminate.
  - repeat constructor; vm_compute; reflexivity.
  - repeat constructor; discriminate.
  - vm_compute. reflexivity.
Defined.

(* ================================================================== *)
(** * Further properties: the streaming decode loop *)
(* ================================================================== *)

Lemma lset_middle (a b : list Z) (x v : Z) :
  lset (a ++ x :: b) (length a) v = (a ++ v :: b)%list.
Proof.
  induction a as [|y a IH]; cbn; [reflexivity | now rewrite IH].
Qed.

Lemma lslice_middle (a b c : list Z) :
  lslice (a ++ b ++ c) (Z.of_nat (length a)) (Z.of_nat (length a + length b)) = b.
Proof.
  unfold lslice, clamp. rewrite !List.length_app.
  destruct (Z.of_nat (length a) <? 0) eqn:E1; [apply Z.ltb_lt in E1; lia|].
  destruct (Z.of_nat (length a + length b) <? 0) eqn:E2; [apply Z.ltb_lt in E2; lia|].
  rewrite !Z.min_l by lia.
  replace (Z.to_nat (Z.of_nat (length a + length b) - Z.of_nat (length a)))
    with (length b) by lia.
  rewrite Nat2Z.id, skipn_app, skipn_all, Nat.sub_diag. cbn [app skipn].
  rewrite firstn_app, firstn_all, Nat.sub_diag. cbn [firstn]. apply app_nil_r.
Qed.

Lemma first_stop_none (generated : string) (symbols : list string) :
  first_stop generated symbols = None ->
  Forall (fun symbol => find generated symbol = -1) symbols.
Proof.
  induction symbols as [|s more IH]; cbn [first_stop]; intro H; constructor.
  - destruct (find generated s =? -1) eqn:E; [now apply Z.eqb_eq | discriminate].
  - destruct (find generated s =? -1); [now apply IH | discriminate].
Qed.

Section DecodeLoop.
Variable encode : string -> list Z.
Variable decode : list Z -> string.
Variable eos_id : Z.
Variable args_max_seq_len : Z.
Variable image_words : Z.
Variable model_state : Type.
Variable image_t : Type.
Variable next_token_of :
  model_state -> list Z -> Z -> option image_t -> result (Z * model_state).

Let loop' := loop decode eos_id model_state image_t next_token_of.

Lemma loop_length (image : option image_t) (stops : list string) (start_pos : Z)
    (n : nat) :
  forall cur_pos m tokens prev_pos generate_until,
    (length (iterated (loop' image stops start_pos n cur_pos m tokens prev_pos
                         generate_until)) <= n)%nat.
Proof.
  unfold loop'.
  induction n as [|n IH]; intros cur_pos m tokens prev_pos generate_until;
    cbn [loop]; [cbn; lia|].
  destruct (next_token_of m _ prev_pos _) as [[next_token m']|e]; [|cbn; lia].
  destruct (next_token =? eos_id); [cbn; lia|].
  destruct (first_stop _ stops); [cbn; lia|].
  cbn [iterated length]. specialize (IH (cur_pos + 1) m'). 
  apply le_n_S. apply IH.
Qed.

Lemma loop_clean (image : option image_t) (stops : list string) (start_pos : Z)
    (n : nat) :
  forall cur_pos m tokens prev_pos generate_until,
    Forall (fun d => Forall (fun symbol => find (text d) symbol = -1) stops)
      (iterated (loop' image stops start_pos n cur_pos m tokens prev_pos
                   generate_until)).
Proof.
  unfold loop'.
  induction n as [|n IH]; intros cur_pos m tokens prev_pos generate_until;
    cbn [loop]; [constructor|].
  destruct (next_token_of m _ prev_pos _) as [[next_token m']|e]; [|constructor].
  destruct (next_token =? eos_id); [constructor|].
  destruct (first_stop _ stops) eqn:E; [constructor|].
  cbn [iterated]. constructor; [|apply IH].
  cbn [text]. now apply first_stop_none.
Qed.

(** The loop entered with [done] tokens generated behind the prompt
    [pre]: every item re-decodes the whole generated window, which grows
    by one token, never the end-of-sequence one, from item to item. *)
Lemma loop_redecodes (image : option image_t) (stops : list string) (pre : list Z)
    (n : nat) :
  forall (done zeros : list Z) (m : model_state) (prev_pos : Z),
    (n <= length zeros)%nat ->
    exists more : list Z,
      Forall (fun t => t <> eos_id) more /\
      iterated (loop' image stops (Z.of_nat (length pre)) n
                  (Z.of_nat (length pre + length done)) m
                  (pre ++ done ++ zeros) prev_pos
                  (Z.of_nat (length pre + length done)))
      = map (fun k => {| text := decode (done ++ firstn (S k) more);
                         end_of_content := false |})
          (seq 0 (length more)).
Proof.
  unfold loop'.
  induction n as [|n IH]; intros done zeros m prev_pos Hroom; cbn [loop].
  - exists []. split; [constructor | reflexivity].
  - destruct (next_token_of m _ prev_pos _) as [[next_token m']|e];
      [|exists []; split; [constructor | reflexivity]].
    destruct (next_token =? eos_id) eqn:Eeos;
      [exists []; split; [constructor | reflexivity]|].
    destruct zeros as [|z zeros]; [cbn in Hroom; lia|].
    replace (Z.to_nat (Z.of_nat (length pre + length done)))
      with (length (pre ++ done)) by (rewrite List.length_app; lia).
    rewrite (app_assoc pre done (z :: zeros)), lset_middle.
    replace ((pre ++ done) ++ next_token :: zeros)%list
      with (pre ++ (done ++ [next_token]) ++ zeros)%list
      by (rewrite <- !app_assoc; reflexivity).
    replace (Z.of_nat (length pre + length done) + 1)
      with (Z.of_nat (length pre + length (done ++ [next_token])))
      by (rewrite List.length_app; cbn [length]; lia).
    rewrite lslice_middle.
    destruct (first_stop _ stops);
      [exists []; split; [constructor | reflexivity]|].
    destruct (IH (done ++ [next_token])%list zeros m'
                (Z.of_nat (length pre + length done))) as (more & Hmore & E);
      [cbn [length] in Hroom; lia|].
    exists (next_token :: more). split.
    + constructor; [now apply Z.eqb_neq | exact Hmore].
    + cbn [iterated length seq map firstn]. f_equal.
      rewrite E, <- seq_shift, map_map. apply map_ext. intro k.
      cbn [firstn]. now rewrite <- app_assoc.
Qed.

Lemma init_layout (prompt : string) (image : option image_t) (max_gen_len : Z)
    (s : decode_setup) :
  init encode args_max_seq_len image_words image_t prompt image max_gen_len = Ok s ->
  prompt_size s = Z.of_nat (length (prompt_tokens s)) /\
  total_len s = Z.min (window args_max_seq_len image_words image_t image)
                  (max_gen_len + prompt_size s) /\
  (Z.to_nat (total_len s - prompt_size s) = O \/
   tokens0 s = (prompt_tokens s
                ++ repeat 0 (Z.to_nat (total_len s - prompt_size s)))%list).
Proof.
  unfold init. 
  set (kept := lslice_from (encode prompt) _).
  set (total := Z.min _ _).
  destruct (total <? 0) eqn:E; [discriminate|]. apply Z.ltb_ge in E.
  unfold assign_prefix. rewrite repeat_length.
  destruct (length kept =? Nat.min (length kept) (Z.to_nat total))%nat eqn:Ek.
  - apply Nat.eqb_eq in Ek. cbn [bind]. intro H. injection H as <-.
    cbn [prompt_size total_len tokens0 prompt_tokens].
    split; [reflexivity|]. split; [reflexivity|]. right. f_equal.
    assert (forall k n, (k <= n)%nat -> skipn k (repeat 0 n) = repeat 0 (n - k)) as Hs.
    { clear. induction k as [|k IH]; intros [|n] H; cbn; try reflexivity; try lia.
      apply IH. lia. }
    rewrite Hs by lia. f_equal. lia.
  - apply Nat.eqb_neq in Ek.
    destruct (length kept =? 1)%nat eqn:E1; [|discriminate].
    apply Nat.eqb_eq in E1. cbn [bind]. intro H. injection H as <-.
    cbn [prompt_size total_len tokens0 prompt_tokens].
    split; [reflexivity|]. split; [reflexivity|]. left. lia.
Qed.

(** X13: whatever the model, the prompt and the bounds, [stream_generate]
    yields at most [max_gen_len] items (none when [max_gen_len <= 0]),
    and no yielded text contains any of the additional stop symbols. *)
Theorem stream_generate_bounded_and_clean (m : model_state) (prompt : string)
    (image : option image_t) (max_gen_len : Z) (stops : list string) :
  let g := stream_generate encode decode eos_id args_max_seq_len image_words
             model_state image_t next_token_of m prompt image max_gen_len stops in
  (Z.of_nat (length (iterated g)) <= Z.max 0 max_gen_len) /\
  Forall (fun d => Forall (fun symbol => find (text d) symbol = -1) stops)
    (iterated g).
Proof.
  intro g. unfold g, stream_generate.
  destruct (init _ _ _ _ _ _ _) as [s|e] eqn:E; [|split; [cbn; lia | constructor]].
  destruct (init_layout _ _ _ _ E) as (_ & Htotal & _).
  split; [|apply loop_clean].
  pose proof (loop_length image stops (prompt_size s)
                (Z.to_nat (total_len s - prompt_size s)) (prompt_size s) m
                (tokens0 s) 0 (prompt_size s)) as H.
  unfold loop' in H. lia.
Qed.

(** X14: the items [stream_generate] yields re-decode a window of
    generated tokens that starts right after the prompt and grows by
    exactly one token per item; the end-of-sequence id is never part of
    it: item [k] is [decode] of the first [k + 1] generated tokens. *)
Theorem stream_generate_redecodes (m : model_state) (prompt : string)
    (image : option image_t) (max_gen_len : Z) (stops : list string) :
  exists generated : list Z,
    Forall (fun t => t <> eos_id) generated /\
    iterated (stream_generate encode decode eos_id args_max_seq_len image_words
                model_state image_t next_token_of m prompt image max_gen_len stops)
    = map (fun k => {| text := decode (firstn (S k) generated);
                       end_of_content := false |})
        (seq 0 (length generated)).
Proof.
  unfold stream_generate.
  destruct (init _ _ _ _ _ _ _) as [s|e] eqn:E;
    [|exists []; split; [constructor | reflexivity]].
  destruct (init_layout _ _ _ _ E) as (Hsize & _ & [Hzero|Htokens]).
  - rewrite Hzero. exists []. split; [constructor | reflexivity].
  - rewrite Htokens, Hsize.
    pose proof (loop_redecodes image stops (prompt_tokens s)
                  (Z.to_nat (total_len s - Z.of_nat (length (prompt_tokens s))))
                  [] (repeat 0 (Z.to_nat (total_len s
                                          - Z.of_nat (length (prompt_tokens s)))))
                  m 0) as H.
    cbn [app length] in H. rewrite Nat.add_0_r in H.
    rewrite Hsize in Htokens.
    apply H. rewrite repeat_length. lia.
Qed.

End DecodeLoop.

(* ================================================================== *)
(** * Further properties: batched generation *)
(* ================================================================== *)

Import Batch.

Lemma lset_length (l : list Z) (i : nat) (v : Z) : length (lset l i v) = length l.
Proof.
  revert i; induction l as [|x l IH]; intros [|i]; cbn; try reflexivity.
  now rewrite IH.
Qed.

Lemma lset_same (l : list Z) (i : nat) : lset l i (nth i l 0) = l.
Proof.
  revert i; induction l as [|x l IH]; intros [|i]; cbn; try reflexivity.
  now rewrite IH.
Qed.

Lemma firstn_lset_after (l : list Z) (i n : nat) (v : Z) :
  (n <= i)%nat -> firstn n (lset l i v) = firstn n l.
Proof.
  revert i n; induction l as [|x l IH]; intros [|i] [|n] H; cbn; try reflexivity;
    try lia.
  rewrite IH by lia. reflexivity.
Qed.

Lemma lslice_length_le (row : list Z) (k g : Z) :
  0 <= k -> 0 <= g -> Z.of_nat (length (lslice row k (k + g))) <= g.
Proof.
  intros Hk Hg. unfold lslice, clamp.
  destruct (k <? 0) eqn:E1; [apply Z.ltb_lt in E1; lia|].
  destruct (k + g <? 0) eqn:E2; [apply Z.ltb_lt in E2; lia|].
  rewrite length_firstn. lia.
Qed.

Lemma set_column_nth_from (tokens : list (list Z)) (cur : nat) (f : nat -> Z) :
  forall start k,
    (k < length tokens)%nat ->
    nth k (set_column tokens cur (map f (seq start (length tokens)))) []
    = lset (nth k tokens []) cur (f (start + k)%nat).
Proof.
  unfold set_column.
  induction tokens as [|row tokens IH]; intros start k Hk; cbn [length] in Hk; [lia|].
  cbn [length seq map combine fst snd]. destruct k as [|k]; cbn [nth].
  - now rewrite Nat.add_0_r.
  - rewrite IH by lia. now rewrite Nat.add_succ_r.
Qed.

Lemma set_column_nth (tokens : list (list Z)) (cur : nat) (f : nat -> Z) (k : nat) :
  (k < length tokens)%nat ->
  nth k (set_column tokens cur (map f (seq 0 (length tokens)))) []
  = lset (nth k tokens []) cur (f k).
Proof. intro Hk. now rewrite set_column_nth_from. Qed.

Lemma set_column_length (tokens : list (list Z)) (cur : nat) (f : nat -> Z) :
  length (set_column tokens cur (map f (seq 0 (length tokens)))) = length tokens.
Proof.
  unfold set_column.
  rewrite length_map, length_combine, length_map, length_seq. lia.
Qed.

Lemma nth_map_seq {A : Type} (g : nat -> A) (d : A) (n : nat) :
  forall start i, (i < n)%nat -> nth i (map g (seq start n)) d = g (start + i)%nat.
Proof.
  induction n as [|n IH]; intros start i Hi; [lia|].
  cbn [seq map]. destruct i as [|i]; cbn [nth].
  - now rewrite Nat.add_0_r.
  - rewrite IH by lia. now rewrite Nat.add_succ_r.
Qed.

Lemma mask_rows_nth (total : nat) (prompt_tokens : list (list Z)) (k cur : nat) :
  (k < length prompt_tokens)%nat -> (cur < total)%nat ->
  nth cur (nth k (mask_rows total prompt_tokens) []) false
  = (cur <? length (nth k prompt_tokens []))%nat.
Proof.
  intros Hk Hcur. unfold mask_rows.
  revert k Hk; induction prompt_tokens as [|t more IH]; intros k Hk;
    cbn [length] in Hk; [lia|].
  destruct k as [|k]; cbn [map nth]; [|apply IH; lia].
  now rewrite nth_map_seq.
Qed.

(** The rows [fill_rows] builds: as many as prompts, each of the full
    length, each starting with its prompt unless that prompt has been
    broadcast into a row of length zero. *)
Lemma fill_rows_ok (total : nat) (prompt_tokens rows : list (list Z)) :
  fill_rows total prompt_tokens = Ok rows ->
  length rows = length prompt_tokens /\
  forall k, (k < length prompt_tokens)%nat ->
    length (nth k rows []) = total /\
    ((total = O /\ length (nth k prompt_tokens []) = 1%nat) \/
     firstn (length (nth k prompt_tokens [])) (nth k rows [])
     = nth k prompt_tokens []).
Proof.
  revert rows; induction prompt_tokens as [|t more IH]; intros rows H.
  - cbn in H. injection H as <-. split; [reflexivity | cbn; lia].
  - cbn [fill_rows] in H. unfold assign_prefix in H. rewrite repeat_length in H.
    assert (forall row, length row = total ->
                        ((total = O /\ length t = 1%nat) \/ firstn (length t) row = t) ->
                        bind (fill_rows total more) (fun rs => Ok (row :: rs)) = Ok rows ->
                        length rows = length (t :: more) /\
                        forall k, (k < length (t :: more))%nat ->
                          length (nth k rows []) = total /\
                          ((total = O /\ length (nth k (t :: more) []) = 1%nat) \/
                           firstn (length (nth k (t :: more) [])) (nth k rows [])
                           = nth k (t :: more) [])) as Hstep.
    { intros row Hlen Hpre Hb.
      destruct (fill_rows total more) as [rs|e]; [|discriminate].
      cbn in Hb. injection Hb as <-.
      destruct (IH rs eq_refl) as [Hl Hk].
      split; [cbn; now rewrite Hl|].
      intros [|k] Hlt; cbn [nth]; [split; assumption|].
      apply Hk. cbn in Hlt. lia. }
    destruct (length t =? Nat.min (length t) total)%nat eqn:E.
    + apply Nat.eqb_eq in E. cbn [bind] in H. apply (Hstep _) in H; [exact H| |].
      * rewrite List.length_app, length_skipn, repeat_length. lia.
      * right. rewrite firstn_app, firstn_all, Nat.sub_diag. cbn. apply app_nil_r.
    + apply Nat.eqb_neq in E.
      destruct (length t =? 1)%nat eqn:E1; [|discriminate].
      apply Nat.eqb_eq in E1. cbn [bind] in H.
      apply (Hstep _) in H; [exact H | apply repeat_length | left; lia].
Qed.

Section GenerateProps.
Variable encode : string -> list Z.
Variable decode : list Z -> string.
Variable eos_id : Z.
Variable args_max_seq_len : Z.
Variable args_max_batch_size : Z.
Variable image_words : Z.
Variable model_state : Type.
Variable image_t : Type.
Variable logits_t : Type.
Variable forward_inference :
  model_state -> list (list Z) -> Z -> option image_t -> result logits_t.
Variable next_tokens_of :
  model_state -> list (list Z) -> Z -> option image_t -> result (list Z * model_state).

Let window (images : option image_t) : Z :=
  match images with
  | Some _ => args_max_seq_len - image_words
  | None => args_max_seq_len
  end.

Lemma until_eos_clean (t : list Z) :
  ~ In eos_id (until_eos eos_id t) /\
  (length (until_eos eos_id t) <= length t)%nat.
Proof.
  induction t as [|x t [IH1 IH2]]; cbn [until_eos]; [split; [intros [] | lia]|].
  destruct (x =? eos_id) eqn:E; [split; [intros [] | cbn; lia]|].
  apply Z.eqb_neq in E. split.
  - intros [H|H]; [congruence | now apply IH1].
  - cbn [length]. lia.
Qed.

(** The loop keeps the number of rows, their length, and the first
    [len(prompt)] entries of every row. *)
Lemma generate_loop_keeps (images : option image_t) (bsz : Z)
    (prompt_tokens : list (list Z)) (total : nat) (n : nat) :
  forall (cur : nat) (m : model_state) (tokens rows : list (list Z)) (prev_pos : Z),
    (n = O \/ cur + n <= total)%nat ->
    length tokens = length prompt_tokens ->
    (forall k, (k < length prompt_tokens)%nat -> length (nth k tokens []) = total) ->
    generate_loop eos_id model_state image_t next_tokens_of images bsz
      (mask_rows total prompt_tokens) n (Z.of_nat cur) m tokens prev_pos = Ok rows ->
    length rows = length prompt_tokens /\
    forall k, (k < length prompt_tokens)%nat ->
      length (nth k rows []) = total /\
      firstn (length (nth k prompt_tokens [])) (nth k rows [])
      = firstn (length (nth k prompt_tokens [])) (nth k tokens []).
Proof.
  induction n as [|n IH]; intros cur m tokens rows prev_pos Hcur Hlen Hrow H.
  - cbn in H. injection H as <-. split; [exact Hlen|]. intros k Hk.
    split; [now apply Hrow | reflexivity].
  - cbn [generate_loop] in H.
    destruct (next_tokens_of m _ prev_pos _) as [[next_token m']|e]; [|discriminate].
    rewrite Nat2Z.id in H. unfold keep_prompt in H.
    set (f := fun k => if nth cur (nth k (mask_rows total prompt_tokens) []) false
                       then nth cur (nth k tokens []) 0
                       else nth k next_token 0) in H.
    set (tokens' := set_column tokens cur (map f (seq 0 (length tokens)))) in H.
    assert (length tokens' = length prompt_tokens) as Hlen'
        by (unfold tokens'; rewrite set_column_length; exact Hlen).
    assert (forall k, (k < length prompt_tokens)%nat ->
              length (nth k tokens' []) = total /\
              firstn (length (nth k prompt_tokens [])) (nth k tokens' [])
              = firstn (length (nth k prompt_tokens [])) (nth k tokens []))
      as Hstep.
    { intros k Hk. unfold tokens'.
      rewrite set_column_nth by (rewrite Hlen; exact Hk).
      split; [rewrite lset_length; now apply Hrow|].
      unfold f. rewrite mask_rows_nth by (try exact Hk; lia).
      destruct (cur <? length (nth k prompt_tokens []))%nat eqn:E.
      - now rewrite lset_same.
      - apply Nat.ltb_ge in E. now apply firstn_lset_after. }
    destruct ((bsz =? 1) && _).
    + injection H as <-. split; [exact Hlen' | exact Hstep].
    + replace (Z.of_nat cur + 1) with (Z.of_nat (S cur)) in H by lia.
      apply IH in H; [| lia | exact Hlen' | intros k Hk; now apply Hstep].
      destruct H as [Hl Hk]. split; [exact Hl|]. intros k Hlt.
      destruct (Hk k Hlt) as [H1 H2]. destruct (Hstep k Hlt) as [_ H3].
      split; [exact H1 | now rewrite H2].
Qed.

Lemma fold_min_le (l : list Z) (x : Z) : fold_left Z.min l x <= x.
Proof.
  revert x; induction l as [|y l IH]; intro x; cbn; [lia|].
  specialize (IH (Z.min x y)). lia.
Qed.

Lemma fold_min_nonneg (l : list Z) (x : Z) :
  0 <= x -> Forall (fun y => 0 <= y) l -> 0 <= fold_left Z.min l x.
Proof.
  revert x; induction l as [|y l IH]; intros x Hx Hl; cbn; [exact Hx|].
  inversion Hl; subst. apply IH; [lia | assumption].
Qed.

Lemma fold_max_ge (l : list Z) (x : Z) :
  x <= fold_left Z.max l x /\ Forall (fun y => y <= fold_left Z.max l x) l.
Proof.
  revert x; induction l as [|y l IH]; intro x; cbn; [split; [lia | constructor]|].
  destruct (IH (Z.max x y)) as [H1 H2]. split; [lia|].
  constructor; [lia | exact H2].
Qed.

Lemma py_max_ge (l : list Z) (hi : Z) :
  py_max l = Ok hi -> Forall (fun y => y <= hi) l.
Proof.
  destruct l as [|x more]; cbn; [discriminate|].
  intro H. injection H as <-.
  destruct (fold_max_ge more x) as [H1 H2]. now constructor.
Qed.

(** What a successful [setup] has built. *)
Lemma setup_ok (prompts : list string) (images : option image_t) (max_gen_len : Z)
    (s : batch_setup) :
  setup encode args_max_seq_len args_max_batch_size image_words image_t
    prompts images max_gen_len = Ok s ->
  batch_prompts s = map encode prompts /\
  batch_mask s = mask_rows (Z.to_nat (batch_total s)) (map encode prompts) /\
  fill_rows (Z.to_nat (batch_total s)) (map encode prompts) = Ok (batch_tokens s) /\
  0 <= batch_start s /\ 0 <= batch_total s /\
  (exists max_prompt_size,
     py_max (map (fun t => Z.of_nat (length t)) (map encode prompts))
     = Ok max_prompt_size /\
     batch_total s = Z.min (window images) (max_gen_len + max_prompt_size)).
Proof.
  unfold setup.
  destruct (negb (_ <=? args_max_batch_size)); [discriminate|].
  set (sizes := map (fun t => Z.of_nat (length t)) (map encode prompts)).
  destruct (py_min sizes) as [lo|e] eqn:Emin; [|discriminate].
  destruct (py_max sizes) as [hi|e] eqn:Emax; [|discriminate].
  cbn [bind]. fold (window images).
  destruct (Z.min (window images) (max_gen_len + hi) <? 0) eqn:E; [discriminate|].
  apply Z.ltb_ge in E.
  destruct (fill_rows _ (map encode prompts)) as [rows|e] eqn:Ef; [|discriminate].
  cbn [bind]. intro H. injection H as <-.
  cbn [batch_prompts batch_mask batch_tokens batch_start batch_total].
  repeat split; try assumption; try reflexivity.
  - unfold py_min in Emin. destruct sizes as [|x more] eqn:Es; [discriminate|].
    injection Emin as <-.
    assert (Forall (fun y => 0 <= y) (x :: more)) as Hn.
    { rewrite <- Es. unfold sizes. rewrite Forall_map.
      apply Forall_forall. intros. lia. }
    inversion Hn; subst. now apply fold_min_nonneg.
  - exists hi. split; reflexivity.
Qed.

(** X15: [generate] never overwrites a prompt: with a window of at
    least one position and [max_gen_len >= 0], the token matrix it ends
    with has one row per prompt and row [k] starts with the tokens of
    prompt [k], whatever the model sampled. *)
Theorem generate_keeps_prompts (m : model_state) (prompts : list string)
    (images : option image_t) (max_gen_len : Z) (rows : list (list Z))
    (Hwindow : 1 <= match images with
                    | Some _ => args_max_seq_len - image_words
                    | None => args_max_seq_len
                    end)
    (Hgen : 0 <= max_gen_len)
    (Hok : generate_rows encode eos_id args_max_seq_len args_max_batch_size
             image_words model_state image_t next_tokens_of m prompts images
             max_gen_len = Ok rows) :
  length rows = length prompts /\
  forall k, (k < length prompts)%nat ->
    firstn (length (encode (nth k prompts ""))) (nth k rows [])
    = encode (nth k prompts "").
Proof.
  unfold generate_rows in Hok.
  destruct (setup _ _ _ _ _ _ _ _) as [s|e] eqn:Es; [|discriminate].
  cbn [bind] in Hok.
  destruct (setup_ok _ _ _ _ Es) as (_ & Hmask & Hfill & Hstart & Htotal & hi & Hmax & Ht).
  destruct (fill_rows_ok _ _ _ Hfill) as [Hlen Hrows].
  rewrite Hmask in Hok.
  replace (batch_start s) with (Z.of_nat (Z.to_nat (batch_start s))) in Hok at 2 by lia.
  apply (generate_loop_keeps images _ (map encode prompts)
           (Z.to_nat (batch_total s))) in Hok;
    [| lia | exact Hlen | intros k Hk; now apply Hrows].
  destruct Hok as [Hl Hk]. rewrite length_map in *.
  split; [exact Hl|]. intros k Hlt.
  assert (k < length (map encode prompts))%nat as Hlt' by (rewrite length_map; exact Hlt).
  destruct (Hk k Hlt) as [_ H2]. destruct (Hrows k Hlt) as [_ H3].
  replace (nth k (map encode prompts) []) with (encode (nth k prompts "")) in *
    by (rewrite (nth_indep _ [] (encode "")) by exact Hlt'; now rewrite map_nth).
  rewrite H2. destruct H3 as [[H0 H1]|H3]; [exfalso | exact H3].
  assert (Forall (fun y => y <= hi)
            (map (fun t => Z.of_nat (length t)) (map encode prompts))) as Hall
      by (now apply py_max_ge).
  rewrite Forall_map, Forall_map, Forall_forall in Hall.
  specialize (Hall (nth k prompts "") (nth_In _ _ Hlt)). cbn beta in Hall.
  fold (window images) in Hwindow. lia.
Qed.

End GenerateProps.

Section GenerateOutputs.
Variable encode : string -> list Z.
Variable decode : list Z -> string.
Variable eos_id : Z.
Variable args_max_seq_len : Z.
Variable args_max_batch_size : Z.
Variable image_words : Z.
Variable model_state : Type.
Variable image_t : Type.
Variable logits_t : Type.
Variable forward_inference :
  model_state -> list (list Z) -> Z -> option image_t -> result logits_t.
Variable next_tokens_of :
  model_state -> list (list Z) -> Z -> option image_t -> result (list Z * model_state).

Lemma generate_loop_rows (images : option image_t) (bsz : Z)
    (mask : list (list bool)) (n : nat) :
  forall cur m tokens rows prev_pos,
    generate_loop eos_id model_state image_t next_tokens_of images bsz mask n cur m
      tokens prev_pos = Ok rows ->
    length rows = length tokens.
Proof.
  induction n as [|n IH]; intros cur m tokens rows prev_pos H; cbn [generate_loop] in H.
  - now injection H as <-.
  - destruct (next_tokens_of m _ prev_pos _) as [[next_token m']|e]; [|discriminate].
    unfold keep_prompt in H.
    destruct ((bsz =? 1) && _).
    + injection H as <-. apply set_column_length.
    + apply IH in H. rewrite H. apply set_column_length.
Qed.

(** X16: the token lists [generate] decodes: one per prompt, none
    contains the end-of-sequence id, and, for [max_gen_len >= 0], none is
    longer than [max_gen_len]; the texts returned are their decodings. *)
Theorem generate_tokens_bounded (m : model_state) (prompts : list string)
    (images : option image_t) (max_gen_len : Z) (toks : list (list Z))
    (Hgen : 0 <= max_gen_len)
    (Hok : generate_tokens encode eos_id args_max_seq_len args_max_batch_size
             image_words model_state image_t next_tokens_of m prompts images
             max_gen_len = Ok toks) :
  length toks = length prompts /\
  Forall (fun t => ~ In eos_id t /\ Z.of_nat (length t) <= max_gen_len) toks /\
  generate encode decode eos_id args_max_seq_len args_max_batch_size image_words
    model_state image_t logits_t forward_inference next_tokens_of m prompts images
    max_gen_len false
  = Ok (Decoded logits_t (map decode toks)).
Proof.
  split; [|split].
  - unfold generate_tokens, generate_rows in Hok.
    destruct (setup _ _ _ _ _ _ _ _) as [s|e] eqn:Es; [|discriminate].
    cbn [bind] in Hok.
    destruct (generate_loop _ _ _ _ _ _ _ _ _ _ _ _) as [rows|e] eqn:El; [|discriminate].
    cbn [bind] in Hok. injection Hok as <-.
    apply generate_loop_rows in El.
    destruct (setup_ok _ _ _ _ _ _ _ _ _ Es) as (_ & _ & Hfill & _).
    destruct (fill_rows_ok _ _ _ Hfill) as [Hlen _].
    rewrite length_map, length_combine, El, Hlen, !length_map. lia.
  - unfold generate_tokens in Hok.
    destruct (generate_rows _ _ _ _ _ _ _ _ _ _ _ _) as [rows|e]; [|discriminate].
    cbn [bind] in Hok. injection Hok as <-.
    rewrite Forall_map. apply Forall_forall. intros [p row] _. cbn [fst snd].
    unfold continuation.
    destruct (until_eos_clean eos_id
                (lslice row (Z.of_nat (length p)) (Z.of_nat (length p) + max_gen_len)))
      as [Hclean Hlen].
    split; [exact Hclean|].
    pose proof (lslice_length_le row (Z.of_nat (length p)) max_gen_len) as Hs. lia.
  - unfold generate. rewrite Hok. reflexivity.
Qed.

(** X17: [generate] refuses a batch larger than [max_batch_size] with an
    [AssertionError] that carries the pair of the batch size and the
    bound, and an empty batch with the [ValueError] of [min([])], in
    both cases before the model is called, also when only the logits are
    asked for. *)
Theorem generate_batch_size_errors (m : model_state) (prompts : list string)
    (images : option image_t) (max_gen_len : Z) (return_logits : bool) :
  (args_max_batch_size < Z.of_nat (length prompts) ->
   generate encode decode eos_id args_max_seq_len args_max_batch_size image_words
     model_state image_t logits_t forward_inference next_tokens_of m prompts images
     max_gen_len return_logits
   = Raise (AssertionError
              (str_of_pair (Z.of_nat (length prompts)) args_max_batch_size))) /\
  (prompts = [] -> 0 <= args_max_batch_size ->
   generate encode decode eos_id args_max_seq_len args_max_batch_size image_words
     model_state image_t logits_t forward_inference next_tokens_of m prompts images
     max_gen_len return_logits
   = Raise ValueError).
Proof.
  split.
  - intro H. unfold generate, generate_tokens, generate_rows, setup.
    replace (Z.of_nat (length prompts) <=? args_max_batch_size) with false
      by (symmetry; apply Z.leb_gt; exact H).
    destruct return_logits; reflexivity.
  - intros -> H. unfold generate, generate_tokens, generate_rows, setup.
    cbn [length Z.of_nat].
    replace (0 <=? args_max_batch_size) with true
      by (symmetry; apply Z.leb_le; exact H).
    destruct return_logits; reflexivity.
Qed.

Lemma assign_prefix_raises (row t : list Z) (e : exn) :
  assign_prefix row t = Raise e -> e = RuntimeError.
Proof.
  unfold assign_prefix.
  destruct (_ =? _)%nat; [discriminate|].
  destruct (_ =? 1)%nat; [discriminate|]. now intros [= <-].
Qed.

Lemma fill_rows_too_long (total : nat) (prompt_tokens : list (list Z)) (t : list Z) :
  In t prompt_tokens -> (total < length t)%nat -> (2 <= length t)%nat ->
  fill_rows total prompt_tokens = Raise RuntimeError.
Proof.
  intros Hin Hlong Htwo.
  induction prompt_tokens as [|t' more IH]; [contradiction|].
  cbn [fill_rows].
  destruct (assign_prefix (repeat 0 total) t') as [row|e] eqn:E.
  - cbn [bind]. destruct Hin as [->|Hin].
    + exfalso. unfold assign_prefix in E. rewrite repeat_length in E.
      replace (length t =? Nat.min (length t) total)%nat with false in E
        by (symmetry; apply Nat.eqb_neq; lia).
      replace (length t =? 1)%nat with false in E
        by (symmetry; apply Nat.eqb_neq; lia).
      discriminate.
    + now rewrite (IH Hin).
  - cbn [bind]. now rewrite (assign_prefix_raises _ _ _ E).
Qed.

(** X18: [generate] does not truncate prompts: when some prompt of an
    admissible batch has at least two tokens and more tokens than the
    context window (less the image words when images are given), the
    call raises [RuntimeError] while the token matrix is being filled. *)
Theorem generate_rejects_long_prompt (m : model_state) (prompts : list string)
    (images : option image_t) (max_gen_len : Z) (return_logits : bool)
    (prompt : string)
    (Hbatch : Z.of_nat (length prompts) <= args_max_batch_size)
    (Hin : In prompt prompts)
    (Htwo : (2 <= length (encode prompt))%nat)
    (Hlong : match images with
             | Some _ => args_max_seq_len - image_words
             | None => args_max_seq_len
             end < Z.of_nat (length (encode prompt))) :
  generate encode decode eos_id args_max_seq_len args_max_batch_size image_words
    model_state image_t logits_t forward_inference next_tokens_of m prompts images
    max_gen_len return_logits
  = Raise RuntimeError.
Proof.
  assert (setup encode args_max_seq_len args_max_batch_size image_words image_t
            prompts images max_gen_len = Raise RuntimeError) as Hsetup.
  { unfold setup.
    replace (Z.of_nat (length prompts) <=? args_max_batch_size) with true
      by (symmetry; apply Z.leb_le; exact Hbatch).
    cbn [negb].
    destruct prompts as [|p ps]; [contradiction|].
    cbn [map py_min py_max bind].
    match goal with
    | |- (if ?total <? 0 then _ else _) = _ => destruct (total <? 0) eqn:E
    end; [reflexivity|].
    apply Z.ltb_ge in E.
    rewrite (fill_rows_too_long _ _ (encode prompt)); [reflexivity | | | exact Htwo].
    - change (encode p :: map encode ps) with (map encode (p :: ps)).
      now apply in_map.
    - lia. }
  unfold generate, generate_tokens, generate_rows. rewrite Hsetup.
  destruct return_logits; reflexivity.
Qed.

End GenerateOutputs.

(** A batch of two prompts of two and one tokens, a model that always
    answers 9, six positions, two tokens to generate. *)
Lemma generate_keeps_prompts_witness :
  let encode := fun p : string => repeat 7 (String.length p) in
  let step := fun (m : unit) (w : list (list Z)) (prev_pos : Z) (i : option unit) =>
                Ok (map (fun _ : list Z => 9) w, m) in
  exists rows,
    generate_rows encode 2 6 32 0 unit unit step tt ["ab"; "a"] None 2 = Ok rows /\
    length rows = 2%nat /\
    forall k, (k < 2)%nat ->
      firstn (length (encode (nth k ["ab"; "a"] ""))) (nth k rows [])
      = encode (nth k ["ab"; "a"] "").
Proof.
  intros encode step. eexists. split; [reflexivity|].
  apply (generate_keeps_prompts encode 2 6 32 0 unit unit step tt ["ab"; "a"] None 2).
  - cbn. lia.
  - lia.
  - reflexivity.
Defined.

Lemma generate_tokens_bounded_witness :
  let encode := fun p : string => repeat 7 (String.length p) in
  let step := fun (m : unit) (w : list (list Z)) (prev_pos : Z) (i : option unit) =>
                Ok (map (fun _ : list Z => 9) w, m) in
  exists toks,
    generate_tokens encode 2 6 32 0 unit unit step tt ["ab"; "a"] None 2 = Ok toks /\
    length toks = 2%nat /\
    Forall (fun t => ~ In 2 t /\ Z.of_nat (length t) <= 2) toks /\
    generate encode Scenario.decode 2 6 32 0 unit unit unit
      (fun _ _ _ _ => Ok tt) step tt ["ab"; "a"] None 2 false
    = Ok (Decoded unit (map Scenario.decode toks)).
Proof.
  intros encode step. eexists. split; [reflexivity|].
  apply (generate_tokens_bounded encode Scenario.decode 2 6 32 0 unit unit unit
           (fun _ _ _ _ => Ok tt) step tt ["ab"; "a"] None 2).
  - lia.
  - reflexivity.
Defined.

Lemma generate_batch_size_errors_witness :
  let encode := fun p : string => repeat 7 (String.length p) in
  let step := fun (m : unit) (w : list (list Z)) (prev_pos : Z) (i : option unit) =>
                Ok (map (fun _ : list Z => 9) w, m) in
  generate encode Scenario.decode 2 3 1 0 unit unit unit
    (fun _ _ _ _ => Ok tt) step tt ["a"; "b"] None 2 false
  = Raise (AssertionError "(2, 1)") /\
  generate encode Scenario.decode 2 3 1 0 unit unit unit
    (fun _ _ _ _ => Ok tt) step tt [] None 2 true
  = Raise ValueError.
Proof.
  intros encode step.
  destruct (generate_batch_size_errors encode Scenario.decode 2 3 1 0 unit unit unit
              (fun _ _ _ _ => Ok tt) step tt ["a"; "b"] None 2 false) as [Hbig _].
  destruct (generate_batch_size_errors encode Scenario.decode 2 3 1 0 unit unit unit
              (fun _ _ _ _ => Ok tt) step tt [] None 2 true) as [_ Hempty].
  split.
  - apply Hbig. cbn. lia.
  - apply Hempty; [reflexivity | lia].
Defined.

Lemma generate_rejects_long_prompt_witness :
  let encode := fun p : string => repeat 7 (String.length p) in
  let step := fun (m : unit) (w : list (list Z)) (prev_pos : Z) (i : option unit) =>
                Ok (map (fun _ : list Z => 9) w, m) in
  generate encode Scenario.decode 2 3 32 0 unit unit unit
    (fun _ _ _ _ => Ok tt) step tt ["a"; "abcd"] None 2 false
  = Raise RuntimeError.
Proof.
  intros encode step.
  apply (generate_rejects_long_prompt encode Scenario.decode 2 3 32 0 unit unit unit
           (fun _ _ _ _ => Ok tt) step tt ["a"; "abcd"] None 2 false "abcd").
  - cbn. lia.
  - cbn. tauto.
  - cbn. lia.
  - cbn. lia.
Defined.

(* ================================================================== *)
(** * Further properties: the training window of [forward] *)
(* ================================================================== *)






(* ================================================================== *)
(** * Further properties: the demo's callbacks, workers and relay *)
(* ================================================================== *)

Import Demo.

Lemma lslice_drop_last {A : Type} (l : list A) (x : A) :
  lslice (l ++ [x]) 0 (-1) = l.
Proof.
  unfold lslice, clamp. rewrite List.length_app. cbn [length].
  cbn [Z.ltb Z.compare]. 
  replace (Z.to_nat (Z.max (-1 + Z.of_nat (length l + 1)) 0
                     - Z.min 0 (Z.of_nat (length l + 1))))
    with (length l) by lia.
  replace (Z.to_nat (Z.min 0 (Z.of_nat (length l + 1)))) with O by lia.
  cbn [skipn]. rewrite firstn_app, firstn_all, Nat.sub_diag. cbn. apply app_nil_r.
Qed.

(** X20: [undo] takes back what [show_user_input] has added: the
    history is restored, the text box cleared; on an empty history
    [undo] does nothing, and otherwise it removes exactly one turn. *)
Theorem undo_takes_back_input (msg : string) (cb : chatbot) :
  undo (snd (show_user_input msg cb)) = cb /\
  fst (show_user_input msg cb) = "" /\
  undo [] = [] /\
  length (undo cb) = pred (length cb).
Proof.
  split; [|split; [reflexivity|split; [reflexivity|]]].
  - unfold undo, show_user_input. cbn [snd].
    rewrite List.length_app. cbn [length].
    replace (0 <? Z.of_nat (length cb + 1)) with true
      by (symmetry; apply Z.ltb_lt; lia).
    apply lslice_drop_last.
  - unfold undo. destruct cb as [|x cb]; [reflexivity|].
    replace (0 <? Z.of_nat (length (x :: cb))) with true
      by (symmetry; apply Z.ltb_lt; cbn [length]; lia).
    destruct (exists_last (l := x :: cb)) as (front & y & E); [discriminate|].
    rewrite E, lslice_drop_last, List.length_app. cbn [length]. lia.
Qed.

Lemma set_last_answer_snoc (cb : chatbot) (q : string) (a : option string)
    (t : string) :
  set_last_answer (cb ++ [(q, a)])%list t = Ok (cb ++ [(q, Some t)])%list.
Proof.
  induction cb as [|[q0 a0] cb IH]; [reflexivity|].
  cbn [app set_last_answer].
  destruct (cb ++ [(q, a)])%list eqn:E; [now destruct cb|].
  rewrite IH. reflexivity.
Qed.

Lemma relay_histories (incoming : list item) (cb : chatbot) (q : string) :
  forall a : option string,
    Forall (fun sh => history sh = (cb ++ [(q, Some (text (piece sh)))])%list)
      (fst (relay incoming (cb ++ [(q, a)])%list)) /\
    snd (relay incoming (cb ++ [(q, a)])%list) <> Failed IndexError.
Proof.
  induction incoming as [|x later IH]; intro a; cbn [relay].
  - split; [constructor | discriminate].
  - destruct x as [| |d]; try (split; [constructor | discriminate]).
    rewrite set_last_answer_snoc.
    destruct (end_of_content d); cbn [fst snd].
    + split; [repeat constructor | discriminate].
    + destruct (IH (Some (text d))) as [H1 H2].
      split; [constructor; [reflexivity | exact H1] | exact H2].
Qed.

(** X21: after [show_user_input], the relay writes every piece into the
    answer of the turn just added and nowhere else: each history shown
    is the earlier history followed by the question with the piece's
    text as its answer; [chatbot[-1]] always exists, so no [IndexError]
    can arise. *)
Theorem relay_rewrites_last_answer (incoming : list item) (msg : string)
    (cb : chatbot) :
  let out := stream_model_output incoming (snd (show_user_input msg cb)) in
  Forall (fun sh => history sh = (cb ++ [(msg, Some (text (piece sh)))])%list)
    (fst out) /\
  snd out <> Failed IndexError.
Proof.
  unfold stream_model_output, show_user_input. cbn [snd].
  destruct (await_ready incoming) as [later|];
    [apply relay_histories | split; [constructor | discriminate]].
Qed.

(** X22: whatever lies on the response queue before the first [Ready]
    is dropped unseen, a stale [ModelFailure] included; the relay starts
    with the item after that [Ready]. *)
Theorem await_ready_drops_stale (stale later : list item) (cb : chatbot)
    (Hstale : Forall (fun x => x <> Ready) stale) :
  await_ready (stale ++ Ready :: later) = Some later /\
  stream_model_output (stale ++ Ready :: later) cb = relay later cb.
Proof.
  assert (await_ready (stale ++ Ready :: later) = Some later) as H.
  { induction Hstale as [|x stale Hx Hs IH]; [reflexivity|].
    cbn [app await_ready]. destruct x; [congruence | exact IH | exact IH]. }
  split; [exact H|]. unfold stream_model_output. now rewrite H.
Qed.

Lemma await_ready_drops_stale_witness :
  let stale := [ModelFailure; Content {| text := "old"; end_of_content := true |}] in
  let later := [Content {| text := "new"; end_of_content := true |}] in
  await_ready (stale ++ Ready :: later) = Some later /\
  stream_model_output (stale ++ Ready :: later) Scenario.one_question
  = relay later Scenario.one_question.
Proof.
  apply (await_ready_drops_stale
           [ModelFailure; Content {| text := "old"; end_of_content := true |}]).
  repeat constructor; discriminate.
Defined.

Lemma consume_outcome (conv_sep : string) (g : generator) :
  forall q : queue,
    snd (consume conv_sep (Some q) g) = snd (consume conv_sep None g).
Proof.
  induction g as [sr rest IH|v|e]; intro q; cbn [consume]; try reflexivity.
  destruct (trimmer conv_sep sr) as [out|]; [|apply IH].
  cbn [put_if_present]. destruct (end_of_content out); [reflexivity | apply IH].
Qed.

(** One cycle of rank 0 on a queue [q], exactly. *)
Lemma primary_cycle (conv_sep : string) (q : queue) (g : generator) :
  worker_cycle conv_sep (Some q) (Ok g)
  = (Some (q ++ Ready :: map Content (emitted conv_sep g)
             ++ (if cycle_failed conv_sep g then [ModelFailure] else []))%list,
     Ok tt).
Proof.
  unfold worker_cycle, cycle_failed. cbn [put_if_present]. cbv zeta.
  rewrite consume_posts, consume_outcome.
  destruct (snd (consume conv_sep None g)) as [u|e]; cbn [is_ok negb fst];
    unfold put; repeat rewrite <- app_assoc; cbn [app].
  - now rewrite app_nil_r.
  - reflexivity.
Qed.

(** X23: rank 0 outlives every request: its cycle ends normally with
    the queue extended by [Ready] and what it posted.  A worker without
    queue posts nothing, and its cycle ends in [AttributeError] exactly
    when rank 0, given the same request, posts [ModelFailure]. *)
Theorem primary_survives_replica_dies (conv_sep : string) (q : queue)
    (request : result generator) :
  exists posted,
    worker_cycle conv_sep (Some q) request = (Some (q ++ Ready :: posted)%list, Ok tt) /\
    fst (worker_cycle conv_sep None request) = None /\
    (In ModelFailure posted <->
     snd (worker_cycle conv_sep None request) = Raise AttributeError) /\
    (~ In ModelFailure posted <->
     snd (worker_cycle conv_sep None request) = Ok tt).
Proof.
  destruct request as [g|e].
  - rewrite primary_cycle. eexists. split; [reflexivity|].
    unfold worker_cycle, cycle_failed. cbn [put_if_present]. cbv zeta.
    pose proof (consume_replica conv_sep g) as Hq.
    destruct (consume conv_sep None g) as [q' [u|e]]; cbn [fst snd is_ok negb] in *;
      subst q'.
    + rewrite app_nil_r. split; [reflexivity|].
      assert (~ In ModelFailure (map Content (emitted conv_sep g))) as Hno.
      { intro H. apply in_map_iff in H. destruct H as (d & Hd & _). discriminate. }
      split; split; intro H; try discriminate; try reflexivity; tauto.
    + split; [reflexivity|].
      assert (In ModelFailure (map Content (emitted conv_sep g) ++ [ModelFailure]))
        as Hyes by (apply in_or_app; right; now left).
      split; split; intro H; try discriminate; try reflexivity; tauto.
  - exists [ModelFailure]. unfold worker_cycle. cbn. unfold put.
    rewrite <- app_assoc. cbn [app].
    split; [reflexivity|]. split; [reflexivity|].
    split; split; intro H; try discriminate; try reflexivity; tauto.
Qed.

Lemma primary_posts_exact (conv_sep : string) (g : generator) :
  primary_posts conv_sep g
  = (Ready :: map Content (emitted conv_sep g)
       ++ (if cycle_failed conv_sep g then [ModelFailure] else []))%list.
Proof. unfold primary_posts. now rewrite primary_cycle. Qed.

Lemma relay_until (l : list PartialResult) (rest : list item) (e : ending) :
  (forall cb, relay rest cb = ([], e)) ->
  stops_at_terminal l = true ->
  forall cb : chatbot, cb <> [] ->
    map piece (fst (relay (map Content l ++ rest) cb)) = l /\
    snd (relay (map Content l ++ rest) cb)
    = if existsb end_of_content l then Finished else e.
Proof.
  intro Hrest. induction l as [|d later IH]; intros Hs cb Hcb.
  - cbn [map app existsb]. rewrite Hrest. split; reflexivity.
  - cbn [map app relay existsb].
    destruct (set_last_answer_ok cb (text d) Hcb) as (cb' & E & Hcb').
    rewrite E. cbn [stops_at_terminal] in Hs.
    destruct (end_of_content d); cbn [orb fst snd map piece].
    + destruct later; [split; reflexivity | discriminate].
    + destruct (IH Hs cb' Hcb') as [H1 H2]. split; [now f_equal | exact H2].
Qed.

(** X24: what the caller gets for one request served by rank 0, the
    worker's next [Ready] following on the queue: every item the worker
    emitted, in order, and then a normal end only if a terminal item was
    among them.  Otherwise the relay raises: [RuntimeError] if the cycle
    failed (a partial stream may have been shown before), and
    [TypeError], on the next [Ready], if generation ended without the
    separator ever showing up. *)
Theorem relay_outcome (conv_sep : string) (g : generator) (later : list item)
    (cb : chatbot)
    (Hcb : cb <> []) :
  let out := stream_model_output (primary_posts conv_sep g ++ Ready :: later) cb in
  map piece (fst out) = emitted conv_sep g /\
  snd out = if existsb end_of_content (emitted conv_sep g) then Finished
            else if cycle_failed conv_sep g then Failed RuntimeError
            else Failed TypeError.
Proof.
  unfold stream_model_output. rewrite primary_posts_exact.
  cbn [app await_ready]. rewrite <- app_assoc.
  destruct (cycle_failed conv_sep g); cbn [app];
    (apply relay_until; [intro; reflexivity | apply emitted_stops | exact Hcb]).
Qed.

Lemma relay_outcome_witness :
  let out := stream_model_output
               (primary_posts "###" Scenario.eos_at_step_3 ++ [Ready])
               Scenario.one_question in
  map piece (fst out) = [] /\ snd out = Failed TypeError.
Proof.
  apply (relay_outcome "###" Scenario.eos_at_step_3 [] Scenario.one_question).
  discriminate.
Defined.

(** ** The trimmer at the separator *)

Lemma rstrip_split (s : string) :
  exists w, s = rstrip s ++ w /\ blank w = true.
Proof.
  induction s as [|a s (w & Hs & Hw)]; [exists ""; split; reflexivity|].
  cbn [rstrip]. destruct (rstrip s) as [|b r] eqn:E.
  - cbn [append] in Hs. subst w.
    destruct (isspace a) eqn:Ea.
    + exists (String a s). split; [reflexivity|]. cbn [blank]. now rewrite Ea, Hw.
    + exists s. split; [reflexivity | exact Hw].
  - exists w. split; [|exact Hw]. cbn [append] in Hs |- *. now f_equal.
Qed.

Lemma rstrip_ends_visibly (s : string) : ends_visibly (rstrip s).
Proof.
  unfold ends_visibly.
  induction s as [|a s IH]; intros front c H; cbn [rstrip] in H.
  - destruct front; discriminate.
  - destruct (rstrip s) as [|b r] eqn:E.
    + destruct (isspace a) eqn:Ea.
      * destruct front; discriminate.
      * destruct front as [|x front]; cbn [append] in H.
        -- injection H as <-. exact Ea.
        -- injection H as _ H. destruct front; discriminate.
    + destruct front as [|x front]; cbn [append] in H; [discriminate|].
      injection H as _ H. now apply (IH front c).
Qed.

Lemma find_from_range (s sub : string) (i : Z) :
  find_from i s sub = -1 \/ i <= find_from i s sub <= i + len s.
Proof.
  unfold len. revert i; induction s as [|c s IH]; intro i; cbn [find_from].
  - destruct (String.prefix sub ""); [right; cbn; lia | left; reflexivity].
  - destruct (String.prefix sub (String c s)); [right; cbn [String.length]; lia|].
    destruct (IH (i + 1)) as [H|H]; [left; exact H | right].
    cbn [String.length]. lia.
Qed.

(** X25: on an item whose text contains the separator, whether or not
    the item was terminal, the trimmer emits a terminal item: the text
    before the first occurrence, without its trailing whitespace (that
    of [str.rstrip()]: the ASCII one, next line and no-break space),
    closed by one newline.  A terminal item without the separator passes
    unchanged. *)
Theorem trimmer_at_separator (conv_sep : string) (ev : PartialResult) :
  (forall p, find (text ev) conv_sep = p -> p <> -1 ->
     exists body tail,
       trimmer conv_sep ev = Some {| text := body ++ nl; end_of_content := true |} /\
       slice_to (text ev) p = body ++ tail /\
       blank tail = true /\
       ends_visibly body /\
       is_prefix body (text ev)) /\
  (find (text ev) conv_sep = -1 -> end_of_content ev = true ->
   trimmer conv_sep ev = Some ev).
Proof.
  split.
  - intros p Hp Hne.
    destruct (rstrip_split (slice_to (text ev) p)) as (tail & Hs & Hb).
    exists (rstrip (slice_to (text ev) p)), tail.
    split; [|split; [exact Hs|split; [exact Hb|split]]].
    + unfold trimmer, cut_at_sep. rewrite Hp.
      replace (p =? -1) with false by (symmetry; now apply Z.eqb_neq).
      reflexivity.
    + apply rstrip_ends_visibly.
    + apply (is_prefix_trans _ (slice_to (text ev) p)).
      * exists tail. exact Hs.
      * unfold slice_to. apply take_is_prefix.
  - intros Hp He. unfold trimmer, cut_at_sep, hold_back. rewrite Hp. cbn.
    now rewrite He.
Qed.

Lemma trimmer_at_separator_witness :
  trimmer "###" {| text := "Fine." ++ String (ascii_of_nat 160) nl ++ "### Human"; end_of_content := false |}
  = Some {| text := "Fine." ++ nl; end_of_content := true |} /\
  exists body tail,
    trimmer "###" {| text := "Fine." ++ String (ascii_of_nat 160) nl ++ "### Human"; end_of_content := false |}
    = Some {| text := body ++ nl; end_of_content := true |} /\
    slice_to ("Fine." ++ String (ascii_of_nat 160) nl ++ "### Human") 7 = body ++ tail /\
    blank tail = true /\
    ends_visibly body /\
    is_prefix body ("Fine." ++ String (ascii_of_nat 160) nl ++ "### Human").
Proof.
  split; [reflexivity|].
  apply (proj1 (trimmer_at_separator "###"
                  {| text := "Fine." ++ String (ascii_of_nat 160) nl ++ "### Human"; end_of_content := false |})
           7); [reflexivity | discriminate].
Defined.

(* ================================================================== *)
(** * Further properties: SPHINXModel.generate_reponse *)
(* ================================================================== *)

Import Sphinx.

Lemma last_text_terminal (conv_sep : string) (g : generator) (d : PartialResult) :
  Forall (fun sr => end_of_content sr = false) (iterated g) ->
  In d (emitted conv_sep g) -> end_of_content d = true ->
  forall last, last_text conv_sep g last = Ok (text d).
Proof.
  induction g as [sr rest IH|v|e]; cbn [iterated emitted]; intros Hy Hin Hd last;
    try contradiction.
  inversion Hy as [|? ? Hsr Hrest]; subst. cbn [last_text].
  unfold trimmer, cut_at_sep in Hin.
  destruct (find (text sr) conv_sep =? -1) eqn:E; cbn [negb] in *.
  - unfold hold_back in Hin. rewrite Hsr in Hin. cbn [negb] in Hin.
    destruct (len (text sr) <? len conv_sep).
    + now apply IH.
    + cbn [end_of_content] in Hin.
      destruct Hin as [<-|Hin]; [cbn in Hd; congruence | now apply IH].
  - unfold hold_back in Hin. cbn [end_of_content negb] in Hin.
    destruct Hin as [<-|[]]. reflexivity.
Qed.

(** X26: when the separator shows up in the stream, SPHINX's
    [generate_reponse] returns what the demo worker sends as its
    terminal item: both cut the text at the separator, strip trailing
    whitespace and append a newline. *)
Theorem generate_reponse_agrees_with_demo (conv_sep : string) (qas : chatbot)
    (g : generator) (d : PartialResult)
    (Hqas : check_last_open qas = Ok tt)
    (Hyields : Forall (fun sr => end_of_content sr = false) (iterated g))
    (Hposted : In d (emitted conv_sep g))
    (Hterminal : end_of_content d = true) :
  generate_reponse conv_sep qas g = Ok (text d).
Proof.
  unfold generate_reponse. rewrite Hqas. cbn [bind].
  now apply last_text_terminal.
Qed.

Lemma generate_reponse_agrees_with_demo_witness :
  generate_reponse "###" Scenario.one_question Scenario.spaces_then_sep
  = Ok ("a" ++ nl).
Proof.
  apply (generate_reponse_agrees_with_demo "###" Scenario.one_question
           Scenario.spaces_then_sep {| text := "a" ++ nl; end_of_content := true |}).
  - reflexivity.
  - repeat constructor.
  - vm_compute. do 3 right. left. reflexivity.
  - reflexivity.
Defined.

Lemma last_text_plain (conv_sep : string) (g : generator) :
  Forall (fun sr => find (text sr) conv_sep = -1) (iterated g) ->
  forall last,
    last_text conv_sep g last
    = match finish g with
      | Raise e => Raise e
      | Ok _ =>
          match rev (iterated g), last with
          | sr :: _, _ => Ok (text sr)
          | [], Some sr => Ok (text sr)
          | [], None => Raise unbound_local
          end
      end.
Proof.
  induction g as [sr rest IH|v|e]; cbn [iterated finish last_text]; intros H last.
  - inversion H as [|? ? Hsr Hrest]; subst. rewrite Hsr. cbn [Z.eqb negb].
    rewrite (IH Hrest). destruct (finish rest); [|reflexivity].
    cbn [rev]. destruct (rev (iterated rest)); reflexivity.
  - destruct last; reflexivity.
  - reflexivity.
Qed.

(** X27: when the separator never shows up, [generate_reponse] returns
    the text of the last item yielded, in full; when nothing was yielded
    it fails on the unbound [stream_response]; an exception of the
    generator passes through. *)
Theorem generate_reponse_without_separator (conv_sep : string) (qas : chatbot)
    (g : generator)
    (Hqas : check_last_open qas = Ok tt)
    (Hnone : Forall (fun sr => find (text sr) conv_sep = -1) (iterated g)) :
  generate_reponse conv_sep qas g
  = match finish g with
    | Raise e => Raise e
    | Ok _ =>
        match rev (iterated g) with
        | sr :: _ => Ok (text sr)
        | [] => Raise unbound_local
        end
    end.
Proof.
  unfold generate_reponse. rewrite Hqas. cbn [bind].
  rewrite (last_text_plain conv_sep g Hnone).
  destruct (finish g); [|reflexivity]. destruct (rev (iterated g)); reflexivity.
Qed.

Lemma generate_reponse_without_separator_witness :
  generate_reponse "###" Scenario.one_question Scenario.eos_at_step_3 = Ok "ab".
Proof.
  rewrite (generate_reponse_without_separator "###" Scenario.one_question
             Scenario.eos_at_step_3); [reflexivity | reflexivity |].
  repeat constructor.
Defined.

Section EmptyStream.
Variable encode : string -> list Z.
Variable decode : list Z -> string.
Variable eos_id : Z.
Variable args_max_seq_len : Z.
Variable image_words : Z.
Variable model_state : Type.
Variable image_t : Type.
Variable next_token_of :
  model_state -> list Z -> Z -> option image_t -> result (Z * model_state).

(** X28: when the set-up of the stream succeeds and either
    [max_gen_len <= 0] or the model's first token is the end-of-sequence
    id, the stream yields nothing, [stream_response] is never bound, and
    [generate_reponse] fails at its final [return] with
    [UnboundLocalError]. *)
Theorem generate_reponse_unbound (conv_sep : string) (qas : chatbot)
    (m : model_state) (prompt : string) (image : option image_t) (max_gen_len : Z)
    (s : decode_setup)
    (Hqas : check_last_open qas = Ok tt)
    (Hinit : init encode args_max_seq_len image_words image_t prompt image max_gen_len
             = Ok s)
    (Hfirst : max_gen_len <= 0 \/
              exists m', next_token_of m (lslice (tokens0 s) 0 (prompt_size s)) 0 image
                         = Ok (eos_id, m')) :
  generate_reponse conv_sep qas
    (stream_generate encode decode eos_id args_max_seq_len image_words model_state
       image_t next_token_of m prompt image max_gen_len [])
  = Raise unbound_local.
Proof.
  unfold generate_reponse. rewrite Hqas. cbn [bind].
  unfold stream_generate. rewrite Hinit.
  destruct (init_layout _ _ _ _ _ _ _ _ Hinit) as (_ & Htotal & _).
  destruct (Z.to_nat (total_len s - prompt_size s)) as [|n] eqn:En;
    [reflexivity|].
  destruct Hfirst as [Hle|(m' & Hstep)]; [lia|].
  cbn [loop]. cbn [Z.eqb]. rewrite Hstep, Z.eqb_refl. reflexivity.
Qed.

End EmptyStream.

Lemma generate_reponse_unbound_witness :
  exists s,
    init Scenario.encode 2048 0 unit "" None 5 = Ok s /\
    generate_reponse "###" Scenario.one_question (Scenario.run Scenario.play [] 5)
    = Raise unbound_local.
Proof.
  eexists. split; [reflexivity|].
  apply (generate_reponse_unbound Scenario.encode Scenario.decode Scenario.eos_id
           2048 0 Scenario.script unit Scenario.play "###" Scenario.one_question
           [] "" None 5 _ eq_refl eq_refl).
  right. exists []. reflexivity.
Defined.

(* ================================================================== *)
(** * Further properties: the arguments of [from_pretrained] *)
(* ================================================================== *)

Import Pretrained.

(** X29: what [from_pretrained] fills in is found on disk, in the last
    checkpoint directory: a tokenizer path that was not given is that
    directory's [tokenizer.model] if it exists, and otherwise the
    directory itself provided it holds both [tokenizer.json] and
    [tokenizer_config.json]; a model type that was not given is read
    from an existing [meta.json]; a configuration that was not given is
    the existing [config.json] or empty.  Arguments that were given are
    passed on untouched. *)
Theorem resolve_sound (path_exists : string -> bool)
    (path_join : string -> string -> string)
    (read_llama_type : string -> result string)
    (pretrained_path : path_arg) (given_type : option string)
    (given_config : option config_arg) (given_tokenizer : option string)
    (r : resolved)
    (Hok : resolve path_exists path_join read_llama_type pretrained_path
             given_type given_config given_tokenizer = Ok r) :
  let dir := last (checkpoints r) "" in
  checkpoints r <> [] /\
  (pretrained_path = OnePath dir \/ pretrained_path = Paths (checkpoints r)) /\
  match given_type with
  | Some t => llama_type r = t
  | None => path_exists (path_join dir "meta.json") = true /\
            read_llama_type (path_join dir "meta.json") = Ok (llama_type r)
  end /\
  match given_config with
  | Some c => llama_config r = c
  | None => llama_config r
            = if path_exists (path_join dir "config.json")
              then Configs [path_join dir "config.json"] else Configs []
  end /\
  match given_tokenizer with
  | Some t => tokenizer_path r = t
  | None =>
      (path_exists (path_join dir "tokenizer.model") = true /\
       tokenizer_path r = path_join dir "tokenizer.model") \/
      (path_exists (path_join dir "tokenizer.model") = false /\
       path_exists (path_join dir "tokenizer.json") = true /\
       path_exists (path_join dir "tokenizer_config.json") = true /\
       tokenizer_path r = dir)
  end.
Proof.
  unfold resolve in Hok.
  assert (exists l, l <> [] /\
            (pretrained_path = OnePath (last l "") /\ l = [last l ""]
             \/ pretrained_path = Paths l) /\
            match pretrained_path with
            | OnePath p => Some [p]
            | Paths l' => Some l'
            | NoPath => None
            end = Some l) as (l & Hl & Hpath & El).
  { destruct pretrained_path as [p|l|]; [| |discriminate].
    - exists [p]. split; [discriminate|]. split; [left; split; reflexivity | reflexivity].
    - destruct l as [|x l]; [discriminate|].
      exists (x :: l). split; [discriminate|]. split; [now right | reflexivity]. }
  rewrite El in Hok. destruct l as [|x l']; [congruence|].
  set (l := x :: l') in *. set (dir := last l "") in *.
  destruct (match given_type with
            | Some t => Ok t
            | None => _
            end) as [ty|e] eqn:Ety; [|discriminate].
  cbn [bind] in Hok.
  destruct (match match given_tokenizer with
                  | Some t => Some t
                  | None => _
                  end with
            | Some t => Some t
            | None => _
            end) as [tok|] eqn:Etok; [|discriminate].
  injection Hok as <-. cbn [checkpoints llama_type llama_config tokenizer_path].
  fold dir.
  split; [exact Hl|]. split; [destruct Hpath as [[H _]|H]; [left | right]; exact H|].
  split; [|split].
  - destruct given_type as [t|]; [now injection Ety|].
    destruct (path_exists (path_join dir "meta.json")); [|discriminate].
    split; [reflexivity | exact Ety].
  - destruct given_config; reflexivity.
  - destruct given_tokenizer as [t|]; [now injection Etok|].
    destruct (path_exists (path_join dir "tokenizer.model")).
    + left. split; [reflexivity | now injection Etok].
    + right. split; [reflexivity|].
      destruct (path_exists (path_join dir "tokenizer.json")); [|discriminate].
      destruct (path_exists (path_join dir "tokenizer_config.json")); [|discriminate].
      cbn in Etok. injection Etok as <-. repeat split.
Qed.

Lemma resolve_sound_witness :
  let path_join := fun dir name : string => dir ++ "/" ++ name in
  let path_exists := fun p : string =>
    (p =? "b/meta.json")%string || (p =? "b/tokenizer.json")%string
    || (p =? "b/tokenizer_config.json")%string || (p =? "a/tokenizer.model")%string in
  let read_llama_type := fun _ : string => Ok "llama" in
  let r := {| checkpoints := ["a"; "b"]; llama_type := "llama";
              llama_config := Configs []; tokenizer_path := "b" |} in
  resolve path_exists path_join read_llama_type (Paths ["a"; "b"]) None None None = Ok r /\
  path_exists (path_join "b" "tokenizer.model") = false /\
  tokenizer_path r = "b".
Proof.
  intros path_join path_exists read_llama_type r.
  split; [reflexivity|].
  pose proof (resolve_sound path_exists path_join read_llama_type
                (Paths ["a"; "b"]) None None None r eq_refl) as H.
  destruct H as (_ & _ & _ & _ & [[H _]|(H1 & _ & _ & H2)]);
    [discriminate | split; assumption].
Defined.
